(** * Temporal smoothing of activity predictions

    A shallow embedding of the smoothing code of the notebook
    "Random forest + temporal models": the helper [mode], the rolling-mode
    smoother [rolling_mode], the per-participant smoothing loop, and the cell
    that calls [utils.train_hmm] and [utils.viterbi].

    Labels are strings, timestamps are integers (the int64 nanosecond values
    of a [DatetimeIndex]), category codes are integers.  Probabilities are
    rationals; the logarithm and the score arithmetic of the decoder, which
    the program does in floating point, are parameters of the development. *)

From Stdlib Require Import String Ascii.
From Stdlib Require Import List ZArith QArith Qabs Bool Lia Lqa.
From Stdlib Require Import Sorting.Sorted Structures.OrdersEx.
From Stdlib Require Import Sorting.Permutation Numbers.DecimalString.
From Stdlib Require Import Classes.RelationClasses.
Import ListNotations.

Local Open Scope Z_scope.

(** ** Exceptions *)

(** The Python exceptions the modelled code can raise. *)
Inductive exn : Type :=
| ValueError
| IndexError
| ValidationError.

Inductive result (A : Type) : Type :=
| Ok (a : A)
| Raise (e : exn).

Arguments Ok {A} a.
Arguments Raise {A} e.

Definition bind {A B : Type} (r : result A) (k : A -> result B) : result B :=
  match r with
  | Ok a => k a
  | Raise e => Raise e
  end.

Notation "x <- r ;; k" := (bind r (fun x => k))
  (at level 61, r at next level, right associativity).

(** ** Sorted unique values

    Both [pandas] (the categories of a categorical series) and [numpy]
    ([np.unique], used by [scipy.stats.mode]) produce the sorted list of the
    distinct values of an array. *)

Section Unique.

Context {A : Type}.
Variable cmp : A -> A -> comparison.

Fixpoint uinsert (x : A) (l : list A) : list A :=
  match l with
  | [] => [x]
  | y :: l' =>
      match cmp x y with
      | Lt => x :: l
      | Eq => l
      | Gt => y :: uinsert x l'
      end
  end.

(** [np.unique a]. *)
Definition unique (a : list A) : list A := fold_right uinsert [] a.

(** Position of [x] in [l]. *)
Fixpoint index_of (x : A) (l : list A) : option nat :=
  match l with
  | [] => None
  | y :: l' =>
      match cmp x y with
      | Eq => Some O
      | _ => option_map S (index_of x l')
      end
  end.

(** The strict order of the comparison. *)
Definition clt (x y : A) : Prop := cmp x y = Lt.

(** Number of occurrences of [x] in [l]. *)
Fixpoint count (x : A) (l : list A) : nat :=
  match l with
  | [] => O
  | y :: l' =>
      match cmp x y with
      | Eq => S (count x l')
      | _ => count x l'
      end
  end.

End Unique.

(** ** [scipy.stats.mode] *)

(** [np.argmax]: the first position holding the maximum; [best] and [bi] are
    the running maximum and its position, [i] the position of the head. *)
Fixpoint argmax_from (best : nat) (bi : nat) (i : nat) (l : list nat) : nat :=
  match l with
  | [] => bi
  | x :: l' =>
      if (best <? x)%nat then argmax_from x i (S i) l'
      else argmax_from best bi (S i) l'
  end.

Definition argmax (l : list nat) : nat :=
  match l with
  | [] => O
  | x :: l' => argmax_from x O 1%nat l'
  end.

(** [stats.mode a]: the distinct values of [a] in increasing order with their
    counts; the mode is the value at the first maximal count, returned with
    that count.  [None] stands for the [nan] result on an empty array. *)
Definition stats_mode (a : list Z) : option (Z * nat) :=
  match a with
  | [] => None
  | _ =>
      let vals := unique Z.compare a in
      let cnts := map (fun v => count Z.compare v a) vals in
      let k := argmax cnts in
      Some (nth k vals 0, nth k cnts O)
  end.

(** ** The notebook's [mode] *)

(** [mode alist]: the mode of a list, but the middle element when no value
    repeats.  [None] is the floating-point [nan]. *)
Definition mode (alist : list Z) : option Z :=
  match stats_mode alist with
  | None => None
  | Some (m, c) =>
      if (c =? 1)%nat then nth_error alist (length alist / 2)%nat
      else Some m
  end.

(** ** Categorical series *)

Definition label := string.

Definition label_cmp : label -> label -> comparison := String_as_OT.compare.

(** The categories of [pd.Series(y, dtype='category')]: the distinct labels
    in sorted order. *)
Definition categories (y : list label) : list label := unique label_cmp y.

(** [y.cat.codes]: the position of each label among the categories; [-1]
    is the code of a missing value. *)
Definition cat_code (cats : list label) (s : label) : Z :=
  match index_of label_cmp s cats with
  | Some i => Z.of_nat i
  | None => -1
  end.

Definition cat_codes (cats : list label) (y : list label) : list Z :=
  map (cat_code cats) y.

(** [pd.Categorical.from_codes]: every code must index a category. *)
Fixpoint from_codes (cats : list label) (cs : list Z) : result (list label) :=
  match cs with
  | [] => Ok []
  | c :: cs' =>
      if c <? 0 then Raise ValueError
      else
        match nth_error cats (Z.to_nat c) with
        | None => Raise ValueError
        | Some s => r <- from_codes cats cs' ;; Ok (s :: r)
        end
  end.

(** The maximal frequency of a label in a window. *)
Definition max_frequency (win : list label) : nat :=
  fold_right Nat.max O (map (fun l => count label_cmp l win) win).

(** Order of the labels: the sorted order of the categories. *)
Definition label_le (a b : label) : Prop := label_cmp a b <> Gt.

(** A code and the label it stands for. *)
Definition decodes (cats : list label) (c : Z) (s : label) : Prop :=
  0 <= c /\ nth_error cats (Z.to_nat c) = Some s.

(** ** Time-based rolling windows *)

(** pandas hands the timestamps and the window length to the search of the
    window bounds as [int64_t] nanoseconds, and the search does its
    arithmetic in that type: sums, differences and products wrap around. *)
Definition int64_min : Z := - 2 ^ 63.
Definition int64_max : Z := 2 ^ 63 - 1.

Definition wrap64 (z : Z) : Z := (z + 2 ^ 63) mod 2 ^ 64 - 2 ^ 63.

Definition sub64 (a b : Z) : Z := wrap64 (a - b).
Definition mul64 (a b : Z) : Z := wrap64 (a * b).

Definition fits_int64 (z : Z) : bool := (int64_min <=? z) && (z <=? int64_max).

(** No difference of the window search leaves int64: every timestamp moved
    by the window length either way, and every difference of two timestamps
    moved by the window length either way, is an int64. *)
Definition no_overflow (index : list Z) (window_size : Z) : bool :=
  forallb
    (fun a =>
       fits_int64 (a - window_size) && fits_int64 (a + window_size)
       && forallb
            (fun b =>
               fits_int64 (b - a - window_size)
               && fits_int64 (b - a + window_size))
            index)
    index.

Section Rolling.

(** The index (timestamps) and the window length, in the same unit. *)
Variable index : list Z.
Variable window_size : Z.

Definition idx (i : nat) : Z := nth i index 0.

(** The sign pandas gives to the direction of the index. *)
Definition index_growth_sign : Z :=
  match index with
  | [] => 1
  | t0 :: _ => if last index t0 <? t0 then -1 else 1
  end.

(** The search for the start of window [i]: the first position [j] from
    [j] up to [i] (exclusive) whose [start_diff], computed in int64, is
    positive (its timestamp is after [start_bound] when nothing wraps);
    [i] itself when there is none.  [n] is [i - j]. *)
Fixpoint advance_start (start_bound : Z) (j n : nat) : nat :=
  match n with
  | O => j
  | S n' =>
      let start_diff := mul64 (sub64 (idx j) start_bound) index_growth_sign in
      if 0 <? start_diff then j
      else advance_start start_bound (S j) n'
  end.

(** Bounds [(start, end)] of the windows [i, i+1, ...], the right end
    closed: window [i] ends after entry [i]. *)
Fixpoint bounds_from (i prev_start n : nat) : list (nat * nat) :=
  match n with
  | O => []
  | S n' =>
      let start_bound := sub64 (idx i) (mul64 index_growth_sign window_size) in
      let s := advance_start start_bound prev_start (i - prev_start) in
      (s, S i) :: bounds_from (S i) s n'
  end.

(** The window bounds of [rolling(window_size)] with the defaults of an
    offset window ([closed='right'], [min_periods=1]). *)
Definition window_bounds : list (nat * nat) :=
  match index with
  | [] => []
  | _ :: rest => (O, 1%nat) :: bounds_from 1 0 (length rest)
  end.

(** [s] is where the window of position [i] starts: the entries before
    [s] are at most [t_i - w], those from [s] to [i] are after it. *)
Definition starts_at (s i : nat) : Prop :=
  (s <= i)%nat /\
  (forall j, (j < s)%nat -> idx j <= idx i - window_size) /\
  (forall j, (s <= j <= i)%nat -> idx i - window_size < idx j).

End Rolling.

Definition slice {A : Type} (b : nat * nat) (x : list A) : list A :=
  firstn (snd b - fst b) (skipn (fst b) x).

(** The windows of [x] that [rolling(window_size)] hands to a function. *)
Definition rolling_windows {A : Type} (index : list Z) (window_size : Z)
    (x : list A) : list (list A) :=
  map (fun b => slice b x) (window_bounds index window_size).

(** The entries of [x] whose timestamp lies in the closed interval from
    [t_i - w] to [t_i]. *)
Definition closed_interval_window {A : Type} (t : list Z) (w : Z) (i : nat)
    (x : list A) : list A :=
  map snd
    (filter (fun p => (nth i t 0 - w <=? fst p) && (fst p <=? nth i t 0))
            (combine t x)).

(** The entries of [x] at positions up to [i] whose timestamp lies in the
    interval from [t_i - w] (excluded) to [t_i] (included). *)
Definition trailing_window {A : Type} (t : list Z) (w : Z) (i : nat)
    (x : list A) : list A :=
  map snd
    (filter (fun p => (nth i t 0 - w <? fst p) && (fst p <=? nth i t 0))
            (firstn (S i) (combine t x))).

(** The entries of [x], at any position, whose timestamp lies in that
    interval. *)
Definition half_open_interval_window {A : Type} (t : list Z) (w : Z)
    (i : nat) (x : list A) : list A :=
  map snd
    (filter (fun p => (nth i t 0 - w <? fst p) && (fst p <=? nth i t 0))
            (combine t x)).

Fixpoint is_monotonic_increasing (l : list Z) : bool :=
  match l with
  | a :: (b :: _) as l' => (a <=? b) && is_monotonic_increasing l'
  | _ => true
  end.

Fixpoint is_monotonic_decreasing (l : list Z) : bool :=
  match l with
  | a :: (b :: _) as l' => (b <=? a) && is_monotonic_decreasing l'
  | _ => true
  end.

(** [astype('int')] fails on [nan]. *)
Fixpoint astype_int (l : list (option Z)) : result (list Z) :=
  match l with
  | [] => Ok []
  | None :: _ => Raise ValueError
  | Some c :: l' => r <- astype_int l' ;; Ok (c :: r)
  end.

(** ** [rolling_mode] *)

Definition seconds (n : Z) : Z := n * 1000000000.

(** The default ['100S'] of [rolling_mode]. *)
Definition default_window : Z := seconds 100.

Definition rolling_mode (t : list Z) (y : list label) (window_size : Z)
    : result (list label) :=
  if negb (length t =? length y)%nat then Raise ValueError
  else
    let cats := categories y in
    let codes := cat_codes cats y in
    if negb (is_monotonic_increasing t || is_monotonic_decreasing t)
    then Raise ValueError
    else
      y_code_smooth <-
        astype_int (map mode (rolling_windows t window_size codes)) ;;
      from_codes cats y_code_smooth.

(** ** Smoothing the predictions of each participant *)

(** Insertion of a pair in a list ordered by first component. *)
Fixpoint insert_by_key {A : Type} (p : nat * A) (l : list (nat * A))
    : list (nat * A) :=
  match l with
  | [] => [p]
  | q :: l' =>
      if (fst p <=? fst q)%nat then p :: l else q :: insert_by_key p l'
  end.

(** [a[np.argsort(keys)]]. *)
Definition order_by_key {A : Type} (keys : list nat) (a : list A) : list A :=
  map snd (fold_right insert_by_key [] (combine keys a)).

(** [unqP, indP = np.unique(pid, return_index=True)] followed by
    [unqP[np.argsort(indP)]]: the participants in order of first
    appearance. *)
Definition participants (pid : list label) : list label :=
  let unqP := unique label_cmp pid in
  let indP :=
    map (fun p => match index_of label_cmp p pid with
                  | Some i => i
                  | None => O
                  end) unqP in
  order_by_key indP unqP.

(** [a[mask]] for a boolean mask: the lengths must agree. *)
Fixpoint bool_index {A : Type} (mask : list bool) (a : list A)
    : result (list A) :=
  match mask, a with
  | [], [] => Ok []
  | m :: mask', x :: a' =>
      r <- bool_index mask' a' ;; Ok (if m then x :: r else r)
  | _, _ => Raise IndexError
  end.

(** [pid == p], element by element. *)
Definition pid_mask (pid : list label) (p : label) : list bool :=
  map (String.eqb p) pid.

Fixpoint for_each {A B : Type} (f : A -> result B) (l : list A)
    : result (list B) :=
  match l with
  | [] => Ok []
  | x :: l' => y <- f x ;; r <- for_each f l' ;; Ok (y :: r)
  end.

(** [np.concatenate] refuses an empty list of arrays. *)
Definition np_concatenate {A : Type} (parts : list (list A))
    : result (list A) :=
  match parts with
  | [] => Raise ValueError
  | _ => Ok (concat parts)
  end.

(** The cell "Smooth the predictions of each participant". *)
Definition smooth_by_participant (T_test : list Z) (Y_test_pred : list label)
    (pid_test : list label) : result (list label) :=
  parts <-
    for_each
      (fun p =>
         let mask := pid_mask pid_test p in
         t <- bool_index mask T_test ;;
         y <- bool_index mask Y_test_pred ;;
         rolling_mode t y default_window)
      (participants pid_test) ;;
  np_concatenate parts.

(** The positions, in the arrays of the whole test set, of the entries that
    make up each window handed to [mode] while participant [p] is smoothed:
    the window bounds of the call are applied to the positions selected by
    the mask instead of the label codes. *)
Definition window_positions (T_test : list Z) (pid_test : list label)
    (p : label) : result (list (list nat)) :=
  let mask := pid_mask pid_test p in
  t <- bool_index mask T_test ;;
  pos <- bool_index mask (seq 0 (length pid_test)) ;;
  Ok (rolling_windows t default_window pos).

(** ** The HMM parameter bundle *)

(** Modelled from the spec: the bundle returned by [utils.train_hmm] and
    read by [utils.viterbi] (section 3): the prior vector, the transition
    and emission matrices, and the label order they are indexed by. *)
Record HMMParams : Type := {
  prior : list Q;
  transition : list (list Q);
  emission : list (list Q);
  labels : list label
}.

Definition entry (m : list (list Q)) (i j : nat) : Q :=
  nth j (nth i m []) 0%Q.

Definition qsum (l : list Q) : Q := fold_right Qplus 0%Q l.

Definition label_index (ls : list label) (s : label) : option nat :=
  index_of label_cmp s ls.

Definition mem_label (ls : list label) (s : label) : bool :=
  match label_index ls s with
  | Some _ => true
  | None => false
  end.

(** ** [train_hmm] *)

(** Modelled from the spec: what replaces a row that cannot be normalised
    (sections 4.2 and 7), a uniform row or the prior. *)
Inductive fallback : Type :=
| FallbackUniform
| FallbackPrior.

(** Modelled from the spec: the configuration of the estimator, the
    explicit flag for a uniform prior and the choice of fallback. *)
Record config : Type := {
  uniform_prior : bool;
  zero_row : fallback
}.

Definition uniform_row (K : nat) : list Q :=
  repeat (1 / inject_Z (Z.of_nat K))%Q K.

(** Modelled from the spec: a row divided by its sum; the fallback [fb]
    when the row does not normalise. *)
Definition normalize_row (fb row : list Q) : list Q :=
  let s := qsum row in
  if Qeq_bool s 0 then fb else map (fun x => x / s)%Q row.

Definition qnat (n : nat) : Q := inject_Z (Z.of_nat n).

(** Rows of [a] whose true label is [c]. *)
Fixpoint rows_of_class {A : Type} (c : label) (y : list label) (a : list A)
    : list A :=
  match y, a with
  | l :: y', r :: a' =>
      if String.eqb l c then r :: rows_of_class c y' a'
      else rows_of_class c y' a'
  | _, _ => []
  end.

(** Average of the probability vectors [rows], column by column. *)
Definition mean_rows (K : nat) (rows : list (list Q)) : list Q :=
  map (fun j => qsum (map (fun r => nth j r 0%Q) rows) / qnat (length rows))%Q
      (seq 0 K).

(** Modelled from the spec: whether entries [i] and [i+1] belong to the
    same subject; a sequence given without subject identifiers is one
    subject's sequence. *)
Definition same_subject (groups : option (list label)) (i : nat) : bool :=
  match groups with
  | None => true
  | Some g =>
      match nth_error g i, nth_error g (S i) with
      | Some a, Some b => String.eqb a b
      | _, _ => false
      end
  end.

(** Modelled from the spec: the number of adjacent pairs [(c, d)] of the
    ground truth, in original order, drawn from the same subject. *)
Definition transition_count (groups : option (list label)) (y : list label)
    (c d : label) : nat :=
  length
    (filter
       (fun i =>
          same_subject groups i
          && String.eqb (nth i y ""%string) c
          && String.eqb (nth (S i) y ""%string) d)
       (seq 0 (length y - 1))).

Definition count_label (c : label) (y : list label) : nat :=
  length (filter (String.eqb c) y).

(** Modelled from the spec: the prior, uniform by the flag, otherwise the
    empirical frequency of each label normalised to sum to 1. *)
Definition estimate_prior (cfg : config) (y : list label)
    (label_order : list label) : list Q :=
  let K := length label_order in
  if uniform_prior cfg then uniform_row K
  else
    normalize_row (uniform_row K)
      (map (fun c => qnat (count_label c y) / qnat (length y))%Q label_order).

Definition fallback_row (cfg : config) (pri : list Q) (K : nat) : list Q :=
  match zero_row cfg with
  | FallbackUniform => uniform_row K
  | FallbackPrior => pri
  end.

(** Modelled from the spec: for each true class, the average of the
    probability vectors of its rows, normalised. *)
Definition estimate_emission (fb : list Q) (probabilities : list (list Q))
    (y : list label) (label_order : list label) : list (list Q) :=
  map (fun c =>
         normalize_row fb
           (mean_rows (length label_order) (rows_of_class c y probabilities)))
      label_order.

(** Modelled from the spec: for each class, the counts of its successors,
    normalised. *)
Definition estimate_transition (fb : list Q) (groups : option (list label))
    (y : list label) (label_order : list label) : list (list Q) :=
  map (fun c =>
         normalize_row fb
           (map (fun d => qnat (transition_count groups y c d)) label_order))
      label_order.

Definition groups_ok (groups : option (list label)) (n : nat) : bool :=
  match groups with
  | None => true
  | Some g => (length g =? n)%nat
  end.

(** Modelled from the spec: [utils.train_hmm], whose body is in [utils.py],
    is not among the sources; only its call in the notebook is.  The
    estimator follows sections 4.2 and 7 of the specification: validation of
    the inputs, a prior that is empirical or uniform by an explicit flag, an
    emission row per true class (the average probability vector of the rows
    of that class, normalised), a transition row per class (counts of
    adjacent ground-truth pairs of the same subject, normalised), and the
    documented fallback for a row that cannot be normalised.  [groups]
    carries the subject identifiers of the training windows when the caller
    has them. *)
Definition train_hmm (cfg : config) (groups : option (list label))
    (probabilities : list (list Q)) (true_labels : list label)
    (label_order : list label) : result HMMParams :=
  let K := length label_order in
  if negb (length probabilities =? length true_labels)%nat
  then Raise ValidationError
  else if negb (groups_ok groups (length true_labels))
  then Raise ValidationError
  else if negb (forallb (mem_label label_order) true_labels)
  then Raise ValidationError
  else if (K <? 2)%nat then Raise ValidationError
  else
    let pri := estimate_prior cfg true_labels label_order in
    let fb := fallback_row cfg pri K in
    Ok {| prior := pri;
          transition := estimate_transition fb groups true_labels label_order;
          emission := estimate_emission fb probabilities true_labels label_order;
          labels := label_order |}.

(** A row that sums to 1 exactly and has no negative entry. *)
Definition exact_row (row : list Q) : Prop :=
  (qsum row == 1)%Q /\ Forall (fun x => 0 <= x)%Q row.

(** A row that sums to 1 within [tol] and has no negative entry. *)
Definition stochastic_row (tol : Q) (row : list Q) : Prop :=
  (Qabs (qsum row - 1) <= tol)%Q /\ Forall (fun x => 0 <= x)%Q row.

Definition tolerance : Q := 1 # 1000000000.

(** ** [viterbi] *)

Section Viterbi.

(** The floating-point side of the decoder: the type of log-scores, the
    logarithm, addition and comparison of scores, and the small positive
    floor that replaces a probability of exactly zero. *)
Variable score : Type.
Variable ln : Q -> score.
Variable sadd : score -> score -> score.
Variable sleb : score -> score -> bool.
Variable floor : Q.

(** Modelled from the spec: the numerical policy of section 4.3, an entry
    of exactly 0 is replaced by the floor before its logarithm is taken. *)
Definition clip (x : Q) : Q := if Qeq_bool x 0 then floor else x.

Definition safe_log (x : Q) : score := ln (clip x).

(** First position of a maximum of [f] over [0 .. n]: a later position
    replaces the current one only when it is strictly better. *)
Fixpoint best_upto (f : nat -> score) (n : nat) : nat :=
  match n with
  | O => O
  | S n' =>
      let b := best_upto f n' in
      if sleb (f n) (f b) then b else n
  end.

(** [argmax] and [max] of [f] over the [K] states [0 .. K-1]. *)
Definition sargmax (K : nat) (f : nat -> score) : nat := best_upto f (K - 1).
Definition smax (K : nat) (f : nat -> score) : score := f (sargmax K f).

Variable params : HMMParams.

Definition nstates : nat := length (labels params).

Definition row_get (row : list score) (j : nat) : score :=
  nth j row (safe_log 0).

(** Modelled from the spec: the row of the table at [t = 0], the initial
    scores; there is no backpointer to record. *)
Definition init_row (o : nat) : list (score * nat) :=
  map (fun k =>
         (sadd (safe_log (nth k (prior params) 0%Q))
               (safe_log (entry (emission params) k o)), O))
      (seq 0 nstates).

(** Modelled from the spec: one cell of the table at [t >= 1], the score
    and the backpointer. *)
Definition step_cell (prev : list score) (o k : nat) : score * nat :=
  let cand j :=
    sadd (row_get prev j) (safe_log (entry (transition params) j k)) in
  let j := sargmax nstates cand in
  (sadd (cand j) (safe_log (entry (emission params) k o)), j).

Definition step_row (prev : list score) (o : nat) : list (score * nat) :=
  map (step_cell prev o) (seq 0 nstates).

(** Modelled from the spec: the rows of the table for the observations
    after the first. *)
Fixpoint forward (prev : list score) (obs : list nat)
    : list (list (score * nat)) :=
  match obs with
  | [] => []
  | o :: obs' =>
      let row := step_row prev o in
      row :: forward (map fst row) obs'
  end.

(** Modelled from the spec: path reconstruction, the state at the time of
    [cur] and the states after it, following the backpointers from the best
    final state. *)
Fixpoint backtrack (cur : list score) (rows : list (list (score * nat)))
    : nat * list nat :=
  match rows with
  | [] => (sargmax nstates (row_get cur), [])
  | row :: rows' =>
      let '(s, rest) := backtrack (map fst row) rows' in
      (nth s (map snd row) O, s :: rest)
  end.

(** The scores of the last row of the table. *)
Fixpoint final_scores (cur : list score) (rows : list (list (score * nat)))
    : list score :=
  match rows with
  | [] => cur
  | row :: rows' => final_scores (map fst row) rows'
  end.

(** Modelled from the spec: observed labels to positions in
    [params.labels]; [None] when a label is not a member. *)
Fixpoint to_numeric (obs : list label) : option (list nat) :=
  match obs with
  | [] => Some []
  | o :: obs' =>
      match label_index (labels params) o, to_numeric obs' with
      | Some i, Some r => Some (i :: r)
      | _, _ => None
      end
  end.

(** Modelled from the spec: the table of the decoder, one row per
    observation, each cell a score and a backpointer. *)
Definition viterbi_table (obs : list nat) : list (list (score * nat)) :=
  match obs with
  | [] => []
  | o :: obs' =>
      let row0 := init_row o in
      row0 :: forward (map fst row0) obs'
  end.

Definition table_score (tbl : list (list (score * nat))) (t k : nat)
    : score :=
  row_get (map fst (nth t tbl [])) k.

Definition table_back (tbl : list (list (score * nat))) (t k : nat) : nat :=
  nth k (map snd (nth t tbl [])) O.

(** Modelled from the spec: the decoded path of states. *)
Definition viterbi_path (obs : list nat) : list nat :=
  match viterbi_table obs with
  | [] => []
  | row0 :: rows =>
      let '(s, rest) := backtrack (map fst row0) rows in
      s :: rest
  end.

(** Modelled from the spec: [utils.viterbi], whose body is in [utils.py],
    is not among the sources; only its call in the notebook is.  The
    decoder follows section 4.3 of the specification: validation of the
    observations, a forward table of log-scores with backpointers, and the
    reconstruction of the path from the best final state. *)
Definition viterbi (predicted_labels : list label) : result (list label) :=
  match predicted_labels with
  | [] => Raise ValidationError
  | _ =>
      match to_numeric predicted_labels with
      | None => Raise ValidationError
      | Some obs =>
          Ok (map (fun s => nth s (labels params) ""%string)
                  (viterbi_path obs))
      end
  end.

End Viterbi.

(** An integer stand-in for the logarithm, to run the decoder on examples:
    the base-2 logarithm of the probability in fixed point, rounded down. *)
Definition log2_fixed (q : Q) : Z :=
  Z.log2 ((Qnum q * 2 ^ 60) / Zpos (Qden q)) - 60.

Definition example_floor : Q := 1 # 10000000000000000.

Definition example_params : HMMParams :=
  {| prior := [1 # 2; 1 # 2];
     transition := [[9 # 10; 1 # 10]; [1 # 10; 9 # 10]];
     emission := [[8 # 10; 2 # 10]; [2 # 10; 8 # 10]];
     labels := ["A"; "B"]%string |}.

(** ** The HMM cell of the notebook *)

(** The variables of the notebook that the HMM cell can see. *)
Record notebook : Type := {
  Y_train_prob : list (list Q);
  Y_train : list label;
  pid_train : list label;
  clf_classes : list label;
  Y_test_pred : list label;
  pid_test : list label
}.

(** [hmm_params = utils.train_hmm(Y_train_prob, Y_train, labels)]: the call
    passes the pooled training arrays and the label order, and no participant
    identifiers.  The function called is a parameter. *)
Definition hmm_params_cell {P : Type}
    (utils_train_hmm : list (list Q) -> list label -> list label -> P)
    (nb : notebook) : P :=
  utils_train_hmm (Y_train_prob nb) (Y_train nb) (clf_classes nb).

(** The same call with the modelled estimator: no subject identifiers
    reach it. *)
Definition hmm_params (cfg : config) (nb : notebook) : result HMMParams :=
  hmm_params_cell (train_hmm cfg None) nb.

(** [Y_test_pred_hmm = utils.viterbi(Y_test_pred, hmm_params)]: one call on
    the predictions of the whole test set.  The function called is a
    parameter. *)
Definition hmm_smooth_cell {P R : Type}
    (utils_train_hmm : list (list Q) -> list label -> list label -> P)
    (utils_viterbi : list label -> P -> R)
    (nb : notebook) : R :=
  utils_viterbi (Y_test_pred nb) (hmm_params_cell utils_train_hmm nb).

(** The notebook with other participant identifiers for the training and
    test windows. *)
Definition with_pids (nb : notebook) (train_pids test_pids : list label)
    : notebook :=
  {| Y_train_prob := Y_train_prob nb;
     Y_train := Y_train nb;
     pid_train := train_pids;
     clf_classes := clf_classes nb;
     Y_test_pred := Y_test_pred nb;
     pid_test := test_pids |}.

(** Two training participants with a jump from sit to walk exactly at the
    seam between them. *)
Definition seam_notebook : notebook :=
  {| Y_train_prob := [[1; 0]; [1; 0]; [0; 1]; [0; 1]]%Q;
     Y_train := ["sit"; "sit"; "walk"; "walk"]%string;
     pid_train := ["P001"; "P001"; "P002"; "P002"]%string;
     clf_classes := ["sit"; "walk"]%string;
     Y_test_pred := [];
     pid_test := [] |}.

Definition all_configs : list config :=
  [ {| uniform_prior := true; zero_row := FallbackUniform |};
    {| uniform_prior := true; zero_row := FallbackPrior |};
    {| uniform_prior := false; zero_row := FallbackUniform |};
    {| uniform_prior := false; zero_row := FallbackPrior |} ].

(** ** Further cells of the notebook *)

(** Whether consecutive timestamps are at least [w] apart. *)
Fixpoint gaps_at_least (w : Z) (l : list Z) : bool :=
  match l with
  | a :: (b :: _) as l' => (a + w <=? b) && gaps_at_least w l'
  | _ => true
  end.

(** A change of origin and unit of the timestamps. *)
Definition rescale (k c x : Z) : Z := k * x + c.

(** The distinct identifiers of [l] in order of first appearance. *)
Fixpoint first_appearances (l : list label) : list label :=
  match l with
  | [] => []
  | x :: l' =>
      x :: filter (fun y => negb (String.eqb x y)) (first_appearances l')
  end.

(** The number of windows of participant [p]. *)
Definition count_pid (p : label) (pid : list label) : nat :=
  length (filter (String.eqb p) pid).

(** The position at which [p] first appears in [pid], as [np.unique]
    returns it for the identifiers it lists. *)
Definition first_index (pid : list label) (p : label) : nat :=
  match index_of label_cmp p pid with
  | Some i => i
  | None => O
  end.

(** The windows of one participant: the identifier, the timestamps and the
    labels. *)
Definition block : Type := label * (list Z * list label).

Definition block_times (b : block) : list Z := fst (snd b).
Definition block_labels (b : block) : list label := snd (snd b).

(** The arrays of a test set in which the windows of each participant are
    contiguous. *)
Definition blocks_T (bs : list block) : list Z :=
  concat (map block_times bs).
Definition blocks_Y (bs : list block) : list label :=
  concat (map block_labels bs).
Definition blocks_pid (bs : list block) : list label :=
  concat (map (fun b => repeat (fst b) (length (block_labels b))) bs).

(** *** Train/test split *)

(** [f'P{i}']. *)
Definition participant_id (i : nat) : label :=
  ("P" ++ NilEmpty.string_of_uint (Nat.to_uint i))%string.

(** [test_ids = [f'P{i}' for i in range(101,152)]]. *)
Definition test_ids : list label := map participant_id (seq 101 51).

(** [np.isin(a, values)]. *)
Definition np_isin (a values : list label) : list bool :=
  map (fun p => existsb (String.eqb p) values) a.

Definition mask_test (pid : list label) : list bool := np_isin pid test_ids.

(** [mask_train = ~mask_test]. *)
Definition mask_train (pid : list label) : list bool :=
  map negb (mask_test pid).

(** The objects the cell indexes by a mask: [X_feats] is a pandas
    [DataFrame]; [Y], [T] and [pid] are numpy arrays. *)
Inductive container : Type := DataFrame | ndarray.

(** [df[mask]] on a [DataFrame]: pandas compares the length of the mask
    with the number of rows itself and raises a [ValueError] ("Item wrong
    length"), then takes the rows at [mask.nonzero()]. *)
Definition frame_index {A : Type} (mask : list bool) (rows : list A)
    : result (list A) :=
  if negb (length mask =? length rows)%nat then Raise ValueError
  else Ok (map snd (filter fst (combine mask rows))).

(** [a[mask]], by the kind of [a]. *)
Definition mask_index {A : Type} (c : container) (mask : list bool)
    (a : list A) : result (list A) :=
  match c with
  | DataFrame => frame_index mask a
  | ndarray => bool_index mask a
  end.

(** One object of the data set cut into its training and test parts:
    [a[mask_train]] and [a[mask_test]]. *)
Definition train_test_split {A : Type} (c : container) (pid : list label)
    (a : list A) : result (list A * list A) :=
  a_train <- mask_index c (mask_train pid) a ;;
  a_test <- mask_index c (mask_test pid) a ;;
  Ok (a_train, a_test).

(** The two assignments of the cell, each tuple evaluated from left to
    right: the four training parts, then the four test parts. *)
Definition split_cell {F : Type} (X_feats : list F) (Y : list label)
    (T : list Z) (pid : list label)
    : result ((list F * list label * list Z * list label)
              * (list F * list label * list Z * list label)) :=
  X_train <- mask_index DataFrame (mask_train pid) X_feats ;;
  Y_train <- mask_index ndarray (mask_train pid) Y ;;
  T_train <- mask_index ndarray (mask_train pid) T ;;
  pid_train <- mask_index ndarray (mask_train pid) pid ;;
  X_test <- mask_index DataFrame (mask_test pid) X_feats ;;
  Y_test <- mask_index ndarray (mask_test pid) Y ;;
  T_test <- mask_index ndarray (mask_test pid) T ;;
  pid_test <- mask_index ndarray (mask_test pid) pid ;;
  Ok ((X_train, Y_train, T_train, pid_train),
      (X_test, Y_test, T_test, pid_test)).

(** *** Participant identifiers from file names *)

Definition is_slash (c : ascii) : bool := Ascii.eqb c "/"%char.
Definition is_dot (c : ascii) : bool := Ascii.eqb c "."%char.

Fixpoint has_char (f : ascii -> bool) (s : string) : bool :=
  match s with
  | EmptyString => false
  | String c s' => f c || has_char f s'
  end.

(** [os.path.basename]: what follows the last slash. *)
Fixpoint basename (s : string) : string :=
  match s with
  | EmptyString => EmptyString
  | String c s' =>
      if has_char is_slash s' then basename s'
      else if is_slash c then s' else s
  end.

(** [s.split(".")[0]]: what precedes the first dot. *)
Fixpoint before_dot (s : string) : string :=
  match s with
  | EmptyString => EmptyString
  | String c s' => if is_dot c then EmptyString else String c (before_dot s')
  end.

(** [os.path.basename(datafile).split(".")[0]]. *)
Definition pid_of (datafile : string) : label :=
  before_dot (basename datafile).

(** *** Loading all the files *)

Section Loader.

Context {XW YA : Type}.

(** [utils.make_windows(utils.load_data(datafile), winsec=30)]: the windows,
    their annotations and their times.  Both functions are in [utils.py]. *)
Variable windows_of : string -> list XW * list YA * list Z.

Definition worker (datafile : string)
    : list XW * list YA * list Z * list label :=
  let '(X, Y, T) := windows_of datafile in
  (X, Y, T, repeat (pid_of datafile) (length X)).

(** [load_all_and_make_windows(datafiles, N)]: the results of the workers on
    the first [N] files, in the order of the files, concatenated array by
    array. *)
Definition load_all_and_make_windows (datafiles : list string) (N : nat)
    : result (list XW * list YA * list Z * list label) :=
  let results := map worker (firstn N datafiles) in
  X <- np_concatenate (map (fun r => fst (fst (fst r))) results) ;;
  Y <- np_concatenate (map (fun r => snd (fst (fst r))) results) ;;
  T <- np_concatenate (map (fun r => snd (fst r)) results) ;;
  pid <- np_concatenate (map (fun r => snd r) results) ;;
  Ok (X, Y, T, pid).

End Loader.

(** *** Mapping the annotations to labels *)

(** The outcome of a lookup by label: the rows found, or a [KeyError]. *)
Inductive lookup (A : Type) : Type :=
| Found (a : A)
| KeyError.

Arguments Found {A} a.
Arguments KeyError {A}.

(** The rows of the dictionary whose index is [k], in the order of the
    file. *)
Definition rows_for (dict : list (string * label)) (k : string)
    : list label :=
  map snd (filter (fun r => String.eqb (fst r) k) dict).

(** [anno_label_dict.loc[Y, 'label:Willetts2018']]: for every annotation of
    [Y] in turn the rows indexed by it; a [KeyError] when an annotation
    indexes no row.  [dict] pairs the index column [annotation] with the
    column ['label:Willetts2018']. *)
Definition loc (dict : list (string * label)) (Y : list string)
    : lookup (list label) :=
  if forallb (fun k => existsb (fun r => String.eqb (fst r) k) dict) Y
  then Found (concat (map (rows_for dict) Y))
  else KeyError.

(** * Properties *)

(** ** Sorted unique values, positions and counts *)

Section UniqueFacts.

Context {A : Type}.
Variable cmp : A -> A -> comparison.

Hypothesis cmp_eq : forall x y, cmp x y = Eq -> x = y.
Hypothesis cmp_refl : forall x, cmp x x = Eq.
Hypothesis cmp_antisym : forall x y, cmp x y = CompOpp (cmp y x).
Hypothesis cmp_trans :
  forall x y z, cmp x y = Lt -> cmp y z = Lt -> cmp x z = Lt.

Lemma cmp_gt_lt x y : cmp x y = Gt -> clt cmp y x.
Proof.
  intros H. unfold clt. rewrite cmp_antisym, H. reflexivity.
Qed.

Lemma uinsert_In x l z : In z (uinsert cmp x l) <-> z = x \/ In z l.
Proof.
  induction l as [|y l IH]; simpl.
  - intuition.
  - destruct (cmp x y) eqn:E; simpl.
    + apply cmp_eq in E. subst. intuition.
    + intuition.
    + rewrite IH. intuition.
Qed.

Lemma unique_In l z : In z (unique cmp l) <-> In z l.
Proof.
  induction l as [|x l IH]; simpl.
  - reflexivity.
  - rewrite uinsert_In, IH. intuition.
Qed.

Lemma uinsert_sorted x l :
  StronglySorted (clt cmp) l -> StronglySorted (clt cmp) (uinsert cmp x l).
Proof.
  induction 1 as [|y l Hs IH Hall]; simpl.
  - repeat constructor.
  - destruct (cmp x y) eqn:E.
    + constructor; assumption.
    + constructor; [constructor; assumption|].
      constructor; [exact E|].
      rewrite Forall_forall in *. intros z Hz.
      eapply cmp_trans; [exact E|]. apply Hall. exact Hz.
    + constructor; [exact IH|].
      rewrite Forall_forall in *. intros z Hz.
      apply uinsert_In in Hz. destruct Hz as [->|Hz].
      * apply cmp_gt_lt. exact E.
      * apply Hall. exact Hz.
Qed.

Lemma unique_sorted l : StronglySorted (clt cmp) (unique cmp l).
Proof.
  induction l; simpl; [constructor|apply uinsert_sorted; assumption].
Qed.

Lemma sorted_nth_lt l :
  StronglySorted (clt cmp) l ->
  forall i j a b, (i < j)%nat ->
    nth_error l i = Some a -> nth_error l j = Some b -> clt cmp a b.
Proof.
  induction 1 as [|y l Hs IH Hall]; intros i j a b Hij Ha Hb.
  - destruct i; discriminate.
  - destruct j as [|j]; [lia|]. simpl in Hb.
    destruct i as [|i]; simpl in Ha.
    + injection Ha as <-. rewrite Forall_forall in Hall.
      apply Hall. eapply nth_error_In. exact Hb.
    + eapply IH; [|exact Ha|exact Hb]. lia.
Qed.

Lemma index_of_Some x l i :
  index_of cmp x l = Some i -> nth_error l i = Some x.
Proof.
  revert i. induction l as [|y l IH]; intros i; simpl.
  - discriminate.
  - destruct (cmp x y) eqn:E.
    + intros [= <-]. apply cmp_eq in E. subst. reflexivity.
    + destruct (index_of cmp x l); simpl; [|discriminate].
      intros [= <-]. simpl. apply IH. reflexivity.
    + destruct (index_of cmp x l); simpl; [|discriminate].
      intros [= <-]. simpl. apply IH. reflexivity.
Qed.

Lemma index_of_In x l :
  In x l -> exists i, index_of cmp x l = Some i.
Proof.
  induction l as [|y l IH]; simpl.
  - intros [].
  - intros [->|H].
    + rewrite cmp_refl. eauto.
    + destruct (cmp x y); eauto;
        destruct (IH H) as [i ->]; simpl; eauto.
Qed.

Lemma index_of_None x l : index_of cmp x l = None -> ~ In x l.
Proof.
  intros H Hin. destruct (index_of_In x l Hin) as [i Hi]. congruence.
Qed.

Lemma count_In x l : (1 <= count cmp x l)%nat <-> In x l.
Proof.
  induction l as [|y l IH]; simpl.
  - split; [lia|intros []].
  - destruct (cmp x y) eqn:E.
    + apply cmp_eq in E. subst. split; [auto|lia].
    + rewrite IH. split; [auto|]. intros [->|H]; [|exact H].
      rewrite cmp_refl in E. discriminate.
    + rewrite IH. split; [auto|]. intros [->|H]; [|exact H].
      rewrite cmp_refl in E. discriminate.
Qed.

Lemma count_notin x l : ~ In x l -> count cmp x l = O.
Proof.
  intros H. destruct (count cmp x l) eqn:E; [reflexivity|].
  exfalso. apply H. apply count_In. lia.
Qed.

Lemma count_NoDup l : NoDup l -> forall x, (count cmp x l <= 1)%nat.
Proof.
  induction 1 as [|y l Hy Hnd IH]; intros x; simpl.
  - lia.
  - destruct (cmp x y) eqn:E; try apply IH.
    apply cmp_eq in E. subst. rewrite (count_notin y l Hy). lia.
Qed.

Lemma NoDup_count l : (forall x, (count cmp x l <= 1)%nat) -> NoDup l.
Proof.
  induction l as [|y l IH]; intros H.
  - constructor.
  - constructor.
    + intros Hin. apply count_In in Hin.
      specialize (H y). simpl in H. rewrite cmp_refl in H. lia.
    + apply IH. intros x. specialize (H x). simpl in H.
      destruct (cmp x y); lia.
Qed.

End UniqueFacts.

(** The two comparisons in use are total orders. *)

Lemma label_cmp_eq x y : label_cmp x y = Eq -> x = y.
Proof.
  unfold label_cmp. destruct (String_as_OT.compare_spec x y); congruence.
Qed.

Lemma label_lt_irrefl x : ~ String_as_OT.lt x x.
Proof.
  destruct String_as_OT.lt_strorder as [Irr _]. apply Irr.
Qed.

Lemma label_lt_trans x y z :
  String_as_OT.lt x y -> String_as_OT.lt y z -> String_as_OT.lt x z.
Proof.
  destruct String_as_OT.lt_strorder as [_ Tr]. apply Tr.
Qed.

Lemma label_cmp_refl x : label_cmp x x = Eq.
Proof.
  unfold label_cmp.
  destruct (String_as_OT.compare_spec x x) as [_|H|H]; [reflexivity| |];
    exfalso; exact (label_lt_irrefl x H).
Qed.

Lemma label_cmp_trans x y z :
  label_cmp x y = Lt -> label_cmp y z = Lt -> label_cmp x z = Lt.
Proof. apply label_lt_trans. Qed.

Lemma label_cmp_antisym x y : label_cmp x y = CompOpp (label_cmp y x).
Proof.
  unfold label_cmp.
  destruct (String_as_OT.compare_spec x y) as [E|H|H];
    destruct (String_as_OT.compare_spec y x) as [E'|H'|H'];
    try reflexivity; unfold String_as_OT.eq in *; subst; exfalso;
    try (exact (label_lt_irrefl _ H));
    try (exact (label_lt_irrefl _ H'));
    exact (label_lt_irrefl _ (label_lt_trans _ _ _ H H')).
Qed.

Lemma Zcmp_eq x y : (x ?= y) = Eq -> x = y.
Proof. apply Z.compare_eq. Qed.

Lemma Zcmp_antisym x y : (x ?= y) = CompOpp (y ?= x).
Proof. apply Z.compare_antisym. Qed.

Lemma Zcmp_trans x y z : (x ?= y) = Lt -> (y ?= z) = Lt -> (x ?= z) = Lt.
Proof. rewrite !Z.compare_lt_iff. lia. Qed.

(** ** [np.argmax] and [stats.mode] *)

Lemma argmax_from_spec l :
  forall pre best bi,
    (bi < length pre)%nat ->
    nth bi (pre ++ l) O = best ->
    (forall j, (j < length pre)%nat -> (nth j (pre ++ l) O <= best)%nat) ->
    (forall j, (j < bi)%nat -> (nth j (pre ++ l) O < best)%nat) ->
    let r := argmax_from best bi (length pre) l in
    (r < length (pre ++ l))%nat /\
    (forall j, (nth j (pre ++ l) O <= nth r (pre ++ l) O)%nat) /\
    (forall j, (j < r)%nat -> (nth j (pre ++ l) O < nth r (pre ++ l) O)%nat).
Proof.
  induction l as [|x l IH]; intros pre best bi Hbi Hbest Hle Hlt; simpl.
  - rewrite app_nil_r in *. rewrite Hbest. repeat split; auto.
    intros j. destruct (Nat.lt_ge_cases j (length pre)) as [H|H].
    + apply Hle. exact H.
    + rewrite nth_overflow by exact H. lia.
  - assert (Hx : nth (length pre) (pre ++ x :: l) O = x).
    { rewrite app_nth2 by lia. rewrite Nat.sub_diag. reflexivity. }
    assert (Hfull : pre ++ x :: l = (pre ++ [x]) ++ l).
    { rewrite <- app_assoc. reflexivity. }
    assert (Hlen : length (pre ++ [x]) = S (length pre)).
    { rewrite length_app. simpl. lia. }
    destruct (best <? x)%nat eqn:E.
    + apply Nat.ltb_lt in E.
      rewrite Hfull in *. rewrite <- Hlen. apply IH.
      * lia.
      * exact Hx.
      * intros j Hj. rewrite Hlen in Hj.
        destruct (Nat.eq_dec j (length pre)) as [->|Hne].
        -- rewrite Hx. lia.
        -- specialize (Hle j). lia.
      * intros j Hj. specialize (Hle j). lia.
    + apply Nat.ltb_ge in E.
      rewrite Hfull in *. rewrite <- Hlen. apply IH.
      * lia.
      * exact Hbest.
      * intros j Hj. rewrite Hlen in Hj.
        destruct (Nat.eq_dec j (length pre)) as [->|Hne].
        -- rewrite Hx. lia.
        -- apply Hle. lia.
      * exact Hlt.
Qed.

Lemma argmax_spec l :
  l <> [] ->
  (argmax l < length l)%nat /\
  (forall j, (nth j l O <= nth (argmax l) l O)%nat) /\
  (forall j, (j < argmax l)%nat -> (nth j l O < nth (argmax l) l O)%nat).
Proof.
  destruct l as [|x l]; [congruence|]. intros _.
  apply (argmax_from_spec l [x] x O); simpl; auto; try lia.
  intros j Hj. assert (j = O) by lia. subst. simpl. lia.
Qed.

Lemma stats_mode_spec a :
  a <> [] ->
  exists m c,
    stats_mode a = Some (m, c) /\
    In m a /\
    c = count Z.compare m a /\
    (forall v, (count Z.compare v a <= c)%nat) /\
    (forall v, count Z.compare v a = c -> m <= v).
Proof.
  intros Ha.
  set (vals := unique Z.compare a).
  set (f := fun v => count Z.compare v a).
  set (cnts := map f vals).
  set (k := argmax cnts).
  assert (Hin : forall z, In z vals <-> In z a).
  { intros z. apply unique_In; auto using Zcmp_eq, Z.compare_refl. }
  assert (Hvals : vals <> []).
  { destruct a as [|x a]; [congruence|].
    intros E. assert (H : In x vals) by (apply Hin; left; reflexivity).
    rewrite E in H. exact H. }
  assert (Hcnts : cnts <> []).
  { unfold cnts. destruct vals; [congruence|discriminate]. }
  destruct (argmax_spec cnts Hcnts) as (Hk & Hmax & Hfirst).
  fold k in Hk, Hmax, Hfirst.
  assert (Hklen : (k < length vals)%nat).
  { unfold cnts in Hk. rewrite length_map in Hk. exact Hk. }
  assert (Hnth : forall j, (j < length vals)%nat ->
                           nth j cnts O = f (nth j vals 0)).
  { intros j Hj. unfold cnts.
    rewrite (nth_indep _ O (f 0)) by (rewrite length_map; exact Hj).
    apply map_nth. }
  assert (Hm : In (nth k vals 0) a).
  { apply Hin. apply nth_In. exact Hklen. }
  exists (nth k vals 0), (nth k cnts O).
  split; [|split; [exact Hm|split; [apply Hnth; exact Hklen|split]]].
  - unfold stats_mode. destruct a; [congruence|]. reflexivity.
  - intros v. destruct (in_dec Z.eq_dec v a) as [Hv|Hv].
    + apply Hin in Hv. destruct (In_nth _ _ 0 Hv) as (j & Hj & <-).
      fold (f (nth j vals 0)). rewrite <- Hnth by exact Hj. apply Hmax.
    + rewrite (count_notin Z.compare Zcmp_eq Z.compare_refl) by exact Hv. lia.
  - intros v Hv.
    assert (Hc : (1 <= nth k cnts O)%nat).
    { rewrite Hnth by exact Hklen.
      apply (count_In Z.compare Zcmp_eq Z.compare_refl). exact Hm. }
    assert (Hva : In v vals).
    { apply Hin. apply (count_In Z.compare Zcmp_eq Z.compare_refl). lia. }
    destruct (In_nth _ _ 0 Hva) as (j & Hj & <-).
    fold (f (nth j vals 0)) in Hv. rewrite <- Hnth in Hv by exact Hj.
    destruct (Nat.lt_trichotomy j k) as [Hlt|[->|Hgt]].
    + specialize (Hfirst j Hlt). lia.
    + lia.
    + assert (Hs : clt Z.compare (nth k vals 0) (nth j vals 0)).
      { eapply (sorted_nth_lt Z.compare) with (l := vals) (i := k) (j := j).
        - apply unique_sorted.
          + exact Zcmp_eq.
          + exact Zcmp_antisym.
          + exact Zcmp_trans.
        - exact Hgt.
        - apply nth_error_nth'. exact Hklen.
        - apply nth_error_nth'. exact Hj. }
      apply Z.lt_le_incl. apply Z.compare_lt_iff. exact Hs.
Qed.

(** [mode] on a non-empty window: the middle element when no value repeats,
    the smallest most frequent value otherwise. *)
Lemma mode_spec a :
  a <> [] ->
  exists m c,
    stats_mode a = Some (m, c) /\
    In m a /\ c = count Z.compare m a /\
    (forall v, (count Z.compare v a <= c)%nat) /\
    (forall v, count Z.compare v a = c -> m <= v) /\
    mode a = (if (c =? 1)%nat then nth_error a (length a / 2)%nat else Some m).
Proof.
  intros Ha. destruct (stats_mode_spec a Ha) as (m & c & Hs & H1 & H2 & H3 & H4).
  exists m, c. repeat split; auto. unfold mode. rewrite Hs. reflexivity.
Qed.

Lemma middle_lt {A : Type} (a : list A) :
  a <> [] -> (length a / 2 < length a)%nat.
Proof.
  intros Ha. destruct a; [congruence|]. apply Nat.div_lt; simpl; lia.
Qed.

Lemma mode_In a : a <> [] -> exists v, mode a = Some v /\ In v a.
Proof.
  intros Ha. destruct (mode_spec a Ha) as (m & c & _ & Hm & _ & _ & _ & ->).
  destruct (c =? 1)%nat.
  - destruct (nth_error a (length a / 2)) eqn:E.
    + exists z. split; [reflexivity|]. eapply nth_error_In. exact E.
    + apply nth_error_None in E. pose proof (middle_lt a Ha). lia.
  - eauto.
Qed.

(** ** Window bounds and slices *)

Lemma advance_start_range index sb n :
  forall j,
    (j <= advance_start index sb j n <= j + n)%nat.
Proof.
  induction n as [|n IH]; intros j; cbn [advance_start].
  - lia.
  - destruct (0 <? mul64 (sub64 (idx index j) sb) (index_growth_sign index)).
    + lia.
    + specialize (IH (S j)). lia.
Qed.

Lemma bounds_from_length index w n :
  forall i prev, length (bounds_from index w i prev n) = n.
Proof.
  induction n as [|n IH]; intros i prev; simpl; [reflexivity|].
  rewrite IH. reflexivity.
Qed.

Lemma bounds_from_nth index w n :
  forall i prev k s e,
    (prev <= i)%nat ->
    nth_error (bounds_from index w i prev n) k = Some (s, e) ->
    (s <= i + k)%nat /\ e = S (i + k).
Proof.
  induction n as [|n IH]; intros i prev k s e Hp H; cbn [bounds_from] in H.
  - destruct k; discriminate.
  - pose proof (advance_start_range index
                  (sub64 (idx index i) (mul64 (index_growth_sign index) w))
                  (i - prev) prev) as Hr.
    destruct k as [|k]; cbn [nth_error] in H.
    + injection H as <- <-. split; lia.
    + apply IH in H; [|lia]. split; lia.
Qed.

Lemma window_bounds_length index w :
  length (window_bounds index w) = length index.
Proof.
  unfold window_bounds. destruct index as [|t0 rest]; simpl; [reflexivity|].
  rewrite bounds_from_length. reflexivity.
Qed.

Lemma window_bounds_nth index w i s e :
  nth_error (window_bounds index w) i = Some (s, e) ->
  (s <= i)%nat /\ e = S i /\ (i < length index)%nat.
Proof.
  intros H.
  assert (Hi : (i < length index)%nat).
  { rewrite <- (window_bounds_length index w).
    apply nth_error_Some. congruence. }
  unfold window_bounds in H. destruct index as [|t0 rest]; [simpl in Hi; lia|].
  destruct i as [|i]; simpl in H.
  - injection H as <- <-. auto.
  - apply bounds_from_nth in H; [|lia]. simpl in H. intuition lia.
Qed.

Lemma slice_map {A B : Type} (f : A -> B) b (x : list A) :
  slice b (map f x) = map f (slice b x).
Proof.
  unfold slice. rewrite skipn_map, firstn_map. reflexivity.
Qed.

Lemma slice_incl {A : Type} b (x : list A) v : In v (slice b x) -> In v x.
Proof.
  unfold slice. intros H.
  rewrite <- (firstn_skipn (fst b) x). apply in_or_app. right.
  rewrite <- (firstn_skipn (snd b - fst b) (skipn (fst b) x)).
  apply in_or_app. left. exact H.
Qed.

Lemma slice_length {A : Type} s e (x : list A) :
  (e <= length x)%nat -> length (slice (s, e) x) = (e - s)%nat.
Proof.
  intros H. unfold slice. simpl. rewrite length_firstn, length_skipn. lia.
Qed.

Lemma slice_nonempty {A : Type} s i (x : list A) :
  (s <= i)%nat -> (i < length x)%nat -> slice (s, S i) x <> [].
Proof.
  intros Hs Hi E.
  assert (H : length (slice (s, S i) x) = (S i - s)%nat)
    by (apply slice_length; lia).
  rewrite E in H. change (O = S i - s)%nat in H. lia.
Qed.

Lemma rolling_windows_nth {A : Type} index w (x : list A) i :
  nth_error (rolling_windows index w x) i =
  option_map (fun b => slice b x) (nth_error (window_bounds index w) i).
Proof.
  unfold rolling_windows. apply nth_error_map.
Qed.

(** ** Steps of [rolling_mode] *)

Lemma astype_int_inv l :
  forall cs, astype_int l = Ok cs -> l = map Some cs.
Proof.
  induction l as [|o l IH]; intros cs H; simpl in H.
  - injection H as <-. reflexivity.
  - destruct o as [c|]; [|discriminate].
    destruct (astype_int l) as [r|] eqn:E; simpl in H; [|discriminate].
    injection H as <-. simpl. rewrite (IH r eq_refl). reflexivity.
Qed.

Lemma astype_int_ok cs : astype_int (map Some cs) = Ok cs.
Proof.
  induction cs as [|c cs IH]; simpl; [reflexivity|].
  rewrite IH. reflexivity.
Qed.

Lemma from_codes_inv cats cs :
  forall out, from_codes cats cs = Ok out -> Forall2 (decodes cats) cs out.
Proof.
  induction cs as [|c cs IH]; intros out H; simpl in H.
  - injection H as <-. constructor.
  - destruct (c <? 0) eqn:Ec; [discriminate|].
    destruct (nth_error cats (Z.to_nat c)) as [s|] eqn:En; [|discriminate].
    destruct (from_codes cats cs) as [r|] eqn:E; simpl in H; [|discriminate].
    injection H as <-. constructor; [|apply IH; reflexivity].
    split; [apply Z.ltb_ge; exact Ec|exact En].
Qed.

Lemma from_codes_ok cats cs out :
  Forall2 (decodes cats) cs out -> from_codes cats cs = Ok out.
Proof.
  induction 1 as [|c s cs out [Hc Hn] _ IH]; simpl; [reflexivity|].
  assert (E : (c <? 0) = false) by (apply Z.ltb_ge; exact Hc).
  rewrite E, Hn, IH. reflexivity.
Qed.

Lemma cat_code_decodes cats s :
  In s cats -> decodes cats (cat_code cats s) s.
Proof.
  intros H. unfold cat_code, decodes.
  destruct (index_of_In label_cmp label_cmp_refl s cats H) as [i Hi].
  rewrite Hi. split; [lia|]. rewrite Nat2Z.id.
  apply (index_of_Some label_cmp label_cmp_eq). exact Hi.
Qed.

Lemma categories_In y s : In s (categories y) <-> In s y.
Proof.
  apply unique_In. exact label_cmp_eq.
Qed.

Lemma decodes_fun cats c s s' :
  decodes cats c s -> decodes cats c s' -> s = s'.
Proof.
  intros [_ H] [_ H']. congruence.
Qed.

Lemma cat_code_inj cats s s' :
  In s cats -> In s' cats -> cat_code cats s = cat_code cats s' -> s = s'.
Proof.
  intros H H' E. apply cat_code_decodes in H, H'. rewrite E in H.
  eapply decodes_fun; eassumption.
Qed.

Lemma Forall2_nth_error_l {A B : Type} (R : A -> B -> Prop) l l' :
  Forall2 R l l' ->
  forall i a, nth_error l i = Some a ->
    exists b, nth_error l' i = Some b /\ R a b.
Proof.
  induction 1 as [|x y l l' Hxy _ IH]; intros i a Hi.
  - destruct i; discriminate.
  - destruct i as [|i]; simpl in *.
    + injection Hi as <-. eauto.
    + apply IH. exact Hi.
Qed.

(** Every window of a series as long as its index is a non-empty part of
    the series. *)
Lemma rolling_windows_spec {A : Type} index w (x : list A) i win :
  length index = length x ->
  nth_error (rolling_windows index w x) i = Some win ->
  exists s,
    (s <= i)%nat /\ (i < length x)%nat /\
    win = slice (s, S i) x /\ win <> [] /\ (forall v, In v win -> In v x).
Proof.
  intros Hlen H. rewrite rolling_windows_nth in H.
  destruct (nth_error (window_bounds index w) i) as [[s e]|] eqn:Eb;
    [|discriminate].
  simpl in H. injection H as <-.
  apply window_bounds_nth in Eb. destruct Eb as (Hs & -> & Hi).
  exists s. rewrite <- Hlen. repeat split; auto.
  - apply slice_nonempty; [exact Hs|rewrite <- Hlen; exact Hi].
  - apply slice_incl.
Qed.

Lemma rolling_windows_length {A : Type} index w (x : list A) :
  length (rolling_windows index w x) = length index.
Proof.
  unfold rolling_windows. rewrite length_map. apply window_bounds_length.
Qed.

Lemma rolling_windows_map {A B : Type} (f : A -> B) index w (x : list A) :
  rolling_windows index w (map f x) = map (map f) (rolling_windows index w x).
Proof.
  unfold rolling_windows. rewrite map_map. apply map_ext.
  intros b. apply slice_map.
Qed.

(** The smoothed codes of windows of known labels decode to labels of the
    windows. *)
Lemma smooth_codes_ok cats (wins : list (list label)) :
  Forall (fun win => win <> [] /\ forall s, In s win -> In s cats) wins ->
  exists out,
    Forall2 (fun win l =>
               In l win /\
               exists c, mode (map (cat_code cats) win) = Some c /\
                         decodes cats c l) wins out.
Proof.
  induction 1 as [|win wins [Hne Hin] _ [out IH]].
  - exists []. constructor.
  - assert (Hne' : map (cat_code cats) win <> []).
    { destruct win; [congruence|discriminate]. }
    destruct (mode_In _ Hne') as (c & Hc & Hv).
    apply in_map_iff in Hv. destruct Hv as (l & <- & Hl).
    exists (l :: out). constructor; [|exact IH].
    split; [exact Hl|]. exists (cat_code cats l). split; [exact Hc|].
    apply cat_code_decodes. apply Hin. exact Hl.
Qed.

Lemma rolling_mode_run t y w out :
  length t = length y ->
  is_monotonic_increasing t || is_monotonic_decreasing t = true ->
  Forall2 (fun win l =>
             exists c, mode (map (cat_code (categories y)) win) = Some c /\
                       decodes (categories y) c l)
          (rolling_windows t w y) out ->
  rolling_mode t y w = Ok out.
Proof.
  intros Hlen Hmono H. unfold rolling_mode.
  rewrite Hlen, Nat.eqb_refl, Hmono. simpl.
  unfold cat_codes. rewrite rolling_windows_map, map_map.
  set (cats := categories y) in *.
  assert (Hcs : exists cs,
             map (fun win => mode (map (cat_code cats) win))
                 (rolling_windows t w y) = map Some cs /\
             Forall2 (decodes cats) cs out).
  { clear Hlen Hmono. induction H as [|win l wins out (c & Hc & Hd) _ IH].
    - exists []. split; constructor.
    - destruct IH as (cs & E & F). exists (c :: cs). simpl.
      rewrite Hc, E. split; [reflexivity|constructor; assumption]. }
  destruct Hcs as (cs & -> & F).
  rewrite astype_int_ok. simpl. apply from_codes_ok. exact F.
Qed.

Lemma rolling_mode_inv t y w out :
  rolling_mode t y w = Ok out ->
  length t = length y /\
  is_monotonic_increasing t || is_monotonic_decreasing t = true /\
  Forall2 (fun win l =>
             exists c, mode (map (cat_code (categories y)) win) = Some c /\
                       decodes (categories y) c l)
          (rolling_windows t w y) out.
Proof.
  unfold rolling_mode. intros H.
  destruct (length t =? length y)%nat eqn:El; simpl in H; [|discriminate].
  apply Nat.eqb_eq in El.
  destruct (is_monotonic_increasing t || is_monotonic_decreasing t) eqn:Em;
    simpl in H; [|discriminate].
  split; [exact El|split; [reflexivity|]].
  unfold cat_codes in H. rewrite rolling_windows_map, map_map in H.
  set (cats := categories y) in *.
  destruct (astype_int _) as [cs|] eqn:Ea; simpl in H; [|discriminate].
  apply astype_int_inv in Ea. apply from_codes_inv in H.
  revert cs out Ea H. induction (rolling_windows t w y) as [|win wins IH];
    intros cs out Ea H.
  - destruct cs; [|discriminate]. inversion H. constructor.
  - destruct cs as [|c cs]; [discriminate|]. simpl in Ea.
    injection Ea as Ec Ea. inversion H as [|? l ? out' Hd H']; subst.
    constructor; [eauto|]. apply IH with (cs := cs); assumption.
Qed.

(** What [rolling_mode] returns at one position. *)
Lemma rolling_mode_at t y w out i win :
  rolling_mode t y w = Ok out ->
  nth_error (rolling_windows t w y) i = Some win ->
  exists c l,
    mode (map (cat_code (categories y)) win) = Some c /\
    decodes (categories y) c l /\
    nth_error out i = Some l /\
    win <> [] /\ (forall s, In s win -> In s (categories y)).
Proof.
  intros H Hw. apply rolling_mode_inv in H. destruct H as (Hlen & _ & F).
  destruct (Forall2_nth_error_l _ _ _ F i win Hw) as (l & Hl & c & Hc & Hd).
  destruct (rolling_windows_spec t w y i win Hlen Hw)
    as (s & _ & _ & _ & Hne & Hin).
  exists c, l.
  split; [exact Hc|]. split; [exact Hd|]. split; [exact Hl|].
  split; [exact Hne|].
  intros s' Hs'. apply categories_In. apply Hin. exact Hs'.
Qed.

(** On timestamps in order and labels of the same length, [rolling_mode]
    returns, position by position, a label of the window. *)
Lemma rolling_mode_total t y w :
  length t = length y ->
  is_monotonic_increasing t || is_monotonic_decreasing t = true ->
  exists out,
    rolling_mode t y w = Ok out /\
    Forall2 (fun win l => In l win) (rolling_windows t w y) out.
Proof.
  intros Hlen Hmono.
  destruct (smooth_codes_ok (categories y) (rolling_windows t w y))
    as [out F].
  { apply Forall_forall. intros win Hin.
    destruct (In_nth_error _ _ Hin) as [i Hi].
    destruct (rolling_windows_spec t w y i win Hlen Hi)
      as (s & _ & _ & _ & Hne & Hsub).
    split; [exact Hne|]. intros l Hl. apply categories_In. auto. }
  exists out. split.
  - apply rolling_mode_run; auto.
    eapply Forall2_impl; [|exact F]. simpl. intros win l [_ H]. exact H.
  - eapply Forall2_impl; [|exact F]. simpl. intros win l [H _]. exact H.
Qed.

(** ** Frequencies of labels and of their codes *)

Lemma count_codes cats win l :
  In l cats -> (forall s, In s win -> In s cats) ->
  count Z.compare (cat_code cats l) (map (cat_code cats) win)
  = count label_cmp l win.
Proof.
  intros Hl. induction win as [|x win IH]; intros Hin; simpl; [reflexivity|].
  rewrite IH by (intros s Hs; apply Hin; right; exact Hs).
  assert (Hx : In x cats) by (apply Hin; left; reflexivity).
  destruct (label_cmp l x) eqn:E.
  - apply label_cmp_eq in E. subst. rewrite Z.compare_refl. reflexivity.
  - destruct (cat_code cats l ?= cat_code cats x) eqn:E'; try reflexivity.
    apply Z.compare_eq in E'. apply cat_code_inj in E'; auto. subst.
    rewrite label_cmp_refl in E. discriminate.
  - destruct (cat_code cats l ?= cat_code cats x) eqn:E'; try reflexivity.
    apply Z.compare_eq in E'. apply cat_code_inj in E'; auto. subst.
    rewrite label_cmp_refl in E. discriminate.
Qed.

Lemma fold_max_le (l : list nat) x :
  In x l -> (x <= fold_right Nat.max O l)%nat.
Proof.
  induction l as [|y l IH]; simpl; [intros []|].
  intros [->|H]; [lia|]. specialize (IH H). lia.
Qed.

Lemma fold_max_In (l : list nat) :
  l <> [] -> In (fold_right Nat.max O l) l.
Proof.
  induction l as [|y l IH]; [congruence|]. intros _. simpl.
  destruct l as [|z l].
  - left. simpl. lia.
  - destruct (Nat.max_dec y (fold_right Nat.max O (z :: l))) as [E|E];
      rewrite E; [left; reflexivity|right; apply IH; discriminate].
Qed.

Lemma count_le_max_frequency win l :
  (count label_cmp l win <= max_frequency win)%nat.
Proof.
  destruct (in_dec string_dec l win) as [H|H].
  - apply fold_max_le. apply in_map_iff. eauto.
  - rewrite (count_notin label_cmp label_cmp_eq label_cmp_refl) by exact H.
    lia.
Qed.

Lemma max_frequency_attained win :
  win <> [] -> exists l, In l win /\ count label_cmp l win = max_frequency win.
Proof.
  intros Hne.
  assert (H : map (fun l => count label_cmp l win) win <> []).
  { destruct win; [congruence|discriminate]. }
  apply fold_max_In in H. apply in_map_iff in H.
  destruct H as (l & E & Hl). eauto.
Qed.

(** The maximal frequency is 1 exactly when no label of the window
    repeats. *)
Lemma max_frequency_one win :
  max_frequency win = 1%nat <-> (win <> [] /\ NoDup win).
Proof.
  split.
  - intros H. split.
    + intros ->. discriminate.
    + apply (NoDup_count label_cmp label_cmp_eq label_cmp_refl).
      intros x. rewrite <- H. apply count_le_max_frequency.
  - intros [Hne Hnd].
    destruct (max_frequency_attained win Hne) as (l & Hl & <-).
    pose proof (count_NoDup label_cmp label_cmp_eq label_cmp_refl win Hnd l).
    apply (count_In label_cmp label_cmp_eq label_cmp_refl) in Hl. lia.
Qed.

(** The mode of the codes of a window, in terms of its labels. *)
Lemma mode_codes cats win :
  win <> [] -> (forall s, In s win -> In s cats) ->
  exists l0,
    In l0 win /\
    count label_cmp l0 win = max_frequency win /\
    (forall l', In l' win -> count label_cmp l' win = max_frequency win ->
                cat_code cats l0 <= cat_code cats l') /\
    mode (map (cat_code cats) win) =
      (if (max_frequency win =? 1)%nat
       then option_map (cat_code cats) (nth_error win (length win / 2)%nat)
       else Some (cat_code cats l0)).
Proof.
  intros Hne Hin.
  assert (Hne' : map (cat_code cats) win <> []).
  { destruct win; [congruence|discriminate]. }
  destruct (mode_spec _ Hne') as (m & c & _ & Hm & Hc & Hmax & Hmin & Hmode).
  apply in_map_iff in Hm. destruct Hm as (l0 & <- & Hl0).
  rewrite count_codes in Hc by auto.
  assert (Hcmax : c = max_frequency win).
  { apply Nat.le_antisymm.
    - rewrite Hc. apply count_le_max_frequency.
    - destruct (max_frequency_attained win Hne) as (l1 & Hl1 & <-).
      rewrite <- (count_codes cats) by auto. apply Hmax. }
  exists l0. split; [exact Hl0|]. split; [congruence|]. split.
  - intros l' Hl' E. apply Hmin. rewrite count_codes by auto. congruence.
  - rewrite Hmode, Hcmax, length_map, nth_error_map. reflexivity.
Qed.

Lemma categories_sorted y : StronglySorted (clt label_cmp) (categories y).
Proof.
  apply unique_sorted.
  - exact label_cmp_eq.
  - exact label_cmp_antisym.
  - exact label_cmp_trans.
Qed.

(** The order of the codes is the order of the labels. *)
Lemma cat_code_le_label_le y a b :
  In a (categories y) -> In b (categories y) ->
  cat_code (categories y) a <= cat_code (categories y) b -> label_le a b.
Proof.
  intros Ha Hb Hle. unfold label_le.
  destruct (cat_code_decodes _ _ Ha) as [Ha0 Han].
  destruct (cat_code_decodes _ _ Hb) as [Hb0 Hbn].
  destruct (Z.eq_dec (cat_code (categories y) a) (cat_code (categories y) b))
    as [E|E].
  - apply cat_code_inj in E; auto. subst. rewrite label_cmp_refl. discriminate.
  - assert (H : clt label_cmp a b).
    { eapply sorted_nth_lt; [apply categories_sorted| |exact Han|exact Hbn].
      lia. }
    unfold clt in H. rewrite H. discriminate.
Qed.

(** ** Timestamps in order *)

Lemma sorted_le_monotonic t :
  StronglySorted Z.le t -> is_monotonic_increasing t = true.
Proof.
  induction 1 as [|a t Hs IH Hall]; [reflexivity|].
  destruct t as [|b t]; [reflexivity|].
  change (((a <=? b) && is_monotonic_increasing (b :: t)) = true).
  rewrite IH. inversion Hall; subst.
  apply andb_true_intro. split; [apply Z.leb_le; assumption|reflexivity].
Qed.

Lemma sorted_lt_le t : StronglySorted Z.lt t -> StronglySorted Z.le t.
Proof.
  induction 1 as [|a t Hs IH Hall]; constructor; [exact IH|].
  eapply Forall_impl; [|exact Hall]. intros b Hb. lia.
Qed.

(** ** The middle element of a window without repeats *)

(** C3. For every window in which no label repeats (the maximal frequency is
    1), the output of [rolling_mode] at that position is the label at the
    middle index of the window, index (length of the window) div 2. *)
Theorem rolling_mode_middle_when_no_repeat t y w out i win :
  rolling_mode t y w = Ok out ->
  nth_error (rolling_windows t w y) i = Some win ->
  max_frequency win = 1%nat ->
  NoDup win /\
  exists l,
    nth_error win (length win / 2)%nat = Some l /\ nth_error out i = Some l.
Proof.
  intros Hrun Hwin Hfreq.
  split; [apply max_frequency_one; exact Hfreq|].
  destruct (rolling_mode_at t y w out i win Hrun Hwin)
    as (c & l & Hmode & Hdec & Hout & Hne & Hin).
  destruct (mode_codes (categories y) win Hne Hin) as (l0 & _ & _ & _ & E).
  rewrite Hfreq, Nat.eqb_refl in E. rewrite E in Hmode.
  destruct (nth_error win (length win / 2)) as [l1|] eqn:Emid;
    simpl in Hmode; [|discriminate].
  injection Hmode as Hc. subst c.
  exists l1. split; [reflexivity|].
  assert (Hl1 : In l1 (categories y)).
  { apply Hin. eapply nth_error_In. exact Emid. }
  rewrite Hout. f_equal.
  eapply decodes_fun; [exact Hdec|]. apply cat_code_decodes. exact Hl1.
Qed.

Lemma rolling_mode_middle_when_no_repeat_witness :
  NoDup ["run"; "sit"; "walk"]%string /\
  exists l,
    nth_error ["run"; "sit"; "walk"]%string 1 = Some l /\
    nth_error ["run"; "sit"; "sit"]%string 2 = Some l.
Proof.
  apply (rolling_mode_middle_when_no_repeat
           (map seconds [0; 10; 20]) ["run"; "sit"; "walk"]%string
           (seconds 30) ["run"; "sit"; "sit"]%string 2%nat
           ["run"; "sit"; "walk"]%string).
  - vm_compute. reflexivity.
  - vm_compute. reflexivity.
  - vm_compute. reflexivity.
Defined.

(** ** Ties between repeated labels *)

(** C9. When the maximal frequency in a window is greater than 1,
    [rolling_mode] outputs a label of maximal frequency, and among the labels
    that share that frequency it is the one with the smallest category code,
    which is the first of them in the sorted order of the labels. *)
Theorem rolling_mode_tie_smallest_code t y w out i win :
  rolling_mode t y w = Ok out ->
  nth_error (rolling_windows t w y) i = Some win ->
  (1 < max_frequency win)%nat ->
  exists l,
    nth_error out i = Some l /\
    In l win /\
    count label_cmp l win = max_frequency win /\
    forall l',
      count label_cmp l' win = max_frequency win ->
      cat_code (categories y) l <= cat_code (categories y) l' /\
      label_le l l'.
Proof.
  intros Hrun Hwin Hfreq.
  destruct (rolling_mode_at t y w out i win Hrun Hwin)
    as (c & l & Hmode & Hdec & Hout & Hne & Hin).
  destruct (mode_codes (categories y) win Hne Hin)
    as (l0 & Hl0 & Hcnt & Hmin & E).
  assert (Hneq : (max_frequency win =? 1)%nat = false)
    by (apply Nat.eqb_neq; lia).
  rewrite Hneq in E. rewrite E in Hmode. injection Hmode as Hc. subst c.
  assert (l = l0).
  { eapply decodes_fun; [exact Hdec|]. apply cat_code_decodes. auto. }
  subst l0. exists l. repeat split; auto.
  - apply Hmin; [|exact H].
    apply (count_In label_cmp label_cmp_eq label_cmp_refl). lia.
  - assert (Hl' : In l' win).
    { apply (count_In label_cmp label_cmp_eq label_cmp_refl). lia. }
    apply (cat_code_le_label_le y); auto.
Qed.

Lemma rolling_mode_tie_smallest_code_witness :
  exists l,
    nth_error ["walk"; "walk"; "walk"; "sit"]%string 3 = Some l /\
    In l ["walk"; "walk"; "sit"; "sit"]%string /\
    count label_cmp l ["walk"; "walk"; "sit"; "sit"]%string
    = max_frequency ["walk"; "walk"; "sit"; "sit"]%string /\
    forall l',
      count label_cmp l' ["walk"; "walk"; "sit"; "sit"]%string
      = max_frequency ["walk"; "walk"; "sit"; "sit"]%string ->
      cat_code (categories ["walk"; "walk"; "sit"; "sit"]%string) l
      <= cat_code (categories ["walk"; "walk"; "sit"; "sit"]%string) l' /\
      label_le l l'.
Proof.
  apply (rolling_mode_tie_smallest_code
           (map seconds [0; 10; 20; 30])
           ["walk"; "walk"; "sit"; "sit"]%string (seconds 60)
           ["walk"; "walk"; "walk"; "sit"]%string 3%nat
           ["walk"; "walk"; "sit"; "sit"]%string).
  - vm_compute. reflexivity.
  - vm_compute. reflexivity.
  - vm_compute. lia.
Defined.

(** ** The first position *)

(** C10. For a non-empty input with strictly increasing timestamps, the
    trailing window at position 0 holds entry 0 alone, its maximal frequency
    is 1, and the first label returned by [rolling_mode] is the first input
    label. *)
Theorem rolling_mode_first_unchanged t y w y0 :
  length t = length y ->
  StronglySorted Z.lt t ->
  nth_error y 0 = Some y0 ->
  exists out,
    rolling_mode t y w = Ok out /\
    nth_error (rolling_windows t w y) 0 = Some [y0] /\
    max_frequency [y0] = 1%nat /\
    nth_error out 0 = Some y0.
Proof.
  intros Hlen Hsorted Hy0.
  assert (Hmono : is_monotonic_increasing t || is_monotonic_decreasing t
                  = true).
  { rewrite (sorted_le_monotonic t (sorted_lt_le t Hsorted)). reflexivity. }
  destruct (rolling_mode_total t y w Hlen Hmono) as (out & Hrun & Hall).
  assert (Hwin : nth_error (rolling_windows t w y) 0 = Some [y0]).
  { destruct y as [|y0' y]; [discriminate|]. injection Hy0 as ->.
    destruct t as [|t0 t]; [discriminate|]. reflexivity. }
  exists out. split; [exact Hrun|]. split; [exact Hwin|]. split.
  - unfold max_frequency. simpl. rewrite label_cmp_refl. reflexivity.
  - destruct (Forall2_nth_error_l _ _ _ Hall O [y0] Hwin) as (l & Hl & Hin).
    destruct Hin as [->|[]]. exact Hl.
Qed.

Lemma rolling_mode_first_unchanged_witness :
  exists out,
    rolling_mode (map seconds [0; 30; 60]) ["walk"; "sit"; "sit"]%string
      default_window = Ok out /\
    nth_error
      (rolling_windows (map seconds [0; 30; 60]) default_window
         ["walk"; "sit"; "sit"]%string) 0 = Some ["walk"%string] /\
    max_frequency ["walk"%string] = 1%nat /\
    nth_error out 0 = Some "walk"%string.
Proof.
  apply (rolling_mode_first_unchanged
           (map seconds [0; 30; 60]) ["walk"; "sit"; "sit"]%string
           default_window "walk"%string).
  - reflexivity.
  - vm_compute. repeat constructor.
  - reflexivity.
Defined.

(** ** The example of the specification *)

(** C7. On timestamps 0, 10, 20, 30, 40 seconds, labels sleep, sleep, walk,
    sleep, sleep and a window of 30 seconds, [rolling_mode] returns a
    sequence whose position 2, the isolated walk at t = 20, holds sleep. *)
Theorem rolling_mode_isolated_walk :
  exists out,
    rolling_mode (map seconds [0; 10; 20; 30; 40])
      ["sleep"; "sleep"; "walk"; "sleep"; "sleep"]%string (seconds 30)
    = Ok out /\
    nth_error ["sleep"; "sleep"; "walk"; "sleep"; "sleep"]%string 2
    = Some "walk"%string /\
    nth_error out 2 = Some "sleep"%string /\
    out = ["sleep"; "sleep"; "sleep"; "sleep"; "sleep"]%string.
Proof.
  eexists. split; [vm_compute; reflexivity|].
  repeat split.
Qed.

(** ** The extent of a window *)

Lemma sorted_le_nth t :
  StronglySorted Z.le t ->
  forall a b, (a <= b)%nat -> (b < length t)%nat -> nth a t 0 <= nth b t 0.
Proof.
  induction 1 as [|x t Hs IH Hall]; intros a b Hab Hb; simpl in Hb; [lia|].
  destruct b as [|b].
  - assert (a = O) by lia. subst. lia.
  - destruct a as [|a]; simpl.
    + rewrite Forall_forall in Hall. apply Hall. apply nth_In. lia.
    + apply IH; lia.
Qed.

Lemma last_ge a l :
  Forall (Z.le a) l -> forall d, a <= d -> a <= last l d.
Proof.
  induction 1 as [|x l Hx _ IH]; intros d Hd; [exact Hd|].
  simpl. destruct l; [exact Hx|]. apply IH. exact Hd.
Qed.

Lemma growth_sign_sorted t :
  StronglySorted Z.le t -> index_growth_sign t = 1.
Proof.
  intros H. unfold index_growth_sign. destruct t as [|t0 rest]; [reflexivity|].
  inversion H as [|? ? _ Hall]; subst.
  assert (Hl : t0 <= last (t0 :: rest) t0).
  { apply last_ge; [constructor; [lia|exact Hall]|lia]. }
  destruct (last (t0 :: rest) t0 <? t0) eqn:E; [|reflexivity].
  apply Z.ltb_lt in E. lia.
Qed.

Lemma window_bounds_unfold index w :
  index <> [] ->
  window_bounds index w
  = (O, 1%nat) :: bounds_from index w 1 0 (length index - 1).
Proof.
  unfold window_bounds. destruct index as [|t0 rest]; [congruence|].
  intros _. simpl. rewrite Nat.sub_0_r. reflexivity.
Qed.

Lemma growth_sign_cases t :
  index_growth_sign t = 1 \/ index_growth_sign t = -1.
Proof.
  unfold index_growth_sign. destruct t as [|t0 t]; [left; reflexivity|].
  destruct (last (t0 :: t) t0 <? t0); [right|left]; reflexivity.
Qed.

(** ** The int64 arithmetic of the window search *)

Lemma wrap64_small z : - 2 ^ 63 <= z <= 2 ^ 63 - 1 -> wrap64 z = z.
Proof.
  intros H. unfold wrap64. rewrite Z.mod_small by lia. lia.
Qed.

Lemma fits_int64_spec z :
  fits_int64 z = true <-> - 2 ^ 63 <= z <= 2 ^ 63 - 1.
Proof.
  unfold fits_int64, int64_min, int64_max.
  rewrite andb_true_iff, !Z.leb_le. reflexivity.
Qed.

Lemma no_overflow_In index w a b :
  no_overflow index w = true ->
  In a index -> In b index ->
  (- 2 ^ 63 <= a - w <= 2 ^ 63 - 1) /\
  (- 2 ^ 63 <= a + w <= 2 ^ 63 - 1) /\
  (- 2 ^ 63 <= b - a - w <= 2 ^ 63 - 1) /\
  (- 2 ^ 63 <= b - a + w <= 2 ^ 63 - 1).
Proof.
  intros H Ha Hb. unfold no_overflow in H.
  rewrite forallb_forall in H. specialize (H a Ha).
  apply andb_prop in H. destruct H as [H Hall].
  apply andb_prop in H. destruct H as [H1 H2].
  rewrite forallb_forall in Hall. specialize (Hall b Hb).
  apply andb_prop in Hall. destruct Hall as [H3 H4].
  apply fits_int64_spec in H1, H2, H3, H4. auto.
Qed.

Lemma idx_In t i : (i < length t)%nat -> In (idx t i) t.
Proof. intros Hi. unfold idx. apply nth_In. exact Hi. Qed.

(** When nothing overflows, [start_diff] is the difference the search
    means: the timestamp of [j] less the start bound of [i], in the
    direction of the index. *)
Lemma start_diff_exact t w i j :
  no_overflow t w = true ->
  (i < length t)%nat -> (j < length t)%nat ->
  mul64 (sub64 (idx t j)
           (sub64 (idx t i) (mul64 (index_growth_sign t) w)))
        (index_growth_sign t)
  = (idx t j - (idx t i - index_growth_sign t * w)) * index_growth_sign t.
Proof.
  intros H Hi Hj.
  pose proof (no_overflow_In t w _ _ H (idx_In t i Hi) (idx_In t j Hj))
    as (A1 & A2 & A3 & A4).
  pose proof (no_overflow_In t w _ _ H (idx_In t j Hj) (idx_In t i Hi))
    as (_ & _ & B3 & B4).
  pose proof (no_overflow_In t w _ _ H (idx_In t i Hi) (idx_In t i Hi))
    as (_ & _ & C3 & C4).
  unfold mul64, sub64.
  destruct (growth_sign_cases t) as [-> | ->].
  - rewrite Z.mul_1_l, (wrap64_small w) by lia.
    rewrite (wrap64_small (idx t i - w)) by lia.
    rewrite (wrap64_small (idx t j - (idx t i - w))) by lia.
    rewrite Z.mul_1_r. apply wrap64_small. lia.
  - rewrite (wrap64_small (-1 * w)) by lia.
    rewrite (wrap64_small (idx t i - -1 * w)) by lia.
    rewrite (wrap64_small (idx t j - (idx t i - -1 * w))) by lia.
    apply wrap64_small. lia.
Qed.

Section SortedIndex.

Variable t : list Z.
Variable w : Z.
Hypothesis t_sorted : StronglySorted Z.le t.
Hypothesis w_pos : 0 < w.
Hypothesis t_fits : no_overflow t w = true.

Lemma advance_start_sorted i :
  (i < length t)%nat ->
  forall n j0,
    (j0 + n = i)%nat ->
    (forall j, (j < j0)%nat -> idx t j <= idx t i - w) ->
    starts_at t w
      (advance_start t (sub64 (idx t i) (mul64 (index_growth_sign t) w))
         j0 n) i.
Proof.
  intros Hi.
  induction n as [|n IH]; intros j0 Hn Hbefore; cbn [advance_start].
  - assert (j0 = i) by lia. subst j0. split; [lia|]. split; [exact Hbefore|].
    intros j Hj. assert (j = i) by lia. subst. lia.
  - rewrite (start_diff_exact t w i j0 t_fits Hi) by lia.
    replace ((idx t j0 - (idx t i - index_growth_sign t * w))
             * index_growth_sign t)
      with (idx t j0 - (idx t i - w))
      by (rewrite (growth_sign_sorted t t_sorted); ring).
    destruct (0 <? idx t j0 - (idx t i - w)) eqn:E.
    + apply Z.ltb_lt in E. split; [lia|]. split; [exact Hbefore|].
      intros j Hj.
      assert (idx t j0 <= idx t j)
        by (apply (sorted_le_nth t t_sorted); lia).
      lia.
    + apply Z.ltb_ge in E. apply IH; [lia|].
      intros j Hj. destruct (Nat.eq_dec j j0) as [->|Hne]; [lia|].
      apply Hbefore. lia.
Qed.

Lemma bounds_from_sorted n :
  forall i prev k s e,
    (prev <= i)%nat -> (i + n <= length t)%nat ->
    (forall j, (j < prev)%nat -> idx t j <= idx t i - w) ->
    nth_error (bounds_from t w i prev n) k = Some (s, e) ->
    starts_at t w s (i + k).
Proof.
  induction n as [|n IH]; intros i prev k s e Hp Hlen Hbefore H;
    cbn [bounds_from] in H.
  - destruct k; discriminate.
  - assert (Hstart :
      starts_at t w
        (advance_start t (sub64 (idx t i) (mul64 (index_growth_sign t) w))
           prev (i - prev))
        i).
    { apply advance_start_sorted; [lia|lia|exact Hbefore]. }
    destruct k as [|k]; cbn [nth_error] in H.
    + injection H as <- _. rewrite Nat.add_0_r. exact Hstart.
    + assert (Hk : (k < n)%nat).
      { rewrite <- (bounds_from_length t w n (S i)
                      (advance_start t
                         (sub64 (idx t i) (mul64 (index_growth_sign t) w))
                         prev (i - prev))).
        apply nth_error_Some. congruence. }
      destruct Hstart as (Hs1 & Hs2 & _).
      replace (i + S k)%nat with (S i + k)%nat by lia.
      eapply IH; [| |
                  |exact H]; [lia|lia|].
      intros j Hj. specialize (Hs2 j Hj).
      assert (idx t i <= idx t (S i))
        by (apply (sorted_le_nth t t_sorted); lia).
      lia.
Qed.

Lemma window_bounds_sorted i s e :
  nth_error (window_bounds t w) i = Some (s, e) -> starts_at t w s i.
Proof.
  intros H. pose proof (window_bounds_nth t w i s e H) as (_ & _ & Hi).
  rewrite window_bounds_unfold in H by (intros E; rewrite E in Hi; simpl in Hi; lia).
  destruct i as [|i]; cbn [nth_error] in H.
  - injection H as <- _. split; [lia|]. split; [intros j Hj; lia|].
    intros j Hj. assert (j = O) by lia. subst. lia.
  - replace (S i) with (1 + i)%nat by lia.
    eapply bounds_from_sorted; [| | |exact H].
    + lia.
    + lia.
    + intros j Hj. lia.
Qed.

End SortedIndex.

Lemma filter_from {A : Type} (P : A -> bool) (l : list A) :
  forall s,
    (forall j p, nth_error l j = Some p -> P p = (s <=? j)%nat) ->
    filter P l = skipn s l.
Proof.
  induction l as [|x l IH]; intros s H.
  - destruct s; reflexivity.
  - simpl. rewrite (H O x eq_refl). destruct s as [|s]; simpl.
    + f_equal. rewrite (IH O); [reflexivity|].
      intros j p Hj. apply (H (S j) p Hj).
    + apply IH. intros j p Hj. apply (H (S j) p Hj).
Qed.

Lemma nth_error_combine {A B : Type} (l : list A) (l' : list B) :
  forall j a b,
    nth_error (combine l l') j = Some (a, b) ->
    nth_error l j = Some a /\ nth_error l' j = Some b.
Proof.
  revert l'. induction l as [|x l IH]; intros l' j a b H.
  - destruct j; discriminate.
  - destruct l' as [|y l']; [destruct j; discriminate|].
    destruct j as [|j]; simpl in *.
    + injection H as <- <-. auto.
    + apply IH. exact H.
Qed.

Lemma map_snd_combine {A B : Type} (l : list A) (l' : list B) :
  length l = length l' -> map snd (combine l l') = l'.
Proof.
  revert l'. induction l as [|x l IH]; intros [|y l'] H; simpl in *;
    try discriminate; [reflexivity|].
  f_equal. apply IH. lia.
Qed.

(** With timestamps in non-decreasing order, a positive window length and
    no int64 overflow, the window of position [i] holds the entries up to
    position [i] whose timestamp is after [t_i - w]. *)
Lemma rolling_window_trailing {A : Type} t w (x : list A) i win :
  StronglySorted Z.le t ->
  0 < w ->
  no_overflow t w = true ->
  length t = length x ->
  nth_error (rolling_windows t w x) i = Some win ->
  win = trailing_window t w i x.
Proof.
  intros Hsorted Hw Hfits Hlen H. rewrite rolling_windows_nth in H.
  destruct (nth_error (window_bounds t w) i) as [[s e]|] eqn:Eb;
    [|discriminate].
  simpl in H. injection H as <-.
  pose proof (window_bounds_nth t w i s e Eb) as (Hs & -> & Hi).
  pose proof (window_bounds_sorted t w Hsorted Hw Hfits i s (S i) Eb)
    as (_ & Hbefore & Hafter).
  unfold trailing_window.
  rewrite (filter_from _ _ s).
  - rewrite <- skipn_map, <- firstn_map, map_snd_combine by exact Hlen.
    unfold slice. simpl fst. simpl snd. rewrite firstn_skipn_comm.
    replace (s + (S i - s))%nat with (S i) by lia. reflexivity.
  - intros j [a b] Hj. rewrite nth_error_firstn in Hj.
    destruct (j <? S i)%nat eqn:Ej; [|discriminate].
    apply Nat.ltb_lt in Ej.
    apply nth_error_combine in Hj. destruct Hj as [Ha _].
    assert (Eidx : a = idx t j).
    { unfold idx. symmetry. apply nth_error_nth. exact Ha. }
    simpl fst. fold (idx t i). subst a.
    assert (Hle : idx t j <= idx t i).
    { apply (sorted_le_nth t Hsorted); lia. }
    assert (E2 : (idx t j <=? idx t i) = true) by (apply Z.leb_le; exact Hle).
    rewrite E2, andb_true_r.
    destruct (s <=? j)%nat eqn:Es.
    + apply Nat.leb_le in Es. apply Z.ltb_lt. apply Hafter. lia.
    + apply Nat.leb_gt in Es. apply Z.ltb_ge. apply Hbefore. exact Es.
Qed.

Lemma sorted_lt_nth t :
  StronglySorted Z.lt t ->
  forall a b, (a < b)%nat -> (b < length t)%nat -> nth a t 0 < nth b t 0.
Proof.
  induction 1 as [|x t Hs IH Hall]; intros a b Hab Hb; simpl in Hb; [lia|].
  destruct b as [|b]; [lia|].
  destruct a as [|a]; simpl.
  - rewrite Forall_forall in Hall. apply Hall. apply nth_In. lia.
  - apply IH; lia.
Qed.

Lemma filter_none {A : Type} (P : A -> bool) (l : list A) :
  (forall p, In p l -> P p = false) -> filter P l = [].
Proof.
  induction l as [|x l IH]; intros H; simpl; [reflexivity|].
  rewrite (H x) by (left; reflexivity).
  apply IH. intros p Hp. apply H. right. exact Hp.
Qed.

(** With strictly increasing timestamps no later entry shares the
    timestamp of position [i]: the window is then the set of all entries
    whose timestamp lies in the half-open interval. *)
Lemma trailing_window_strict {A : Type} t w (x : list A) i :
  StronglySorted Z.lt t ->
  (i < length t)%nat ->
  trailing_window t w i x = half_open_interval_window t w i x.
Proof.
  intros Hsorted Hi. unfold trailing_window, half_open_interval_window.
  f_equal.
  rewrite <- (firstn_skipn (S i) (combine t x)) at 2.
  rewrite filter_app, (filter_none _ (skipn (S i) (combine t x))).
  - rewrite app_nil_r. reflexivity.
  - intros [a b] Hp. destruct (In_nth_error _ _ Hp) as [k Hk].
    rewrite nth_error_skipn in Hk. apply nth_error_combine in Hk.
    destruct Hk as [Ha _].
    assert (Hlt : (S i + k < length t)%nat).
    { apply nth_error_Some. congruence. }
    assert (Ea : a = nth (S i + k) t 0).
    { symmetry. apply nth_error_nth. exact Ha. }
    pose proof (sorted_lt_nth t Hsorted i (S i + k)%nat) as Hs.
    simpl fst. subst a.
    assert (E : (nth (S i + k) t 0 <=? nth i t 0) = false).
    { apply Z.leb_gt. apply Hs; lia. }
    rewrite E. apply andb_false_r.
Qed.

(** C4, as stated, fails: with timestamps 0, 50, 100 seconds and a window of
    100 seconds, the entry at t = 0 lies in the closed interval from
    [t_2 - window] to [t_2] but is not in the window of position 2; the
    output at position 2 is walk, where the modal label of the closed
    interval is sit. *)
Lemma rolling_window_excludes_left_endpoint :
  closed_interval_window (map seconds [0; 50; 100]) (seconds 100) 2
    ["sit"; "sit"; "walk"]%string
  = ["sit"; "sit"; "walk"]%string /\
  nth_error
    (rolling_windows (map seconds [0; 50; 100]) (seconds 100)
       ["sit"; "sit"; "walk"]%string) 2
  = Some ["sit"; "walk"]%string /\
  rolling_mode (map seconds [0; 50; 100]) ["sit"; "sit"; "walk"]%string
    (seconds 100)
  = Ok ["sit"; "sit"; "walk"]%string /\
  mode (cat_codes (categories ["sit"; "sit"; "walk"]%string)
          (closed_interval_window (map seconds [0; 50; 100]) (seconds 100) 2
             ["sit"; "sit"; "walk"]%string))
  = Some (cat_code (categories ["sit"; "sit"; "walk"]%string) "sit"%string) /\
  cat_code (categories ["sit"; "sit"; "walk"]%string) "sit"%string
  <> cat_code (categories ["sit"; "sit"; "walk"]%string) "walk"%string.
Proof.
  repeat split; try (vm_compute; reflexivity).
  vm_compute. discriminate.
Qed.

(** C4, amended.  With timestamps in non-decreasing order, a positive
    window length, and timestamps close enough for the int64 arithmetic of
    the window search not to overflow (every timestamp, and every
    difference of two timestamps, moved by the window length either way is
    an int64), the window of every position [i] holds exactly the entries
    at positions up to [i] whose timestamp lies in the interval from
    [t_i - window_duration] (excluded) to [t_i] (included), and the output at
    position [i] is the label decoded from [mode] of the codes of that
    window.  With strictly increasing timestamps these are all the entries
    whose timestamp lies in that half-open interval. *)
Theorem rolling_mode_half_open_window t y w out i :
  StronglySorted Z.le t ->
  0 < w ->
  no_overflow t w = true ->
  rolling_mode t y w = Ok out ->
  (i < length y)%nat ->
  (exists c l,
      nth_error (rolling_windows t w y) i = Some (trailing_window t w i y) /\
      mode (cat_codes (categories y) (trailing_window t w i y)) = Some c /\
      decodes (categories y) c l /\
      nth_error out i = Some l) /\
  (StronglySorted Z.lt t ->
   trailing_window t w i y = half_open_interval_window t w i y).
Proof.
  intros Hsorted Hw Hfits Hrun Hi.
  pose proof (rolling_mode_inv t y w out Hrun) as (Hlen & _ & _).
  split.
  - destruct (nth_error (rolling_windows t w y) i) as [win|] eqn:Ew.
    + pose proof (rolling_window_trailing t w y i win Hsorted Hw Hfits Hlen
                    Ew) as ->.
      destruct (rolling_mode_at t y w out i _ Hrun Ew)
        as (c & l & Hmode & Hdec & Hout & _).
      exists c, l. auto.
    + apply nth_error_None in Ew. rewrite rolling_windows_length in Ew. lia.
  - intros Hstrict. apply trailing_window_strict; [exact Hstrict|lia].
Qed.

Lemma rolling_mode_half_open_window_witness :
  (exists c l,
      nth_error
        (rolling_windows (map seconds [0; 50; 100]) (seconds 100)
           ["sit"; "sit"; "walk"]%string) 2
      = Some (trailing_window (map seconds [0; 50; 100]) (seconds 100) 2
                ["sit"; "sit"; "walk"]%string) /\
      mode (cat_codes (categories ["sit"; "sit"; "walk"]%string)
              (trailing_window (map seconds [0; 50; 100]) (seconds 100) 2
                 ["sit"; "sit"; "walk"]%string)) = Some c /\
      decodes (categories ["sit"; "sit"; "walk"]%string) c l /\
      nth_error ["sit"; "sit"; "walk"]%string 2 = Some l) /\
  (StronglySorted Z.lt (map seconds [0; 50; 100]) ->
   trailing_window (map seconds [0; 50; 100]) (seconds 100) 2
     ["sit"; "sit"; "walk"]%string
   = half_open_interval_window (map seconds [0; 50; 100]) (seconds 100) 2
       ["sit"; "sit"; "walk"]%string).
Proof.
  apply (rolling_mode_half_open_window
           (map seconds [0; 50; 100]) ["sit"; "sit"; "walk"]%string
           (seconds 100) ["sit"; "sit"; "walk"]%string 2%nat).
  - vm_compute. repeat constructor; discriminate.
  - reflexivity.
  - vm_compute. reflexivity.
  - vm_compute. reflexivity.
  - simpl. lia.
Defined.

(** Beyond that distance the search wraps: with the first timestamp in
    1700 and the next two in 2200, two minutes apart, the difference to
    the first one is negative in int64 and taken for a later time, so the
    last window starts at the first entry. *)
Lemma window_search_wraps_in_int64 :
  no_overflow
    (map seconds [-8520336000; 7258118400; 7258118520]) default_window
  = false /\
  rolling_windows
    (map seconds [-8520336000; 7258118400; 7258118520]) default_window
    ["sit"; "sit"; "walk"]%string
  = [["sit"]; ["sit"; "sit"]; ["sit"; "sit"; "walk"]]%string /\
  rolling_mode
    (map seconds [-8520336000; 7258118400; 7258118520])
    ["sit"; "sit"; "walk"]%string default_window
  = Ok ["sit"; "sit"; "sit"]%string.
Proof.
  repeat split; vm_compute; reflexivity.
Qed.

(** ** The decoder *)

Section ViterbiFacts.

Variable score : Type.
Variable ln : Q -> score.
Variable sadd : score -> score -> score.
Variable sleb : score -> score -> bool.
Variable floor : Q.
Variable params : HMMParams.

Local Abbreviation K := (nstates params).
Local Abbreviation amax := (sargmax score sleb).
Local Abbreviation slog := (safe_log score ln floor).
Local Abbreviation get := (row_get score ln floor).
Local Abbreviation cell := (step_cell score ln sadd sleb floor params).
Local Abbreviation row_of := (step_row score ln sadd sleb floor params).
Local Abbreviation fwd := (forward score ln sadd sleb floor params).
Local Abbreviation back := (backtrack score ln sleb floor params).
Local Abbreviation final := (final_scores score).
Local Abbreviation table := (viterbi_table score ln sadd sleb floor params).
Local Abbreviation path := (viterbi_path score ln sadd sleb floor params).

Lemma best_upto_le (f : nat -> score) n : (best_upto score sleb f n <= n)%nat.
Proof.
  induction n as [|n IH]; simpl; [lia|].
  destruct (sleb (f (S n)) (f (best_upto score sleb f n))); lia.
Qed.

Lemma sargmax_lt k (f : nat -> score) : (0 < k)%nat -> (amax k f < k)%nat.
Proof.
  intros Hk. unfold sargmax. pose proof (best_upto_le f (k - 1)). lia.
Qed.

(** With a total and transitive comparison the selected position holds a
    maximum. *)
Lemma best_upto_max (f : nat -> score) :
  (forall a b, sleb a b = true \/ sleb b a = true) ->
  (forall a b c, sleb a b = true -> sleb b c = true -> sleb a c = true) ->
  forall n j, (j <= n)%nat -> sleb (f j) (f (best_upto score sleb f n)) = true.
Proof.
  intros Htot Htrans. induction n as [|n IH]; intros j Hj; simpl.
  - assert (j = O) by lia. subst. destruct (Htot (f O) (f O)); assumption.
  - destruct (sleb (f (S n)) (f (best_upto score sleb f n))) eqn:E.
    + destruct (Nat.eq_dec j (S n)) as [->|Hne]; [exact E|].
      apply IH. lia.
    + assert (Hrev : sleb (f (best_upto score sleb f n)) (f (S n)) = true).
      { destruct (Htot (f (S n)) (f (best_upto score sleb f n)));
          [congruence|assumption]. }
      destruct (Nat.eq_dec j (S n)) as [->|Hne].
      * destruct (Htot (f (S n)) (f (S n))); assumption.
      * eapply Htrans; [|exact Hrev]. apply IH. lia.
Qed.

Lemma step_row_length prev o : length (row_of prev o) = K.
Proof.
  unfold step_row. rewrite length_map, length_seq. reflexivity.
Qed.

Lemma step_row_nth prev o k d :
  (k < K)%nat -> nth k (row_of prev o) d = cell prev o k.
Proof.
  intros Hk. unfold step_row.
  rewrite (nth_indep _ d (cell prev o O))
    by (rewrite length_map, length_seq; exact Hk).
  rewrite (map_nth (cell prev o) (seq 0 K) O k).
  rewrite seq_nth by exact Hk. reflexivity.
Qed.

Lemma forward_length obs : forall prev, length (fwd prev obs) = length obs.
Proof.
  induction obs as [|o obs IH]; intros prev; simpl; [reflexivity|].
  rewrite IH. reflexivity.
Qed.

(** Row [t] of the forward pass is one step from the scores before it. *)
Lemma forward_nth obs :
  forall prev t,
    (t < length obs)%nat ->
    nth t (fwd prev obs) []
    = row_of (match t with
              | O => prev
              | S t' => map fst (nth t' (fwd prev obs) [])
              end) (nth t obs O).
Proof.
  induction obs as [|o obs IH]; intros prev t Ht; simpl in Ht; [lia|].
  destruct t as [|t]; [reflexivity|].
  simpl. rewrite IH by lia. destruct t; reflexivity.
Qed.

Lemma forward_backpointers obs :
  forall prev,
    (0 < K)%nat ->
    Forall (fun row => forall s, (nth s (map snd row) O < K)%nat)
           (fwd prev obs).
Proof.
  induction obs as [|o obs IH]; intros prev HK; simpl; constructor.
  - intros s. destruct (Nat.lt_ge_cases s K) as [Hs|Hs].
    + change (nth s (map snd (row_of prev o)) O)
        with (nth s (map snd (row_of prev o)) (snd (get prev O, O))).
      rewrite (map_nth snd (row_of prev o) (get prev O, O) s).
      rewrite step_row_nth by exact Hs. simpl. apply sargmax_lt. exact HK.
    + rewrite nth_overflow; [exact HK|].
      rewrite length_map, step_row_length. exact Hs.
  - apply IH. exact HK.
Qed.

(** The reconstruction follows the backpointers from the best state of
    the last row. *)
Lemma backtrack_spec rows :
  forall cur s rest,
    back cur rows = (s, rest) ->
    length rest = length rows /\
    nth (length rows) (s :: rest) O = amax K (get (final cur rows)) /\
    forall t, (t < length rows)%nat ->
      nth t (s :: rest) O
      = nth (nth (S t) (s :: rest) O) (map snd (nth t rows [])) O.
Proof.
  induction rows as [|row rows IH]; intros cur s rest H; simpl in H.
  - injection H as <- <-. repeat split; intros; simpl in *; lia.
  - destruct (back (map fst row) rows) as [s' rest'] eqn:E.
    injection H as <- <-.
    destruct (IH _ _ _ E) as (Hlen & Hlast & Hstep).
    split; [simpl; rewrite Hlen; reflexivity|]. split.
    + exact Hlast.
    + intros t Ht. destruct t as [|t]; [reflexivity|].
      apply (Hstep t). simpl in Ht. lia.
Qed.

Lemma backtrack_states rows :
  (0 < K)%nat ->
  Forall (fun row => forall s, (nth s (map snd row) O < K)%nat) rows ->
  forall cur s rest,
    back cur rows = (s, rest) -> Forall (fun x => (x < K)%nat) (s :: rest).
Proof.
  intros HK. induction 1 as [|row rows Hrow _ IH]; intros cur s rest H;
    simpl in H.
  - injection H as <- <-. constructor; [|constructor].
    apply sargmax_lt. exact HK.
  - destruct (back (map fst row) rows) as [s' rest'] eqn:E.
    injection H as <- <-. constructor; [apply Hrow|].
    eapply IH. exact E.
Qed.

Lemma to_numeric_Some obs :
  forall ns,
    to_numeric params obs = Some ns ->
    Forall2 (fun o i => nth_error (labels params) i = Some o) obs ns.
Proof.
  induction obs as [|o obs IH]; intros ns H; simpl in H.
  - injection H as <-. constructor.
  - destruct (label_index (labels params) o) as [i|] eqn:Ei; [|discriminate].
    destruct (to_numeric params obs) as [r|]; [|discriminate].
    injection H as <-. constructor; [|apply IH; reflexivity].
    apply (index_of_Some label_cmp label_cmp_eq). exact Ei.
Qed.

Lemma to_numeric_None obs :
  to_numeric params obs = None <->
  exists o, In o obs /\ ~ In o (labels params).
Proof.
  induction obs as [|o obs IH]; simpl.
  - split; [discriminate|]. intros (o & [] & _).
  - destruct (label_index (labels params) o) as [i|] eqn:Ei.
    + assert (Ho : In o (labels params)).
      { eapply nth_error_In.
        apply (index_of_Some label_cmp label_cmp_eq). exact Ei. }
      destruct (to_numeric params obs) as [r|].
      * split; [discriminate|]. intros (o' & [<-|Hin] & Hn); [tauto|].
        assert (@None (list nat) = None) by reflexivity.
        destruct IH as [_ IH]. discriminate IH. eauto.
      * split; [|reflexivity]. intros _.
        destruct IH as [IH _]. destruct (IH eq_refl) as (o' & Hin & Hn).
        eauto.
    + split; [|reflexivity]. intros _. exists o. split; [auto|].
      apply (index_of_None label_cmp label_cmp_refl). exact Ei.
Qed.

Lemma viterbi_table_length obs : length (table obs) = length obs.
Proof.
  destruct obs as [|o obs]; simpl; [reflexivity|].
  rewrite forward_length. reflexivity.
Qed.

Lemma viterbi_path_states obs :
  (0 < K)%nat ->
  length (path obs) = length obs /\
  Forall (fun x => (x < K)%nat) (path obs).
Proof.
  intros HK. unfold viterbi_path. destruct obs as [|o obs]; simpl.
  - split; [reflexivity|constructor].
  - destruct (back _ _) as [s rest] eqn:E.
    split.
    + destruct (backtrack_spec _ _ _ _ E) as (Hlen & _).
      simpl. rewrite Hlen, forward_length. reflexivity.
    + eapply backtrack_states; [exact HK| |exact E].
      apply forward_backpointers. exact HK.
Qed.

Lemma nth_map_seq {B : Type} (g : nat -> B) n k d :
  (k < n)%nat -> nth k (map g (seq 0 n)) d = g k.
Proof.
  intros Hk.
  rewrite (nth_indep _ d (g O)) by (rewrite length_map, length_seq; exact Hk).
  rewrite (map_nth g (seq 0 n) O k), seq_nth by exact Hk. reflexivity.
Qed.

Lemma final_scores_nth rows :
  forall row0,
    final (map fst row0) rows = map fst (nth (length rows) (row0 :: rows) []).
Proof.
  induction rows as [|row rows IH]; intros row0; [reflexivity|].
  simpl final_scores. rewrite IH. reflexivity.
Qed.

(** Every row of the table after the first is one step from the row
    before it. *)
Lemma viterbi_table_step obs t :
  (1 <= t < length obs)%nat ->
  nth t (table obs) []
  = row_of (map fst (nth (t - 1) (table obs) [])) (nth t obs O).
Proof.
  intros Ht. destruct obs as [|o obs]; [simpl in Ht; lia|].
  destruct t as [|t]; [lia|]. simpl in Ht.
  simpl. rewrite forward_nth by lia. rewrite Nat.sub_0_r.
  destruct t; reflexivity.
Qed.

(** C8. [viterbi] fails, with a validation error, exactly when the sequence
    of predicted labels is empty or holds a value that is not a member of
    [params.labels]; on every other input it returns a sequence. *)
Theorem viterbi_fails_exactly_on_invalid (predicted_labels : list label) :
  (viterbi score ln sadd sleb floor params predicted_labels
   = Raise ValidationError <->
   predicted_labels = [] \/
   exists o, In o predicted_labels /\ ~ In o (labels params)) /\
  ((viterbi score ln sadd sleb floor params predicted_labels
    = Raise ValidationError /\
    (predicted_labels = [] \/
     exists o, In o predicted_labels /\ ~ In o (labels params))) \/
   (exists out,
      viterbi score ln sadd sleb floor params predicted_labels = Ok out /\
      predicted_labels <> [] /\
      Forall (fun o => In o (labels params)) predicted_labels)).
Proof.
  assert (Hcases :
    (viterbi score ln sadd sleb floor params predicted_labels
     = Raise ValidationError /\
     (predicted_labels = [] \/
      exists o, In o predicted_labels /\ ~ In o (labels params))) \/
    (exists out,
       viterbi score ln sadd sleb floor params predicted_labels = Ok out /\
       predicted_labels <> [] /\
       Forall (fun o => In o (labels params)) predicted_labels)).
  { unfold viterbi. destruct predicted_labels as [|o obs] eqn:Eobs.
    - left. auto.
    - rewrite <- Eobs.
      destruct (to_numeric params predicted_labels) as [ns|] eqn:En.
      + right. eexists. split; [reflexivity|]. split; [congruence|].
        apply to_numeric_Some in En. clear Eobs.
        induction En as [|x i l l' Hx _ IH]; constructor; [|exact IH].
        eapply nth_error_In. exact Hx.
      + left. split; [reflexivity|]. right. apply to_numeric_None. exact En. }
  split; [|exact Hcases].
  split.
  - intros H. destruct Hcases as [[_ Hc]|(out & Hout & _)];
      [exact Hc|congruence].
  - intros Hc. destruct Hcases as [[H _]|(out & _ & Hne & Hall)];
      [exact H|].
    destruct Hc as [->|(o & Hin & Hn)]; [congruence|].
    rewrite Forall_forall in Hall. elim Hn. apply Hall. exact Hin.
Qed.

(** [viterbi] on a non-empty sequence of known labels. *)
Lemma viterbi_total (predicted_labels : list label) :
  predicted_labels <> [] ->
  Forall (fun o => In o (labels params)) predicted_labels ->
  exists obs,
    to_numeric params predicted_labels = Some obs /\
    length obs = length predicted_labels /\
    viterbi score ln sadd sleb floor params predicted_labels
    = Ok (map (fun s => nth s (labels params) ""%string) (path obs)).
Proof.
  intros Hne Hall.
  destruct (to_numeric params predicted_labels) as [obs|] eqn:En.
  - exists obs. split; [reflexivity|]. split.
    + apply to_numeric_Some in En. symmetry.
      eapply Forall2_length. exact En.
    + unfold viterbi. rewrite En.
      destruct predicted_labels; [congruence|reflexivity].
  - apply to_numeric_None in En. destruct En as (o & Hin & Hn).
    rewrite Forall_forall in Hall. elim Hn. apply Hall. exact Hin.
Qed.

Lemma viterbi_length_alphabet (predicted_labels : list label) :
  predicted_labels <> [] ->
  Forall (fun o => In o (labels params)) predicted_labels ->
  exists out,
    viterbi score ln sadd sleb floor params predicted_labels = Ok out /\
    length out = length predicted_labels /\
    Forall (fun l => In l (labels params)) out.
Proof.
  intros Hne Hall.
  destruct (viterbi_total predicted_labels Hne Hall) as (obs & _ & Hlen & Hv).
  assert (HK : (0 < K)%nat).
  { destruct predicted_labels as [|o l]; [congruence|].
    inversion Hall as [|? ? Ho _]; subst. unfold nstates.
    destruct (labels params); [destruct Ho|simpl; lia]. }
  destruct (viterbi_path_states obs HK) as (Hplen & Hstates).
  eexists. split; [exact Hv|]. split.
  - rewrite length_map, Hplen. exact Hlen.
  - apply Forall_forall. intros l Hl. apply in_map_iff in Hl.
    destruct Hl as (s & <- & Hs). rewrite Forall_forall in Hstates.
    apply nth_In. apply Hstates. exact Hs.
Qed.

Lemma clip_zero x : (x == 0)%Q -> clip floor x = floor.
Proof.
  intros H. unfold clip. apply Qeq_bool_iff in H. rewrite H. reflexivity.
Qed.

Lemma clip_nonzero x : ~ (x == 0)%Q -> clip floor x = x.
Proof.
  intros H. unfold clip. destruct (Qeq_bool x 0) eqn:E; [|reflexivity].
  apply Qeq_bool_iff in E. contradiction.
Qed.

Lemma clip_positive x : (0 < floor)%Q -> (0 <= x)%Q -> (0 < clip floor x)%Q.
Proof.
  intros Hf Hx. unfold clip. destruct (Qeq_bool x 0) eqn:E; [exact Hf|].
  apply Qeq_bool_neq in E. apply Qle_lteq in Hx.
  destruct Hx as [Hx|Hx]; [exact Hx|]. elim E. symmetry. exact Hx.
Qed.

(** C5. [viterbi] decodes by dynamic programming over log-scores.  For a
    non-empty sequence of known labels, observed as the positions [obs]:
    the first row of the table holds, for every state [k],
    [log(prior[k]) + log(emission[k][obs_0])]; every later row holds the
    maximum over [j] of [score[t-1][j] + log(transition[j][k])], plus
    [log(emission[k][obs_t])], with the maximising [j] as backpointer; the
    path ends in the best state of the last row and follows the backpointers
    down to [t = 0]; the output is the path in labels; and every logarithm
    is taken after a probability of exactly 0 is replaced by the floor,
    which leaves a positive argument when the floor is positive.  When the
    comparison of scores is total and transitive, the selected score is at
    least every candidate. *)
Theorem viterbi_log_domain_recurrence (predicted_labels : list label)
    (obs : list nat) :
  predicted_labels <> [] ->
  to_numeric params predicted_labels = Some obs ->
  viterbi score ln sadd sleb floor params predicted_labels
  = Ok (map (fun s => nth s (labels params) ""%string) (path obs)) /\
  length (table obs) = length obs /\
  length (path obs) = length obs /\
  (forall k, (k < K)%nat ->
     table_score score ln floor (table obs) 0 k
     = sadd (ln (clip floor (nth k (prior params) 0%Q)))
            (ln (clip floor (entry (emission params) k (nth 0 obs O))))) /\
  (forall t k, (1 <= t < length obs)%nat -> (k < K)%nat ->
     table_score score ln floor (table obs) t k
     = sadd (smax score sleb K
               (fun j =>
                  sadd (table_score score ln floor (table obs) (t - 1) j)
                       (ln (clip floor (entry (transition params) j k)))))
            (ln (clip floor (entry (emission params) k (nth t obs O)))) /\
     table_back score (table obs) t k
     = amax K
         (fun j =>
            sadd (table_score score ln floor (table obs) (t - 1) j)
                 (ln (clip floor (entry (transition params) j k))))) /\
  nth (length obs - 1) (path obs) O
  = amax K (table_score score ln floor (table obs) (length obs - 1)) /\
  (forall t, (S t < length obs)%nat ->
     nth t (path obs) O
     = table_back score (table obs) (S t) (nth (S t) (path obs) O)) /\
  (forall x, (x == 0)%Q -> clip floor x = floor) /\
  (forall x, ~ (x == 0)%Q -> clip floor x = x) /\
  ((0 < floor)%Q -> forall x, (0 <= x)%Q -> (0 < clip floor x)%Q) /\
  ((forall a b, sleb a b = true \/ sleb b a = true) ->
   (forall a b c, sleb a b = true -> sleb b c = true -> sleb a c = true) ->
   forall f j, (j < K)%nat -> sleb (f j) (smax score sleb K f) = true).
Proof.
  intros Hne Hnum.
  assert (Hobs : obs <> []).
  { apply to_numeric_Some in Hnum. apply Forall2_length in Hnum.
    destruct predicted_labels; [congruence|]. destruct obs; [discriminate|].
    discriminate. }
  assert (HK : (0 < K)%nat).
  { apply to_numeric_Some in Hnum.
    destruct Hnum as [|o i l l' Ho _]; [congruence|].
    unfold nstates. destruct (labels params); [destruct i; discriminate|].
    simpl. lia. }
  destruct (viterbi_path_states obs HK) as (Hplen & _).
  split.
  { unfold viterbi. rewrite Hnum.
    destruct predicted_labels; [congruence|reflexivity]. }
  split; [apply viterbi_table_length|]. split; [exact Hplen|]. split.
  { intros k Hk. destruct obs as [|o obs]; [congruence|].
    unfold table_score, row_get. simpl nth at 2. unfold init_row.
    rewrite map_map. simpl fst. rewrite nth_map_seq by exact Hk.
    reflexivity. }
  split.
  { intros t k Ht Hk. unfold table_score, table_back.
    rewrite (viterbi_table_step obs t Ht).
    set (prev := map fst (nth (t - 1) (table obs) [])).
    unfold step_row. rewrite !map_map. split.
    - unfold row_get at 1. rewrite nth_map_seq by exact Hk. reflexivity.
    - rewrite nth_map_seq by exact Hk. reflexivity. }
  unfold viterbi_path in *.
  destruct (table obs) as [|row0 rows] eqn:Etbl.
  { destruct obs; [congruence|discriminate]. }
  destruct (back (map fst row0) rows) as [s rest] eqn:Eb.
  destruct (backtrack_spec _ _ _ _ Eb) as (Hlen & Hlast & Hstep).
  assert (Hrows : length obs = S (length rows)).
  { rewrite <- viterbi_table_length, Etbl. reflexivity. }
  split.
  { rewrite Hrows. replace (S (length rows) - 1)%nat with (length rows) by lia.
    rewrite Hlast, final_scores_nth. reflexivity. }
  split.
  { intros t Ht. unfold table_back. apply (Hstep t). lia. }
  split; [apply clip_zero|]. split; [apply clip_nonzero|]. split.
  { intros Hf x Hx. apply clip_positive; assumption. }
  intros Htot Htrans f j Hj. unfold smax, sargmax.
  apply best_upto_max; [exact Htot|exact Htrans|lia].
Qed.

End ViterbiFacts.

Lemma viterbi_log_domain_recurrence_witness :
  ["A"; "A"; "B"; "A"; "A"]%string <> [] /\
  to_numeric example_params ["A"; "A"; "B"; "A"; "A"]%string
  = Some [0; 0; 1; 0; 0]%nat /\
  viterbi Z log2_fixed Z.add Z.leb example_floor example_params
    ["A"; "A"; "B"; "A"; "A"]%string
  = Ok (map (fun s => nth s (labels example_params) ""%string)
          (viterbi_path Z log2_fixed Z.add Z.leb example_floor example_params
             [0; 0; 1; 0; 0]%nat)).
Proof.
  split; [discriminate|]. split; [reflexivity|].
  apply (viterbi_log_domain_recurrence Z log2_fixed Z.add Z.leb example_floor
           example_params ["A"; "A"; "B"; "A"; "A"]%string
           [0; 0; 1; 0; 0]%nat).
  - discriminate.
  - reflexivity.
Defined.

(** ** Length and alphabet of the smoothed sequences *)

(** C1. For timestamps in order and labels of the same length drawn from
    the alphabet, [rolling_mode] returns a sequence of the length of its
    input labels whose values are drawn from the alphabet; and for a
    non-empty sequence of labels drawn from [params.labels], so does
    [viterbi]. *)
Theorem smoothers_keep_length_and_alphabet
    (score : Type) (ln : Q -> score) (sadd : score -> score -> score)
    (sleb : score -> score -> bool) (floor : Q) (params : HMMParams)
    (alphabet : list label) (t : list Z) (y : list label) (w : Z) :
  length t = length y ->
  StronglySorted Z.le t ->
  Forall (fun l => In l alphabet) y ->
  (exists out,
      rolling_mode t y w = Ok out /\
      length out = length y /\
      Forall (fun l => In l alphabet) out) /\
  (y <> [] ->
   Forall (fun l => In l (labels params)) y ->
   exists out,
     viterbi score ln sadd sleb floor params y = Ok out /\
     length out = length y /\
     Forall (fun l => In l (labels params)) out).
Proof.
  intros Hlen Hsorted Hall. split.
  - assert (Hmono : is_monotonic_increasing t || is_monotonic_decreasing t
                    = true).
    { rewrite (sorted_le_monotonic t Hsorted). reflexivity. }
    destruct (rolling_mode_total t y w Hlen Hmono) as (out & Hrun & F).
    exists out. split; [exact Hrun|]. split.
    + apply Forall2_length in F. rewrite <- F, rolling_windows_length.
      exact Hlen.
    + apply Forall_forall. intros l Hl.
      destruct (In_nth_error _ _ Hl) as [i Hi].
      assert (Hw : exists win, nth_error (rolling_windows t w y) i = Some win).
      { destruct (nth_error (rolling_windows t w y) i) eqn:E; [eauto|].
        apply nth_error_None in E. apply Forall2_length in F.
        assert (i < length out)%nat by (apply nth_error_Some; congruence).
        lia. }
      destruct Hw as [win Hw].
      destruct (Forall2_nth_error_l _ _ _ F i win Hw) as (l' & Hl' & Hin).
      assert (l' = l) by congruence. subst l'.
      destruct (rolling_windows_spec t w y i win Hlen Hw)
        as (s & _ & _ & _ & _ & Hsub).
      rewrite Forall_forall in Hall. apply Hall. apply Hsub. exact Hin.
  - apply viterbi_length_alphabet.
Qed.

Lemma smoothers_keep_length_and_alphabet_witness :
  (exists out,
      rolling_mode (map seconds [0; 30; 60]) ["A"; "B"; "A"]%string
        default_window = Ok out /\
      length out = 3%nat /\
      Forall (fun l => In l ["A"; "B"]%string) out) /\
  (exists out,
      viterbi Z log2_fixed Z.add Z.leb example_floor example_params
        ["A"; "B"; "A"]%string = Ok out /\
      length out = 3%nat /\
      Forall (fun l => In l ["A"; "B"]%string) out).
Proof.
  destruct (smoothers_keep_length_and_alphabet Z log2_fixed Z.add Z.leb
              example_floor example_params ["A"; "B"]%string
              (map seconds [0; 30; 60]) ["A"; "B"; "A"]%string
              default_window) as [Hroll Hvit].
  - reflexivity.
  - vm_compute. repeat constructor; discriminate.
  - repeat (apply Forall_cons; [simpl; auto|]). apply Forall_nil.
  - split; [exact Hroll|]. apply Hvit.
    + discriminate.
    + repeat (apply Forall_cons; [simpl; auto|]). apply Forall_nil.
Defined.

(** ** Rows of the estimated parameters *)

Lemma qnat_nonneg n : (0 <= qnat n)%Q.
Proof. unfold qnat, Qle. simpl. lia. Qed.

Lemma qnat_pos n : (0 < n)%nat -> (0 < qnat n)%Q.
Proof. intros H. unfold qnat, Qlt. simpl. lia. Qed.

Lemma qsum_nonneg l : Forall (fun x => 0 <= x)%Q l -> (0 <= qsum l)%Q.
Proof.
  induction 1 as [|x l Hx _ IH]; simpl; [apply Qle_refl|]. lra.
Qed.

Lemma qsum_scale l c : (qsum (map (fun x => x / c) l) == qsum l / c)%Q.
Proof.
  induction l as [|x l IH]; simpl.
  - unfold Qdiv. rewrite Qmult_0_l. reflexivity.
  - rewrite IH. unfold Qdiv. ring.
Qed.

Lemma qsum_repeat c n : (qsum (repeat c n) == qnat n * c)%Q.
Proof.
  induction n as [|n IH].
  - simpl. unfold qnat. simpl. ring.
  - simpl repeat. simpl qsum. rewrite IH. unfold qnat.
    rewrite Nat2Z.inj_succ, <- Z.add_1_r, inject_Z_plus. ring.
Qed.

Lemma div_nonneg x c : (0 <= x)%Q -> (0 <= c)%Q -> (0 <= x / c)%Q.
Proof.
  intros Hx Hc. apply Qle_lteq in Hc. destruct Hc as [Hc|Hc].
  - apply Qle_shift_div_l; [exact Hc|]. lra.
  - unfold Qdiv. rewrite <- Hc. unfold Qinv. simpl. rewrite Qmult_0_r.
    apply Qle_refl.
Qed.

Lemma uniform_row_exact n : (0 < n)%nat -> exact_row (uniform_row n).
Proof.
  intros Hn. unfold exact_row, uniform_row. split.
  - rewrite qsum_repeat. fold (qnat n). field.
    pose proof (qnat_pos n Hn). lra.
  - apply Forall_forall. intros x Hx. apply repeat_spec in Hx. subst x.
    fold (qnat n). apply div_nonneg; [lra|apply qnat_nonneg].
Qed.

Lemma normalize_row_exact fb row :
  exact_row fb -> Forall (fun x => 0 <= x)%Q row ->
  exact_row (normalize_row fb row).
Proof.
  intros Hfb Hrow. unfold normalize_row.
  destruct (Qeq_bool (qsum row) 0) eqn:E; [exact Hfb|].
  apply Qeq_bool_neq in E. split.
  - rewrite qsum_scale. field. exact E.
  - apply Forall_forall. intros x Hx. apply in_map_iff in Hx.
    destruct Hx as (x0 & <- & Hx0). rewrite Forall_forall in Hrow.
    apply div_nonneg; [apply Hrow; exact Hx0|].
    apply qsum_nonneg. apply Forall_forall. exact Hrow.
Qed.

Lemma estimate_prior_exact cfg y label_order :
  (0 < length label_order)%nat ->
  exact_row (estimate_prior cfg y label_order).
Proof.
  intros HK. unfold estimate_prior. destruct (uniform_prior cfg).
  - apply uniform_row_exact. exact HK.
  - apply normalize_row_exact; [apply uniform_row_exact; exact HK|].
    apply Forall_forall. intros x Hx. apply in_map_iff in Hx.
    destruct Hx as (c & <- & _). apply div_nonneg; apply qnat_nonneg.
Qed.

Lemma rows_of_class_incl {A : Type} c y (a : list A) r :
  In r (rows_of_class c y a) -> In r a.
Proof.
  revert a. induction y as [|l y IH]; intros [|x a] H; simpl in H;
    try contradiction.
  destruct (String.eqb l c).
  - destruct H as [->|H]; [left; reflexivity|right; apply IH; exact H].
  - right. apply IH. exact H.
Qed.

Lemma mean_rows_nonneg n rows :
  Forall (Forall (fun x => 0 <= x)%Q) rows ->
  Forall (fun x => 0 <= x)%Q (mean_rows n rows).
Proof.
  intros H. apply Forall_forall. intros x Hx. unfold mean_rows in Hx.
  apply in_map_iff in Hx. destruct Hx as (j & <- & _).
  apply div_nonneg; [|apply qnat_nonneg].
  apply qsum_nonneg. apply Forall_forall. intros v Hv.
  apply in_map_iff in Hv. destruct Hv as (r & <- & Hr).
  rewrite Forall_forall in H. specialize (H r Hr).
  destruct (Nat.lt_ge_cases j (length r)) as [Hj|Hj].
  - rewrite Forall_forall in H. apply H. apply nth_In. exact Hj.
  - rewrite nth_overflow by exact Hj. apply Qle_refl.
Qed.

Lemma exact_row_stochastic row : exact_row row -> stochastic_row tolerance row.
Proof.
  intros [Hsum Hpos]. split; [|exact Hpos].
  rewrite Hsum. unfold tolerance. vm_compute. discriminate.
Qed.

(** C6. After [train_hmm] returns, on probability vectors without negative
    entries, the prior and every row of the transition matrix and of the
    emission matrix sum to 1 within 1e-9 (exactly, over the rationals), and
    none of their entries is negative. *)
Theorem train_hmm_rows_stochastic cfg groups probabilities true_labels
    label_order params :
  Forall (Forall (fun x => 0 <= x)%Q) probabilities ->
  train_hmm cfg groups probabilities true_labels label_order = Ok params ->
  (stochastic_row tolerance (prior params) /\
   Forall (stochastic_row tolerance) (transition params) /\
   Forall (stochastic_row tolerance) (emission params)) /\
  (exact_row (prior params) /\
   Forall exact_row (transition params) /\
   Forall exact_row (emission params)).
Proof.
  intros Hprob Hrun. unfold train_hmm in Hrun.
  destruct (negb (length probabilities =? length true_labels)%nat);
    [discriminate|].
  destruct (negb (groups_ok groups (length true_labels))); [discriminate|].
  destruct (negb (forallb (mem_label label_order) true_labels));
    [discriminate|].
  destruct (length label_order <? 2)%nat eqn:EK; [discriminate|].
  apply Nat.ltb_ge in EK. injection Hrun as <-. simpl.
  assert (HK : (0 < length label_order)%nat) by lia.
  assert (Hpri : exact_row (estimate_prior cfg true_labels label_order))
    by (apply estimate_prior_exact; exact HK).
  assert (Hfb : exact_row
                  (fallback_row cfg
                     (estimate_prior cfg true_labels label_order)
                     (length label_order))).
  { unfold fallback_row. destruct (zero_row cfg);
      [apply uniform_row_exact; exact HK|exact Hpri]. }
  assert (Htr : Forall exact_row
                  (estimate_transition
                     (fallback_row cfg
                        (estimate_prior cfg true_labels label_order)
                        (length label_order))
                     groups true_labels label_order)).
  { unfold estimate_transition. apply Forall_forall. intros row Hrow.
    apply in_map_iff in Hrow. destruct Hrow as (c & <- & _).
    apply normalize_row_exact; [exact Hfb|].
    apply Forall_forall. intros x Hx. apply in_map_iff in Hx.
    destruct Hx as (d & <- & _). apply qnat_nonneg. }
  assert (Hem : Forall exact_row
                  (estimate_emission
                     (fallback_row cfg
                        (estimate_prior cfg true_labels label_order)
                        (length label_order))
                     probabilities true_labels label_order)).
  { unfold estimate_emission. apply Forall_forall. intros row Hrow.
    apply in_map_iff in Hrow. destruct Hrow as (c & <- & _).
    apply normalize_row_exact; [exact Hfb|].
    apply mean_rows_nonneg. apply Forall_forall. intros r Hr.
    apply rows_of_class_incl in Hr. rewrite Forall_forall in Hprob.
    apply Hprob. exact Hr. }
  split; [|auto].
  split; [apply exact_row_stochastic; exact Hpri|].
  split; (eapply Forall_impl; [apply exact_row_stochastic|]); assumption.
Qed.

Lemma train_hmm_rows_stochastic_witness :
  Forall (Forall (fun x => 0 <= x)%Q) (Y_train_prob seam_notebook) /\
  exists params,
    train_hmm {| uniform_prior := false; zero_row := FallbackPrior |}
      (Some (pid_train seam_notebook)) (Y_train_prob seam_notebook)
      (Y_train seam_notebook) (clf_classes seam_notebook) = Ok params /\
    stochastic_row tolerance (prior params) /\
    Forall (stochastic_row tolerance) (transition params) /\
    Forall (stochastic_row tolerance) (emission params).
Proof.
  assert (Hprob : Forall (Forall (fun x => 0 <= x)%Q)
                    (Y_train_prob seam_notebook)).
  { repeat (apply Forall_cons;
            [repeat (apply Forall_cons; [vm_compute; discriminate|]);
             apply Forall_nil|]).
    apply Forall_nil. }
  split; [exact Hprob|].
  eexists. split; [vm_compute; reflexivity|].
  apply (train_hmm_rows_stochastic
           {| uniform_prior := false; zero_row := FallbackPrior |}
           (Some (pid_train seam_notebook)) (Y_train_prob seam_notebook)
           (Y_train seam_notebook) (clf_classes seam_notebook)).
  - exact Hprob.
  - vm_compute. reflexivity.
Defined.

(** ** Subject boundaries *)

Lemma bool_index_In {A : Type} (mask : list bool) :
  forall (a r : list A) x,
    bool_index mask a = Ok r -> In x r ->
    exists i, nth_error a i = Some x /\ nth_error mask i = Some true.
Proof.
  induction mask as [|m mask IH]; intros a r x H Hin.
  - destruct a; simpl in H; [|discriminate]. injection H as <-.
    destruct Hin.
  - destruct a as [|y a]; simpl in H; [discriminate|].
    destruct (bool_index mask a) as [r'|] eqn:E; simpl in H; [|discriminate].
    injection H as <-. destruct m.
    + destruct Hin as [->|Hin]; [exists O; auto|].
      destruct (IH a r' x E Hin) as (i & Hi & Hm). exists (S i). auto.
    + destruct (IH a r' x E Hin) as (i & Hi & Hm). exists (S i). auto.
Qed.

Lemma bool_index_positions {A : Type} (d : A) (mask : list bool) :
  forall (a r : list A) k pos,
    bool_index mask a = Ok r ->
    bool_index mask (seq k (length mask)) = Ok pos ->
    r = map (fun g => nth (g - k) a d) pos.
Proof.
  induction mask as [|m mask IH]; intros a r k pos Ha Hp.
  - destruct a; simpl in Ha; [|discriminate]. injection Ha as <-.
    simpl in Hp. injection Hp as <-. reflexivity.
  - destruct a as [|y a]; simpl in Ha; [discriminate|].
    destruct (bool_index mask a) as [r'|] eqn:Ea; simpl in Ha;
      [|discriminate].
    injection Ha as <-. simpl in Hp.
    destruct (bool_index mask (seq (S k) (length mask))) as [pos'|] eqn:Ep;
      simpl in Hp; [|discriminate].
    injection Hp as <-.
    pose proof (IH a r' (S k) pos' Ea Ep) as ->.
    assert (Hshift : map (fun g => nth (g - S k) a d) pos'
                     = map (fun g => nth (g - k) (y :: a) d) pos').
    { apply map_ext_in. intros g Hg.
      destruct (bool_index_In _ _ _ g Ep Hg) as (i & Hi & _).
      assert (Hlt : (i < length (seq (S k) (length mask)))%nat)
        by (apply nth_error_Some; congruence).
      rewrite length_seq in Hlt.
      rewrite nth_error_seq in Hi.
      assert (Ei : (i <? length mask)%nat = true)
        by (apply Nat.ltb_lt; exact Hlt).
      rewrite Ei in Hi. injection Hi as <-.
      assert (E1 : (S (k + i) - k = S i)%nat) by lia.
      assert (E2 : (S (k + i) - S k = i)%nat) by lia.
      rewrite E1, E2. reflexivity. }
    rewrite Hshift. destruct m; simpl; [|reflexivity].
    rewrite Nat.sub_diag. reflexivity.
Qed.

Lemma rolling_windows_In {A : Type} index w (x : list A) win v :
  In win (rolling_windows index w x) -> In v win -> In v x.
Proof.
  intros Hwin Hv. unfold rolling_windows in Hwin. apply in_map_iff in Hwin.
  destruct Hwin as (b & <- & _). eapply slice_incl. exact Hv.
Qed.

(** C2, as stated, fails for the HMM: the notebook estimates the parameters
    from the pooled training sequence.  With two participants and a jump
    from sit to walk exactly at the seam, entries 1 and 2 belong to
    different participants and no pair of the same participant goes from sit
    to walk, yet under every configuration the estimated transition matrix
    gives that jump the mass 1/2. *)
Lemma hmm_cell_counts_the_seam :
  same_subject (Some (pid_train seam_notebook)) 1 = false /\
  nth_error (Y_train seam_notebook) 1 = Some "sit"%string /\
  nth_error (Y_train seam_notebook) 2 = Some "walk"%string /\
  transition_count (Some (pid_train seam_notebook)) (Y_train seam_notebook)
    "sit"%string "walk"%string = O /\
  Forall
    (fun cfg =>
       exists p,
         hmm_params cfg seam_notebook = Ok p /\
         (entry (transition p) 0 1 == 1 # 2)%Q /\
         ~ (entry (transition p) 0 1 == 0)%Q)
    all_configs.
Proof.
  repeat split; try reflexivity.
  unfold all_configs.
  repeat (apply Forall_cons;
          [eexists; split; [vm_compute; reflexivity|];
           split; [vm_compute; reflexivity|vm_compute; discriminate]|]).
  apply Forall_nil.
Qed.

(** The smoothing cell makes one call of [rolling_mode] per participant, on
    the entries selected by that participant's mask, and concatenates the
    results. *)
Lemma for_each_inv {A B : Type} (f : A -> result B) l :
  forall r, for_each f l = Ok r -> Forall2 (fun x y => f x = Ok y) l r.
Proof.
  induction l as [|x l IH]; intros r H; simpl in H.
  - injection H as <-. constructor.
  - destruct (f x) as [y|] eqn:E; simpl in H; [|discriminate].
    destruct (for_each f l) as [r'|]; simpl in H; [|discriminate].
    injection H as <-. constructor; [exact E|]. apply IH. reflexivity.
Qed.

Lemma smooth_by_participant_calls T_test Y_test_pred pid_test out :
  smooth_by_participant T_test Y_test_pred pid_test = Ok out ->
  exists parts,
    out = concat parts /\
    Forall2
      (fun p part =>
         exists t y,
           bool_index (pid_mask pid_test p) T_test = Ok t /\
           bool_index (pid_mask pid_test p) Y_test_pred = Ok y /\
           rolling_mode t y default_window = Ok part)
      (participants pid_test) parts.
Proof.
  unfold smooth_by_participant. intros H.
  destruct (for_each _ (participants pid_test)) as [parts|] eqn:E;
    simpl in H; [|discriminate].
  exists parts. split.
  - unfold np_concatenate in H. destruct parts; [discriminate|].
    injection H as <-. reflexivity.
  - apply for_each_inv in E. eapply Forall2_impl; [|exact E].
    simpl. intros p part Hp.
    destruct (bool_index (pid_mask pid_test p) T_test) as [t|];
      simpl in Hp; [|discriminate].
    destruct (bool_index (pid_mask pid_test p) Y_test_pred) as [y|];
      simpl in Hp; [|discriminate].
    exists t, y. auto.
Qed.

(** C2, amended.  The rolling-mode smoother never spans two subjects: while
    the entries of participant [p] are smoothed, the label windows handed to
    [mode] are the labels at positions of the test set that all belong to
    [p], and the cell makes one such call per participant.  The HMM
    parameters come from one call on the pooled training arrays, and the
    decoded sequence from one call on the predictions of the whole test
    set; neither call receives participant identifiers: whatever the
    functions called, their results are the same for any assignment of the
    windows to participants. *)
Theorem rolling_windows_within_subject_hmm_pooled
    (T_test : list Z) (Y_test_pred pid_test : list label) (p : label)
    (t : list Z) (y : list label) (wins : list (list nat)) :
  bool_index (pid_mask pid_test p) T_test = Ok t ->
  bool_index (pid_mask pid_test p) Y_test_pred = Ok y ->
  window_positions T_test pid_test p = Ok wins ->
  (rolling_windows t default_window y
   = map (map (fun g => nth g Y_test_pred ""%string)) wins /\
   forall win g, In win wins -> In g win -> nth_error pid_test g = Some p) /\
  (forall out,
      smooth_by_participant T_test Y_test_pred pid_test = Ok out ->
      exists parts,
        out = concat parts /\
        Forall2
          (fun q part =>
             exists tq yq,
               bool_index (pid_mask pid_test q) T_test = Ok tq /\
               bool_index (pid_mask pid_test q) Y_test_pred = Ok yq /\
               rolling_mode tq yq default_window = Ok part)
          (participants pid_test) parts) /\
  (forall (P R : Type)
          (utils_train_hmm : list (list Q) -> list label -> list label -> P)
          (utils_viterbi : list label -> P -> R)
          (nb : notebook) (train_pids test_pids : list label),
      hmm_params_cell utils_train_hmm (with_pids nb train_pids test_pids)
      = hmm_params_cell utils_train_hmm nb /\
      hmm_smooth_cell utils_train_hmm utils_viterbi
        (with_pids nb train_pids test_pids)
      = hmm_smooth_cell utils_train_hmm utils_viterbi nb).
Proof.
  intros Ht Hy Hw.
  split; [|split; [intros out; apply smooth_by_participant_calls
                  |intros; split; reflexivity]].
  unfold window_positions in Hw. rewrite Ht in Hw. simpl in Hw.
  destruct (bool_index (pid_mask pid_test p) (seq 0 (length pid_test)))
    as [pos|] eqn:Ep; simpl in Hw; [|discriminate].
  injection Hw as <-.
  assert (Hmask : length (pid_mask pid_test p) = length pid_test).
  { unfold pid_mask. apply length_map. }
  split.
  - rewrite <- Hmask in Ep.
    rewrite (bool_index_positions ""%string _ _ _ O pos Hy Ep).
    rewrite rolling_windows_map. apply map_ext. intros win.
    apply map_ext. intros g. rewrite Nat.sub_0_r. reflexivity.
  - intros win g Hwin Hg.
    pose proof (rolling_windows_In _ _ _ _ _ Hwin Hg) as Hpos.
    destruct (bool_index_In _ _ _ g Ep Hpos) as (i & Hi & Hm).
    assert (Hlt : (i < length (seq 0 (length pid_test)))%nat).
    { apply nth_error_Some. congruence. }
    rewrite length_seq in Hlt.
    rewrite nth_error_seq in Hi.
    assert (Ei : (i <? length pid_test)%nat = true)
      by (apply Nat.ltb_lt; exact Hlt).
    rewrite Ei in Hi. injection Hi as <-. simpl.
    unfold pid_mask in Hm. rewrite nth_error_map in Hm. unfold label in *.
    destruct (nth_error pid_test i) as [q|]; cbn [option_map] in Hm;
      [|discriminate].
    injection Hm as Hm. apply String.eqb_eq in Hm.
    subst q. reflexivity.
Qed.

Lemma rolling_windows_within_subject_hmm_pooled_witness :
  rolling_windows (map seconds [0; 30]) default_window
    ["walk"; "walk"]%string
  = map (map (fun g => nth g ["sit"; "sit"; "sit"; "walk"; "walk"]%string
                         ""%string))
      [[3]; [3; 4]]%nat /\
  forall win g, In win [[3]; [3; 4]]%nat -> In g win ->
    nth_error ["P101"; "P101"; "P101"; "P102"; "P102"]%string g
    = Some "P102"%string.
Proof.
  apply (rolling_windows_within_subject_hmm_pooled
           (map seconds [0; 30; 60; 0; 30])
           ["sit"; "sit"; "sit"; "walk"; "walk"]%string
           ["P101"; "P101"; "P101"; "P102"; "P102"]%string
           "P102"%string).
  - vm_compute. reflexivity.
  - vm_compute. reflexivity.
  - vm_compute. reflexivity.
Defined.

(** * Further properties of the notebook's code *)

(** ** Counting *)

Section CountFacts.

Context {A : Type}.
Variable cmp : A -> A -> comparison.

Hypothesis cmp_eq : forall x y, cmp x y = Eq -> x = y.
Hypothesis cmp_refl : forall x, cmp x x = Eq.

Lemma count_two_le x y l :
  x <> y -> (count cmp x l + count cmp y l <= length l)%nat.
Proof.
  intros Hxy. induction l as [|z l IH]; simpl; [lia|].
  destruct (cmp x z) eqn:Ex; destruct (cmp y z) eqn:Ey; try lia.
  apply cmp_eq in Ex, Ey. congruence.
Qed.

Lemma count_Permutation x l l' :
  Permutation l l' -> count cmp x l = count cmp x l'.
Proof.
  induction 1 as [|z l l' _ IH|z z' l|l l' l'' _ IH1 _ IH2]; simpl.
  - reflexivity.
  - rewrite IH. reflexivity.
  - destruct (cmp x z); destruct (cmp x z'); reflexivity.
  - congruence.
Qed.

End CountFacts.

(** ** [mode] *)

(** X1. On a non-empty list [mode] returns one of the elements of the
    list: the element at the middle position when no value occurs twice,
    and otherwise a value that occurs at least as often as every other. *)
Theorem mode_returns_member a :
  a <> [] ->
  exists v,
    mode a = Some v /\ In v a /\
    ((forall x, (count Z.compare x a <= 1)%nat) ->
     nth_error a (length a / 2)%nat = Some v) /\
    ((exists x, (2 <= count Z.compare x a)%nat) ->
     forall x, (count Z.compare x a <= count Z.compare v a)%nat).
Proof.
  intros Hne.
  destruct (mode_spec a Hne) as (m & c & _ & Hm & Hc & Hmax & _ & Hmode).
  assert (Hc1 : (1 <= c)%nat).
  { rewrite Hc. apply (count_In Z.compare Zcmp_eq Z.compare_refl). exact Hm. }
  destruct (c =? 1)%nat eqn:E.
  - apply Nat.eqb_eq in E.
    destruct (nth_error a (length a / 2)) as [v|] eqn:Emid.
    + exists v. split; [exact Hmode|]. split.
      * eapply nth_error_In. exact Emid.
      * split; [reflexivity|]. intros (x & Hx). pose proof (Hmax x). lia.
    + apply nth_error_None in Emid. pose proof (middle_lt a Hne). lia.
  - apply Nat.eqb_neq in E. exists m. split; [exact Hmode|].
    split; [exact Hm|]. split.
    + intros Hall. pose proof (Hall m). lia.
    + intros _ x. rewrite <- Hc. apply Hmax.
Qed.

Lemma mode_returns_member_witness :
  exists v,
    mode [4; 2; 7] = Some v /\ In v [4; 2; 7] /\
    ((forall x, (count Z.compare x [4; 2; 7]%Z <= 1)%nat) ->
     nth_error [4; 2; 7] (length [4; 2; 7] / 2)%nat = Some v) /\
    ((exists x, (2 <= count Z.compare x [4; 2; 7]%Z)%nat) ->
     forall x, (count Z.compare x [4; 2; 7]%Z
                <= count Z.compare v [4; 2; 7]%Z)%nat).
Proof. apply (mode_returns_member [4; 2; 7]). discriminate. Defined.

(** X2. A value that fills more than half of the list is what [mode]
    returns. *)
Theorem mode_strict_majority a v :
  (length a < 2 * count Z.compare v a)%nat -> mode a = Some v.
Proof.
  intros Hmaj.
  assert (Hne : a <> []) by (intros ->; simpl in Hmaj; lia).
  destruct (mode_spec a Hne) as (m & c & _ & Hm & Hc & Hmax & _ & ->).
  destruct (Z.eq_dec m v) as [->|Hneq].
  - destruct (c =? 1)%nat eqn:E; [|reflexivity].
    apply Nat.eqb_eq in E. rewrite <- Hc, E in Hmaj.
    destruct a as [|x [|x' a]]; [congruence| |simpl in Hmaj; lia].
    destruct Hm as [->|[]]. reflexivity.
  - pose proof (count_two_le Z.compare Zcmp_eq m v a Hneq).
    pose proof (Hmax v). lia.
Qed.

Lemma mode_strict_majority_witness : mode [3; 1; 3; 3; 0] = Some 3.
Proof. apply (mode_strict_majority [3; 1; 3; 3; 0] 3). simpl. lia. Defined.

(** X3. When some value occurs at least twice, [mode] does not depend on
    the order of the list. *)
Theorem mode_order_irrelevant_when_repeats a b v :
  Permutation a b ->
  (2 <= count Z.compare v a)%nat ->
  mode a = mode b.
Proof.
  intros Hperm Hrep.
  assert (Hcount : forall x, count Z.compare x a = count Z.compare x b).
  { intros x. apply count_Permutation. exact Hperm. }
  assert (Ha : a <> []) by (intros ->; simpl in Hrep; lia).
  assert (Hb : b <> []).
  { intros ->. rewrite Hcount in Hrep. simpl in Hrep. lia. }
  destruct (mode_spec a Ha) as (m & c & _ & _ & Hc & Hmax & Hmin & ->).
  destruct (mode_spec b Hb) as (m' & c' & _ & _ & Hc' & Hmax' & Hmin' & ->).
  assert (Ecc : c = c').
  { apply Nat.le_antisymm.
    - rewrite Hc, Hcount. apply Hmax'.
    - rewrite Hc', <- Hcount. apply Hmax. }
  assert (Emm : m = m').
  { apply Z.le_antisymm.
    - apply Hmin. rewrite Hcount. congruence.
    - apply Hmin'. rewrite <- Hcount. congruence. }
  rewrite <- Ecc, <- Emm.
  assert (Hc2 : (2 <= c)%nat) by (pose proof (Hmax v); lia).
  assert (E : (c =? 1)%nat = false) by (apply Nat.eqb_neq; lia).
  rewrite E. reflexivity.
Qed.

Lemma mode_order_irrelevant_when_repeats_witness :
  mode [5; 1; 5; 1; 2] = mode [2; 1; 1; 5; 5].
Proof.
  apply (mode_order_irrelevant_when_repeats [5; 1; 5; 1; 2] [2; 1; 1; 5; 5] 5).
  - apply Permutation_sym.
    apply (Permutation_cons_app [5; 1; 5; 1] [] 2). simpl.
    change [5; 1; 5; 1] with ([5] ++ 1 :: [5; 1]).
    apply Permutation_cons_app. simpl.
    change [5; 5; 1] with ([5; 5] ++ 1 :: []).
    apply Permutation_cons_app. simpl. apply Permutation_refl.
  - simpl. lia.
Defined.

(** ** [rolling_mode] *)

Lemma Forall2_In_impl {A B : Type} (R R' : A -> B -> Prop) l l' :
  Forall2 R l l' ->
  (forall x y, In x l -> R x y -> R' x y) ->
  Forall2 R' l l'.
Proof.
  induction 1 as [|x y l l' Hxy _ IH]; intros H; constructor.
  - apply H; [left; reflexivity|exact Hxy].
  - apply IH. intros x' y' Hin. apply H. right. exact Hin.
Qed.

(** Every label returned is a label of its window. *)
Lemma rolling_mode_out_in_window t y w out :
  rolling_mode t y w = Ok out ->
  Forall2 (fun win l => In l win) (rolling_windows t w y) out.
Proof.
  intros Hrun. destruct (rolling_mode_inv t y w out Hrun) as (Hlen & _ & F).
  eapply Forall2_In_impl; [exact F|]. simpl.
  intros win l Hwin (c & Hmode & Hdec).
  destruct (In_nth_error _ _ Hwin) as [i Hi].
  destruct (rolling_windows_spec t w y i win Hlen Hi)
    as (s & _ & _ & _ & Hne & Hsub).
  assert (Hne' : map (cat_code (categories y)) win <> []).
  { destruct win; [congruence|discriminate]. }
  destruct (mode_In _ Hne') as (c' & Hc' & Hv).
  assert (c' = c) by congruence. subst c'.
  apply in_map_iff in Hv. destruct Hv as (l0 & <- & Hl0).
  assert (l = l0).
  { eapply decodes_fun; [exact Hdec|]. apply cat_code_decodes.
    apply categories_In. apply Hsub. exact Hl0. }
  subst l0. exact Hl0.
Qed.

Lemma slice_nth {A : Type} s e (x : list A) k :
  (k < e - s)%nat ->
  nth_error (slice (s, e) x) k = nth_error x (s + k).
Proof.
  intros H. unfold slice. simpl.
  rewrite nth_error_firstn.
  assert (E : (k <? e - s)%nat = true) by (apply Nat.ltb_lt; exact H).
  rewrite E. apply nth_error_skipn.
Qed.

(** X4. [rolling_mode] returns a sequence exactly when the timestamps and
    the labels have the same length and the timestamps are in monotonic
    order, increasing or decreasing; in every other case it raises a
    [ValueError], never another exception. *)
Theorem rolling_mode_succeeds_iff t y w :
  ((exists out, rolling_mode t y w = Ok out) <->
   (length t = length y /\
    is_monotonic_increasing t || is_monotonic_decreasing t = true)) /\
  (forall e, rolling_mode t y w = Raise e -> e = ValueError).
Proof.
  split; [split|].
  - intros (out & Hrun). apply rolling_mode_inv in Hrun.
    destruct Hrun as (Hlen & Hmono & _). auto.
  - intros (Hlen & Hmono).
    destruct (rolling_mode_total t y w Hlen Hmono) as (out & Hrun & _).
    eauto.
  - intros e He.
    destruct (Nat.eq_dec (length t) (length y)) as [Hlen|Hlen].
    + destruct (is_monotonic_increasing t || is_monotonic_decreasing t)
        eqn:Hmono.
      * destruct (rolling_mode_total t y w Hlen Hmono) as (out & Hrun & _).
        congruence.
      * unfold rolling_mode in He.
        rewrite Hlen, Nat.eqb_refl, Hmono in He. simpl in He. congruence.
    + unfold rolling_mode in He. apply Nat.eqb_neq in Hlen.
      rewrite Hlen in He. simpl in He. congruence.
Qed.

(** X5. The sequence returned by [rolling_mode] is as long as the labels,
    and the label at each position [i] is an input label found at some
    position [j <= i] of its window: the smoother never looks ahead and
    never invents a label. *)
Theorem rolling_mode_output_from_trailing_window t y w out i l :
  rolling_mode t y w = Ok out ->
  nth_error out i = Some l ->
  length out = length y /\
  exists s j,
    nth_error (rolling_windows t w y) i = Some (slice (s, S i) y) /\
    (s <= j <= i)%nat /\ nth_error y j = Some l.
Proof.
  intros Hrun Hout.
  pose proof (rolling_mode_out_in_window t y w out Hrun) as F.
  destruct (rolling_mode_inv t y w out Hrun) as (Hlen & _ & _).
  pose proof (Forall2_length F) as Hl. rewrite rolling_windows_length in Hl.
  split; [congruence|].
  assert (Hi : (i < length out)%nat) by (apply nth_error_Some; congruence).
  destruct (nth_error (rolling_windows t w y) i) as [win|] eqn:Ew.
  - destruct (Forall2_nth_error_l _ _ _ F i win Ew) as (l' & Hl' & Hin).
    assert (l' = l) by congruence. subst l'.
    destruct (rolling_windows_spec t w y i win Hlen Ew)
      as (s & Hs & Hiy & -> & _ & _).
    destruct (In_nth_error _ _ Hin) as [k Hk].
    assert (Hklt : (k < S i - s)%nat).
    { rewrite <- (slice_length s (S i) y) by lia.
      apply nth_error_Some. congruence. }
    rewrite slice_nth in Hk by exact Hklt.
    exists s, (s + k)%nat. split; [reflexivity|]. split; [lia|exact Hk].
  - apply nth_error_None in Ew. rewrite rolling_windows_length in Ew. lia.
Qed.

Lemma rolling_mode_output_from_trailing_window_witness :
  length ["sit"; "walk"; "sit"; "sit"]%string = 4%nat /\
  exists s j,
    nth_error
      (rolling_windows (map seconds [0; 30; 60; 90]) default_window
         ["sit"; "walk"; "sit"; "walk"]%string) 2
    = Some (slice (s, 3%nat) ["sit"; "walk"; "sit"; "walk"]%string) /\
    (s <= j <= 2)%nat /\
    nth_error ["sit"; "walk"; "sit"; "walk"]%string j = Some "sit"%string.
Proof.
  apply (rolling_mode_output_from_trailing_window
           (map seconds [0; 30; 60; 90])
           ["sit"; "walk"; "sit"; "walk"]%string default_window
           ["sit"; "walk"; "sit"; "sit"]%string 2%nat "sit"%string).
  - vm_compute. reflexivity.
  - reflexivity.
Defined.

Lemma monotonic_sorted t :
  is_monotonic_increasing t = true -> StronglySorted Z.le t.
Proof.
  induction t as [|a t IH]; intros H; [constructor|].
  destruct t as [|b t]; [repeat constructor|].
  change (((a <=? b) && is_monotonic_increasing (b :: t)) = true) in H.
  apply andb_prop in H. destruct H as [Hab Hrest].
  apply Z.leb_le in Hab. specialize (IH Hrest).
  constructor; [exact IH|].
  inversion IH as [|? ? _ Hall]; subst.
  constructor; [exact Hab|].
  eapply Forall_impl; [|exact Hall]. intros c Hc. lia.
Qed.

Lemma gaps_monotonic w t :
  0 <= w -> gaps_at_least w t = true -> is_monotonic_increasing t = true.
Proof.
  intros Hw. induction t as [|a t IH]; intros H; [reflexivity|].
  destruct t as [|b t]; [reflexivity|].
  change (((a + w <=? b) && gaps_at_least w (b :: t)) = true) in H.
  apply andb_prop in H. destruct H as [Hab Hrest].
  apply Z.leb_le in Hab.
  change (((a <=? b) && is_monotonic_increasing (b :: t)) = true).
  rewrite (IH Hrest), andb_true_r. apply Z.leb_le. lia.
Qed.

Lemma gaps_nth w t :
  gaps_at_least w t = true ->
  forall i, (S i < length t)%nat -> nth i t 0 + w <= nth (S i) t 0.
Proof.
  induction t as [|a t IH]; intros H i Hi; [simpl in Hi; lia|].
  destruct t as [|b t]; [simpl in Hi; lia|].
  change (((a + w <=? b) && gaps_at_least w (b :: t)) = true) in H.
  apply andb_prop in H. destruct H as [Hab Hrest].
  destruct i as [|i].
  - simpl. apply Z.leb_le. exact Hab.
  - change (nth i (b :: t) 0 + w <= nth (S i) (b :: t) 0).
    apply IH; [exact Hrest|]. simpl in *. lia.
Qed.

Lemma slice_single {A : Type} i (x : list A) a :
  nth_error x i = Some a -> slice (i, S i) x = [a].
Proof.
  intros H. unfold slice. simpl fst. simpl snd.
  replace (S i - i)%nat with 1%nat by lia.
  revert i H. induction x as [|b x IH]; intros i H.
  - destruct i; discriminate.
  - destruct i as [|i]; simpl in *.
    + injection H as <-. reflexivity.
    + apply IH. exact H.
Qed.

(** X6. When consecutive timestamps are at least the window length apart,
    and close enough for the int64 arithmetic of the window search not to
    overflow, every window holds its own entry alone and [rolling_mode]
    returns the labels unchanged. *)
Theorem rolling_mode_sparse_unchanged t y w :
  length t = length y ->
  0 < w ->
  no_overflow t w = true ->
  gaps_at_least w t = true ->
  rolling_mode t y w = Ok y.
Proof.
  intros Hlen Hw Hfits Hgaps.
  assert (Hinc : is_monotonic_increasing t = true)
    by (apply (gaps_monotonic w); [lia|exact Hgaps]).
  assert (Hmono : is_monotonic_increasing t || is_monotonic_decreasing t
                  = true) by (rewrite Hinc; reflexivity).
  pose proof (monotonic_sorted t Hinc) as Hsorted.
  destruct (rolling_mode_total t y w Hlen Hmono) as (out & Hrun & F).
  rewrite Hrun. f_equal. apply nth_error_ext. intros i.
  destruct (nth_error (window_bounds t w) i) as [[s e]|] eqn:Eb.
  - pose proof (window_bounds_nth t w i s e Eb) as (Hs & -> & Hi).
    pose proof (window_bounds_sorted t w Hsorted Hw Hfits i s (S i) Eb)
      as (_ & _ & Hafter).
    assert (s = i).
    { destruct (Nat.eq_dec s i) as [E|E]; [exact E|].
      assert (Hprev : (s <= i - 1 <= i)%nat) by lia.
      specialize (Hafter (i - 1)%nat Hprev).
      pose proof (gaps_nth w t Hgaps (i - 1)%nat) as Hg.
      replace (S (i - 1)) with i in Hg by lia.
      unfold idx in Hafter. specialize (Hg Hi). lia. }
    subst s.
    destruct (nth_error y i) as [yi|] eqn:Ey.
    + assert (Ew : nth_error (rolling_windows t w y) i = Some [yi]).
      { rewrite rolling_windows_nth, Eb. simpl.
        rewrite (slice_single i y yi Ey). reflexivity. }
      destruct (Forall2_nth_error_l _ _ _ F i [yi] Ew) as (l & Hl & Hin).
      destruct Hin as [<-|[]]. exact Hl.
    + apply nth_error_None in Ey. lia.
  - apply nth_error_None in Eb. rewrite window_bounds_length in Eb.
    pose proof (Forall2_length F) as Hl.
    rewrite rolling_windows_length in Hl.
    assert (E1 : nth_error out i = None) by (apply nth_error_None; lia).
    assert (E2 : nth_error y i = None) by (apply nth_error_None; lia).
    congruence.
Qed.

Lemma rolling_mode_sparse_unchanged_witness :
  rolling_mode (map seconds [0; 100; 250]) ["sit"; "walk"; "sit"]%string
    default_window
  = Ok ["sit"; "walk"; "sit"]%string.
Proof.
  apply (rolling_mode_sparse_unchanged (map seconds [0; 100; 250])
           ["sit"; "walk"; "sit"]%string default_window).
  - reflexivity.
  - reflexivity.
  - vm_compute. reflexivity.
  - vm_compute. reflexivity.
Defined.

(** X7. A label that fills more than half of the window of a position is
    the label [rolling_mode] returns at that position. *)
Theorem rolling_mode_window_majority t y w out i win l :
  rolling_mode t y w = Ok out ->
  nth_error (rolling_windows t w y) i = Some win ->
  (length win < 2 * count label_cmp l win)%nat ->
  nth_error out i = Some l.
Proof.
  intros Hrun Hwin Hmaj.
  destruct (rolling_mode_at t y w out i win Hrun Hwin)
    as (c & l' & Hmode & Hdec & Hout & Hne & Hin).
  destruct (mode_codes (categories y) win Hne Hin)
    as (l0 & Hl0 & Hcnt & _ & E).
  pose proof (count_le_max_frequency win l) as Hle.
  rewrite Hout. f_equal.
  destruct (max_frequency win =? 1)%nat eqn:E1.
  - apply Nat.eqb_eq in E1.
    assert (Hlen2 : (length win < 2)%nat) by lia.
    destruct win as [|x [|x' win]]; [congruence| |simpl in Hlen2; lia].
    assert (Hl : In l [x]).
    { apply (count_In label_cmp label_cmp_eq label_cmp_refl). lia. }
    destruct Hl as [->|[]].
    rewrite E in Hmode. simpl in Hmode. injection Hmode as Hc. subst c.
    eapply decodes_fun; [exact Hdec|]. apply cat_code_decodes.
    apply Hin. left. reflexivity.
  - rewrite E in Hmode. injection Hmode as Hc. subst c.
    assert (l' = l0).
    { eapply decodes_fun; [exact Hdec|]. apply cat_code_decodes. auto. }
    subst l0.
    destruct (string_dec l' l) as [Heq|Hneq]; [exact Heq|].
    pose proof (count_two_le label_cmp label_cmp_eq l' l win Hneq). lia.
Qed.

Lemma rolling_mode_window_majority_witness :
  nth_error ["walk"; "walk"; "walk"; "walk"]%string 2 = Some "walk"%string.
Proof.
  apply (rolling_mode_window_majority
           (map seconds [0; 30; 60; 90])
           ["walk"; "walk"; "sit"; "walk"]%string default_window
           ["walk"; "walk"; "walk"; "walk"]%string 2%nat
           ["walk"; "walk"; "sit"]%string "walk"%string).
  - vm_compute. reflexivity.
  - vm_compute. reflexivity.
  - vm_compute. lia.
Defined.

Lemma Forall2_Forall_r {A B : Type} (R : A -> B -> Prop) l l' :
  Forall2 R l l' -> Forall (fun y => exists x, In x l /\ R x y) l'.
Proof.
  induction 1 as [|x y l l' Hxy _ IH]; constructor.
  - exists x. split; [left; reflexivity|exact Hxy].
  - eapply Forall_impl; [|exact IH]. simpl.
    intros b (a & Ha & Hab). exists a. split; [right; exact Ha|exact Hab].
Qed.

(** X8. A sequence that holds one label throughout is returned unchanged,
    whatever the timestamps in monotonic order and the window length. *)
Theorem rolling_mode_constant_unchanged t w l n :
  length t = n ->
  is_monotonic_increasing t || is_monotonic_decreasing t = true ->
  rolling_mode t (repeat l n) w = Ok (repeat l n).
Proof.
  intros Hlen Hmono.
  assert (Hlen' : length t = length (repeat l n))
    by (rewrite repeat_length; exact Hlen).
  destruct (rolling_mode_total t (repeat l n) w Hlen' Hmono)
    as (out & Hrun & F).
  rewrite Hrun. f_equal.
  assert (Hall : Forall (eq l) out).
  { eapply Forall_impl; [|apply (Forall2_Forall_r _ _ _ F)]. simpl.
    intros l' (win & Hwin & Hin).
    symmetry. apply (repeat_spec n l l').
    eapply rolling_windows_In; [exact Hwin|exact Hin]. }
  apply Forall_eq_repeat in Hall. rewrite Hall. f_equal.
  apply Forall2_length in F. rewrite rolling_windows_length in F. lia.
Qed.

Lemma rolling_mode_constant_unchanged_witness :
  rolling_mode (map seconds [90; 60; 30; 0]) (repeat "sleep"%string 4)
    (seconds 45)
  = Ok (repeat "sleep"%string 4).
Proof.
  apply (rolling_mode_constant_unchanged (map seconds [90; 60; 30; 0])
           (seconds 45) "sleep"%string 4).
  - reflexivity.
  - vm_compute. reflexivity.
Defined.

(** ** The participants of the smoothing cell *)

Lemma insert_by_key_perm {A : Type} (p : nat * A) l :
  Permutation (insert_by_key p l) (p :: l).
Proof.
  induction l as [|q l IH]; simpl; [apply Permutation_refl|].
  destruct (fst p <=? fst q)%nat; [apply Permutation_refl|].
  eapply Permutation_trans; [apply perm_skip; exact IH|apply perm_swap].
Qed.

Lemma isort_perm {A : Type} (l : list (nat * A)) :
  Permutation (fold_right insert_by_key [] l) l.
Proof.
  induction l as [|p l IH]; simpl; [constructor|].
  eapply Permutation_trans; [apply insert_by_key_perm|].
  apply perm_skip. exact IH.
Qed.

Lemma insert_by_key_sorted {A : Type} (p : nat * A) l :
  StronglySorted (fun a b => (fst a <= fst b)%nat) l ->
  StronglySorted (fun a b => (fst a <= fst b)%nat) (insert_by_key p l).
Proof.
  induction 1 as [|q l Hs IH Hall]; simpl; [repeat constructor|].
  destruct (fst p <=? fst q)%nat eqn:E.
  - apply Nat.leb_le in E. constructor; [constructor; assumption|].
    constructor; [exact E|].
    eapply Forall_impl; [|exact Hall]. simpl. intros b Hb. lia.
  - apply Nat.leb_gt in E. constructor; [exact IH|].
    apply Forall_forall. intros b Hb.
    apply (Permutation_in _ (insert_by_key_perm p l)) in Hb.
    destruct Hb as [<-|Hb]; [lia|].
    rewrite Forall_forall in Hall. apply Hall. exact Hb.
Qed.

Lemma isort_sorted {A : Type} (l : list (nat * A)) :
  StronglySorted (fun a b => (fst a <= fst b)%nat)
    (fold_right insert_by_key [] l).
Proof.
  induction l as [|p l IH]; simpl; [constructor|].
  apply insert_by_key_sorted. exact IH.
Qed.

Lemma sorted_rel_in {A : Type} (R R' : A -> A -> Prop) l :
  StronglySorted R l ->
  (forall a b, In a l -> In b l -> R a b -> R' a b) ->
  StronglySorted R' l.
Proof.
  induction 1 as [|a l Hs IH Hall]; intros H; constructor.
  - apply IH. intros x y Hx Hy. apply H; right; assumption.
  - rewrite Forall_forall in *. intros b Hb.
    apply H; [left; reflexivity|right; exact Hb|apply Hall; exact Hb].
Qed.

Lemma sorted_map {A B : Type} (f : A -> B) (R : B -> B -> Prop) l :
  StronglySorted (fun a b => R (f a) (f b)) l -> StronglySorted R (map f l).
Proof.
  induction 1 as [|a l Hs IH Hall]; simpl; constructor; [exact IH|].
  rewrite Forall_forall in *. intros b Hb. apply in_map_iff in Hb.
  destruct Hb as (x & <- & Hx). apply Hall. exact Hx.
Qed.

Lemma sorted_NoDup_strict {A : Type} (R : A -> A -> Prop) l :
  StronglySorted R l -> NoDup l ->
  StronglySorted (fun a b => R a b /\ a <> b) l.
Proof.
  induction 1 as [|a l Hs IH Hall]; intros Hnd; constructor.
  - apply IH. inversion Hnd; assumption.
  - inversion Hnd as [|? ? Hnotin _]; subst.
    rewrite Forall_forall in *. intros b Hb. split; [apply Hall; exact Hb|].
    intros ->. contradiction.
Qed.

Lemma sorted_filter {A : Type} (R : A -> A -> Prop) (f : A -> bool) l :
  StronglySorted R l -> StronglySorted R (filter f l).
Proof.
  induction 1 as [|a l Hs IH Hall]; simpl; [constructor|].
  destruct (f a); [|exact IH]. constructor; [exact IH|].
  rewrite Forall_forall in *. intros b Hb. apply filter_In in Hb.
  apply Hall. tauto.
Qed.

(** Two lists with the same elements, both in strictly increasing order of
    a key, are equal. *)
Lemma sorted_by_key_unique {A : Type} (k : A -> nat) l1 :
  forall l2,
    StronglySorted (fun a b => (k a < k b)%nat) l1 ->
    StronglySorted (fun a b => (k a < k b)%nat) l2 ->
    (forall x, In x l1 <-> In x l2) ->
    l1 = l2.
Proof.
  induction l1 as [|a l1 IH]; intros l2 H1 H2 Hin.
  - destruct l2 as [|b l2]; [reflexivity|].
    exfalso. apply (Hin b). left. reflexivity.
  - destruct l2 as [|b l2].
    + exfalso. apply (Hin a). left. reflexivity.
    + inversion H1 as [|? ? Hs1 Hall1]; subst.
      inversion H2 as [|? ? Hs2 Hall2]; subst.
      rewrite Forall_forall in Hall1, Hall2.
      assert (a = b).
      { assert (Ha : In a (b :: l2)) by (apply Hin; left; reflexivity).
        assert (Hb : In b (a :: l1)) by (apply Hin; left; reflexivity).
        destruct Ha as [Ha|Ha]; [congruence|].
        destruct Hb as [Hb|Hb]; [congruence|].
        specialize (Hall1 b Hb). specialize (Hall2 a Ha). lia. }
      subst b. f_equal. apply IH; [exact Hs1|exact Hs2|].
      intros x. split; intros Hx.
      * assert (Hx' : In x (a :: l2)) by (apply Hin; right; exact Hx).
        destruct Hx' as [<-|Hx']; [|exact Hx'].
        specialize (Hall1 a Hx). lia.
      * assert (Hx' : In x (a :: l1)) by (apply Hin; right; exact Hx).
        destruct Hx' as [<-|Hx']; [|exact Hx'].
        specialize (Hall2 a Hx). lia.
Qed.

Lemma first_index_nth pid p :
  In p pid -> nth_error pid (first_index pid p) = Some p.
Proof.
  intros H. unfold first_index.
  destruct (index_of_In label_cmp label_cmp_refl p pid H) as [i Hi].
  rewrite Hi. apply (index_of_Some label_cmp label_cmp_eq). exact Hi.
Qed.

Lemma first_index_inj pid p q :
  In p pid -> In q pid -> first_index pid p = first_index pid q -> p = q.
Proof.
  intros Hp Hq E. apply first_index_nth in Hp, Hq. congruence.
Qed.

Lemma first_index_head x l : first_index (x :: l) x = O.
Proof.
  unfold first_index. simpl. rewrite label_cmp_refl. reflexivity.
Qed.

Lemma first_index_tail x l z :
  z <> x -> In z l -> first_index (x :: l) z = S (first_index l z).
Proof.
  intros Hne Hin. unfold first_index. simpl.
  destruct (index_of_In label_cmp label_cmp_refl z l Hin) as [i Hi].
  rewrite Hi.
  destruct (label_cmp z x) eqn:E; try reflexivity.
  apply label_cmp_eq in E. contradiction.
Qed.

Lemma first_appearances_In l z : In z (first_appearances l) <-> In z l.
Proof.
  induction l as [|x l IH]; simpl; [reflexivity|].
  rewrite filter_In, IH. split.
  - intros [H|[H _]]; auto.
  - intros [H|H]; [auto|].
    destruct (string_dec x z) as [E|E]; [auto|]. right. split; [exact H|].
    apply negb_true_iff. apply String.eqb_neq. exact E.
Qed.

Lemma first_appearances_sorted l :
  StronglySorted (fun a b => (first_index l a < first_index l b)%nat)
    (first_appearances l).
Proof.
  induction l as [|x l IH]; simpl; [constructor|].
  assert (Hmem : forall z,
             In z (filter (fun y => negb (String.eqb x y))
                     (first_appearances l)) -> z <> x /\ In z l).
  { intros z Hz. apply filter_In in Hz. destruct Hz as [Hz Hne].
    apply negb_true_iff in Hne. apply String.eqb_neq in Hne.
    split; [congruence|]. apply first_appearances_In. exact Hz. }
  constructor.
  - eapply sorted_rel_in; [apply sorted_filter; exact IH|]. simpl.
    intros a b Ha Hb Hab.
    destruct (Hmem a Ha) as [Hax Hal]. destruct (Hmem b Hb) as [Hbx Hbl].
    rewrite !first_index_tail by assumption. lia.
  - apply Forall_forall. intros z Hz. destruct (Hmem z Hz) as [Hzx Hzl].
    rewrite first_index_head, first_index_tail by assumption. lia.
Qed.

Lemma combine_map_self {A B : Type} (f : A -> B) l :
  combine (map f l) l = map (fun x => (f x, x)) l.
Proof.
  induction l as [|x l IH]; simpl; [reflexivity|]. rewrite IH. reflexivity.
Qed.

Lemma sorted_strict_NoDup {A : Type} (k : A -> nat) l :
  StronglySorted (fun a b => (k a < k b)%nat) l -> NoDup l.
Proof.
  induction 1 as [|a l Hs IH Hall]; constructor; [|exact IH].
  intros Hin. rewrite Forall_forall in Hall. specialize (Hall a Hin). lia.
Qed.

Lemma unique_NoDup (l : list label) : NoDup (unique label_cmp l).
Proof.
  pose proof (categories_sorted l) as H. unfold categories in H.
  induction H as [|a u Hs IH Hall]; constructor; [|exact IH].
  intros Hin. rewrite Forall_forall in Hall. specialize (Hall a Hin).
  unfold clt in Hall. rewrite label_cmp_refl in Hall. discriminate.
Qed.

(** The participants listed by the cell are the distinct identifiers in
    order of first appearance. *)
Lemma participants_spec pid : participants pid = first_appearances pid.
Proof.
  set (k := first_index pid).
  apply (sorted_by_key_unique k).
  - unfold participants, order_by_key. fold (first_index pid). fold k.
    rewrite combine_map_self.
    set (pairs := map (fun p => (k p, p)) (unique label_cmp pid)).
    assert (Hperm : Permutation (fold_right insert_by_key [] pairs) pairs)
      by apply isort_perm.
    assert (Hkeys : forall q, In q (fold_right insert_by_key [] pairs) ->
                              fst q = k (snd q) /\ In (snd q) pid).
    { intros q Hq. apply (Permutation_in _ Hperm) in Hq.
      unfold pairs in Hq. apply in_map_iff in Hq.
      destruct Hq as (p & <- & Hp). split; [reflexivity|].
      apply (unique_In label_cmp label_cmp_eq). exact Hp. }
    assert (Hnd : NoDup (map snd (fold_right insert_by_key [] pairs))).
    { eapply Permutation_NoDup; [apply Permutation_sym;
                                 apply Permutation_map; exact Hperm|].
      unfold pairs. rewrite map_map. simpl. rewrite map_id.
      apply unique_NoDup. }
    eapply sorted_rel_in;
      [apply sorted_NoDup_strict;
       [apply sorted_map with (R := fun a b => (k a <= k b)%nat)|exact Hnd]|].
    + eapply sorted_rel_in; [apply isort_sorted|]. simpl.
      intros a b Ha Hb Hab.
      destruct (Hkeys a Ha) as [<- _]. destruct (Hkeys b Hb) as [<- _].
      exact Hab.
    + simpl. intros a b Ha Hb [Hle Hne].
      apply in_map_iff in Ha, Hb.
      destruct Ha as (qa & <- & Hqa). destruct Hb as (qb & <- & Hqb).
      destruct (Hkeys qa Hqa) as [_ Hpa]. destruct (Hkeys qb Hqb) as [_ Hpb].
      destruct (Nat.eq_dec (k (snd qa)) (k (snd qb))) as [E|E]; [|lia].
      apply first_index_inj in E; [contradiction|assumption|assumption].
  - apply first_appearances_sorted.
  - intros x. rewrite first_appearances_In.
    unfold participants, order_by_key. fold (first_index pid). fold k.
    rewrite combine_map_self.
    set (pairs := map (fun p => (k p, p)) (unique label_cmp pid)).
    assert (Hperm : Permutation (map snd (fold_right insert_by_key [] pairs))
                      (unique label_cmp pid)).
    { eapply Permutation_trans; [apply Permutation_map; apply isort_perm|].
      unfold pairs. rewrite map_map. simpl. rewrite map_id.
      apply Permutation_refl. }
    rewrite <- (unique_In label_cmp label_cmp_eq pid x). split.
    + apply Permutation_in. exact Hperm.
    + apply Permutation_in. apply Permutation_sym. exact Hperm.
Qed.

(** X9. The participants the smoothing cell iterates over are the distinct
    identifiers of [pid_test], each listed once, in the order in which they
    first appear in the array. *)
Theorem participants_in_order_of_first_appearance pid :
  participants pid = first_appearances pid /\
  NoDup (participants pid) /\
  (forall p, In p (participants pid) <-> In p pid) /\
  (forall i j p q,
      (i < j)%nat ->
      nth_error (participants pid) i = Some p ->
      nth_error (participants pid) j = Some q ->
      (first_index pid p < first_index pid q)%nat).
Proof.
  pose proof (participants_spec pid) as E.
  pose proof (first_appearances_sorted pid) as Hs.
  split; [exact E|]. rewrite E. clear E. split; [|split].
  - eapply sorted_strict_NoDup. exact Hs.
  - intros p. apply first_appearances_In.
  - induction Hs as [|a l Hs IH Hall]; intros i j p q Hij Hi Hj.
    + destruct i; discriminate.
    + destruct j as [|j]; [lia|]. simpl in Hj.
      destruct i as [|i]; simpl in Hi.
      * injection Hi as <-. rewrite Forall_forall in Hall.
        apply Hall. eapply nth_error_In. exact Hj.
      * eapply IH; [|exact Hi|exact Hj]. lia.
Qed.

(** ** The smoothing cell *)

Lemma bool_index_length {A : Type} (mask : list bool) :
  forall (a r : list A), bool_index mask a = Ok r -> length mask = length a.
Proof.
  induction mask as [|m mask IH]; intros a r H.
  - destruct a; [reflexivity|discriminate].
  - destruct a as [|x a]; simpl in H; [discriminate|].
    destruct (bool_index mask a) as [r'|] eqn:E; simpl in H; [|discriminate].
    simpl. f_equal. eapply IH. exact E.
Qed.

Lemma bool_index_mismatch {A : Type} (mask : list bool) :
  forall (a : list A),
    length mask <> length a -> bool_index mask a = Raise IndexError.
Proof.
  induction mask as [|m mask IH]; intros a H.
  - destruct a; [simpl in H; congruence|reflexivity].
  - destruct a as [|x a]; [reflexivity|]. simpl.
    rewrite IH; [reflexivity|]. simpl in H. congruence.
Qed.

Lemma bool_index_total {A : Type} (mask : list bool) :
  forall (a : list A),
    length mask = length a ->
    exists r, bool_index mask a = Ok r /\
              length r = length (filter (fun b => b) mask).
Proof.
  induction mask as [|m mask IH]; intros a H.
  - destruct a; [|discriminate]. exists []. auto.
  - destruct a as [|x a]; [discriminate|]. simpl in H.
    destruct (IH a) as (r & Hr & Hlen); [congruence|].
    simpl. rewrite Hr. simpl. destruct m; eexists; split; try reflexivity.
    + simpl. rewrite Hlen. reflexivity.
    + exact Hlen.
Qed.

Lemma pid_mask_length pid p : length (pid_mask pid p) = length pid.
Proof. unfold pid_mask. apply length_map. Qed.

Lemma pid_mask_count pid p :
  length (filter (fun b => b) (pid_mask pid p)) = count_pid p pid.
Proof.
  unfold pid_mask, count_pid. induction pid as [|x pid IH]; simpl;
    [reflexivity|].
  destruct (String.eqb p x); simpl; rewrite IH; reflexivity.
Qed.

Lemma rolling_mode_length t y w out :
  rolling_mode t y w = Ok out -> length out = length y.
Proof.
  intros H. apply rolling_mode_inv in H. destruct H as (Hlen & _ & F).
  apply Forall2_length in F. rewrite rolling_windows_length in F. lia.
Qed.

Lemma indicator_sum (ps : list label) x :
  NoDup ps -> In x ps ->
  list_sum (map (fun p => if String.eqb p x then 1 else 0)%nat ps) = 1%nat.
Proof.
  induction 1 as [|p ps Hp Hnd IH]; intros Hin; [destruct Hin|].
  simpl. destruct Hin as [->|Hin].
  - rewrite String.eqb_refl.
    assert (E : list_sum (map (fun p => if String.eqb p x then 1 else 0)%nat
                            ps) = O).
    { clear IH Hnd. induction ps as [|q ps IH]; [reflexivity|]. simpl.
      destruct (String.eqb q x) eqn:Eq.
      - apply String.eqb_eq in Eq. subst. elim Hp. left. reflexivity.
      - apply IH. intros H. apply Hp. right. exact H. }
    rewrite E. reflexivity.
  - destruct (String.eqb p x) eqn:Eq.
    + apply String.eqb_eq in Eq. subst. contradiction.
    + rewrite IH by exact Hin. reflexivity.
Qed.

Lemma count_pid_sum (ps l : list label) :
  NoDup ps -> (forall x, In x l -> In x ps) ->
  list_sum (map (fun p => count_pid p l) ps) = length l.
Proof.
  intros Hnd. induction l as [|x l IH]; intros Hin.
  - unfold count_pid. simpl. clear Hnd Hin.
    induction ps as [|q ps IHps]; [reflexivity|]. simpl. exact IHps.
  - assert (E : map (fun p => count_pid p (x :: l)) ps
                = map (fun p => (if String.eqb p x then 1 else 0)
                                + count_pid p l)%nat ps).
    { apply map_ext. intros p. unfold count_pid. simpl.
      destruct (String.eqb p x); reflexivity. }
    rewrite E.
    assert (Hsplit : forall (f g : label -> nat) qs,
               list_sum (map (fun p => f p + g p)%nat qs)
               = (list_sum (map f qs) + list_sum (map g qs))%nat).
    { intros f g qs. induction qs as [|q qs IHq]; [reflexivity|].
      simpl. rewrite IHq. lia. }
    rewrite Hsplit, indicator_sum, IH; auto.
    + intros z Hz. apply Hin. right. exact Hz.
    + apply Hin. left. reflexivity.
Qed.

Lemma participants_nonempty x l : participants (x :: l) <> [].
Proof. rewrite participants_spec. discriminate. Qed.

Lemma smooth_by_participant_inputs T_test Y_test_pred pid_test out :
  smooth_by_participant T_test Y_test_pred pid_test = Ok out ->
  pid_test <> [] /\
  length T_test = length pid_test /\
  length Y_test_pred = length pid_test.
Proof.
  intros Hrun.
  destruct (smooth_by_participant_calls _ _ _ _ Hrun) as (parts & _ & F).
  assert (Hne : pid_test <> []).
  { intros ->. unfold smooth_by_participant in Hrun. simpl in Hrun.
    discriminate. }
  split; [exact Hne|].
  destruct pid_test as [|x l]; [congruence|].
  pose proof (participants_nonempty x l) as Hp.
  destruct (participants (x :: l)) as [|p ps]; [congruence|].
  inversion F as [|? part ? parts' (t0 & y0 & Ht0 & Hy0 & _) _]; subst.
  apply bool_index_length in Ht0, Hy0. rewrite pid_mask_length in Ht0, Hy0.
  split; congruence.
Qed.

(** X10. When the smoothing cell returns, the three arrays of the test set
    have one length, there is at least one window, and the smoothed
    sequence has that length too: no window is dropped or duplicated,
    however the windows of the participants are interleaved. *)
Theorem smooth_by_participant_length T_test Y_test_pred pid_test out :
  smooth_by_participant T_test Y_test_pred pid_test = Ok out ->
  pid_test <> [] /\
  length T_test = length pid_test /\
  length Y_test_pred = length pid_test /\
  length out = length pid_test.
Proof.
  intros Hrun.
  destruct (smooth_by_participant_inputs _ _ _ _ Hrun) as (Hne & HT & HY).
  destruct (smooth_by_participant_calls _ _ _ _ Hrun) as (parts & -> & F).
  split; [exact Hne|]. split; [exact HT|]. split; [exact HY|].
  rewrite length_concat.
  assert (Elen : map (@length label) parts
                 = map (fun p => count_pid p pid_test)
                       (participants pid_test)).
  { clear Hrun. induction F as [|p part ps parts Hp _ IH];
      [reflexivity|].
    simpl. rewrite IH. f_equal.
    destruct Hp as (t & y & Ht & Hy & Hroll).
    apply rolling_mode_length in Hroll. rewrite Hroll.
    destruct (bool_index_total (pid_mask pid_test p) Y_test_pred)
      as (y' & Hy' & Hcount).
    { apply bool_index_length in Hy. exact Hy. }
    assert (y' = y) by congruence. subst y'.
    rewrite Hcount. apply pid_mask_count. }
  rewrite Elen. apply count_pid_sum.
  - rewrite participants_spec. eapply sorted_strict_NoDup.
    apply first_appearances_sorted.
  - intros x Hx. rewrite participants_spec. apply first_appearances_In.
    exact Hx.
Qed.

Lemma smooth_by_participant_length_witness :
  ["P2"; "P1"; "P2"; "P1"]%string <> [] /\
  length (map seconds [0; 0; 30; 30]) = 4%nat /\
  length ["sit"; "walk"; "sit"; "run"]%string = 4%nat /\
  length ["sit"; "sit"; "walk"; "run"]%string = 4%nat.
Proof.
  apply (smooth_by_participant_length (map seconds [0; 0; 30; 30])
           ["sit"; "walk"; "sit"; "run"]%string
           ["P2"; "P1"; "P2"; "P1"]%string
           ["sit"; "sit"; "walk"; "run"]%string).
  vm_compute. reflexivity.
Defined.

(** X11. The smoothing cell raises a [ValueError] on an empty test set, and
    an [IndexError] when the test set is not empty and the timestamps or
    the predictions are not as long as the participant identifiers. *)
Theorem smooth_by_participant_errors T_test Y_test_pred pid_test :
  smooth_by_participant T_test Y_test_pred [] = Raise ValueError /\
  (pid_test <> [] ->
   length T_test <> length pid_test \/
   length Y_test_pred <> length pid_test ->
   smooth_by_participant T_test Y_test_pred pid_test = Raise IndexError).
Proof.
  split; [reflexivity|].
  intros Hne Hlen. unfold smooth_by_participant.
  destruct pid_test as [|x l]; [congruence|].
  pose proof (participants_nonempty x l) as Hp.
  destruct (participants (x :: l)) as [|p ps]; [congruence|].
  cbn [for_each].
  destruct (Nat.eq_dec (length T_test) (length (x :: l))) as [HT|HT].
  - destruct (bool_index_total (pid_mask (x :: l) p) T_test) as (t & Ht & _).
    { rewrite pid_mask_length. congruence. }
    rewrite Ht. cbn [bind].
    rewrite (bool_index_mismatch (pid_mask (x :: l) p) Y_test_pred).
    + reflexivity.
    + rewrite pid_mask_length. destruct Hlen; congruence.
  - rewrite (bool_index_mismatch (pid_mask (x :: l) p) T_test).
    + reflexivity.
    + rewrite pid_mask_length. congruence.
Qed.

Lemma smooth_by_participant_errors_witness :
  smooth_by_participant (map seconds [0; 30]) ["sit"; "sit"]%string []
  = Raise ValueError /\
  smooth_by_participant (map seconds [0; 30]) ["sit"; "sit"]%string
    ["P1"; "P1"; "P1"]%string
  = Raise IndexError.
Proof.
  destruct (smooth_by_participant_errors (map seconds [0; 30])
              ["sit"; "sit"]%string ["P1"; "P1"; "P1"]%string) as [H1 H2].
  split; [exact H1|]. apply H2.
  - discriminate.
  - left. simpl. lia.
Defined.

Lemma for_each_total {A B : Type} (f : A -> result B) l :
  (forall x, In x l -> exists y, f x = Ok y) ->
  exists r, for_each f l = Ok r /\ length r = length l.
Proof.
  induction l as [|x l IH]; intros H.
  - exists []. auto.
  - destruct (H x) as [y Hy]; [left; reflexivity|].
    destruct IH as (r & Hr & Hlen).
    { intros z Hz. apply H. right. exact Hz. }
    exists (y :: r). simpl. rewrite Hy, Hr. simpl. auto.
Qed.

(** X12. The smoothing cell returns a sequence exactly when the test set is
    not empty, its three arrays have one length, and the timestamps of each
    participant, taken in the order of the arrays, are in monotonic
    order. *)
Theorem smooth_by_participant_succeeds_iff T_test Y_test_pred pid_test :
  (exists out, smooth_by_participant T_test Y_test_pred pid_test = Ok out)
  <->
  (pid_test <> [] /\
   length T_test = length pid_test /\
   length Y_test_pred = length pid_test /\
   forall p, In p pid_test ->
     exists t,
       bool_index (pid_mask pid_test p) T_test = Ok t /\
       is_monotonic_increasing t || is_monotonic_decreasing t = true).
Proof.
  split.
  - intros (out & Hrun).
    destruct (smooth_by_participant_inputs _ _ _ _ Hrun) as (Hne & HT & HY).
    destruct (smooth_by_participant_calls _ _ _ _ Hrun) as (parts & _ & F).
    split; [exact Hne|]. split; [exact HT|]. split; [exact HY|].
    intros p Hp.
    assert (Hp' : In p (participants pid_test)).
    { rewrite participants_spec. apply first_appearances_In. exact Hp. }
    destruct (In_nth_error _ _ Hp') as [i Hi].
    destruct (Forall2_nth_error_l _ _ _ F i p Hi)
      as (part & _ & t & y & Ht & _ & Hroll).
    exists t. split; [exact Ht|].
    apply rolling_mode_inv in Hroll. tauto.
  - intros (Hne & HT & HY & Hmono). unfold smooth_by_participant.
    set (f := fun p =>
                t <- bool_index (pid_mask pid_test p) T_test ;;
                y <- bool_index (pid_mask pid_test p) Y_test_pred ;;
                rolling_mode t y default_window).
    destruct (for_each_total f (participants pid_test)) as (parts & Hp & Hl).
    { intros p Hp. rewrite participants_spec in Hp.
      apply (proj1 (first_appearances_In _ _)) in Hp.
      destruct (Hmono p Hp) as (t & Ht & Hm).
      destruct (bool_index_total (pid_mask pid_test p) T_test)
        as (t' & Ht' & Hct).
      { rewrite pid_mask_length. congruence. }
      assert (t' = t) by congruence. subst t'.
      destruct (bool_index_total (pid_mask pid_test p) Y_test_pred)
        as (y & Hy & Hcy).
      { rewrite pid_mask_length. congruence. }
      destruct (rolling_mode_total t y default_window) as (part & Hr & _);
        [congruence|exact Hm|].
      exists part. unfold f. rewrite Ht, Hy. simpl. exact Hr. }
    rewrite Hp. simpl.
    destruct parts as [|part parts].
    + destruct pid_test as [|x l]; [congruence|].
      pose proof (participants_nonempty x l).
      destruct (participants (x :: l)); [congruence|discriminate].
    + eexists. reflexivity.
Qed.

(** ** Contiguous participants *)

Lemma bool_index_app {A : Type} (m1 : list bool) :
  forall (a1 r1 : list A) m2 a2 r2,
    bool_index m1 a1 = Ok r1 -> bool_index m2 a2 = Ok r2 ->
    bool_index (m1 ++ m2) (a1 ++ a2) = Ok (r1 ++ r2).
Proof.
  induction m1 as [|m m1 IH]; intros a1 r1 m2 a2 r2 H1 H2.
  - destruct a1; [|discriminate]. injection H1 as <-. exact H2.
  - destruct a1 as [|x a1]; simpl in H1; [discriminate|].
    destruct (bool_index m1 a1) as [r|] eqn:E; simpl in H1; [|discriminate].
    injection H1 as <-. simpl. rewrite (IH a1 r m2 a2 r2 E H2). simpl.
    destruct m; reflexivity.
Qed.

Lemma bool_index_repeat {A : Type} (b : bool) (a : list A) :
  bool_index (repeat b (length a)) a = Ok (if b then a else []).
Proof.
  induction a as [|x a IH]; simpl; [destruct b; reflexivity|].
  rewrite IH. destruct b; reflexivity.
Qed.

Lemma bool_index_blocks {A : Type} (arr : block -> list A) bs p :
  Forall (fun b => length (arr b) = length (block_labels b)) bs ->
  bool_index (pid_mask (blocks_pid bs) p) (concat (map arr bs))
  = Ok (concat (map (fun b => if String.eqb p (fst b) then arr b else [])
                    bs)).
Proof.
  induction 1 as [|b bs Hb _ IH]; [reflexivity|].
  unfold blocks_pid, pid_mask in *. simpl. rewrite map_app.
  apply bool_index_app; [|exact IH].
  rewrite map_repeat, <- Hb. apply bool_index_repeat.
Qed.

Lemma select_none {A : Type} (arr : block -> list A) bs p :
  ~ In p (map fst bs) ->
  concat (map (fun b => if String.eqb p (fst b) then arr b else []) bs) = [].
Proof.
  induction bs as [|b bs IH]; intros H; [reflexivity|]. simpl.
  destruct (String.eqb p (fst b)) eqn:E.
  - apply String.eqb_eq in E. elim H. left. symmetry. exact E.
  - apply IH. intros Hin. apply H. right. exact Hin.
Qed.

Lemma select_block {A : Type} (arr : block -> list A) bs b :
  NoDup (map fst bs) -> In b bs ->
  concat (map (fun b' => if String.eqb (fst b) (fst b') then arr b' else [])
              bs) = arr b.
Proof.
  induction bs as [|b' bs IH]; intros Hnd Hin; [destruct Hin|].
  simpl in Hnd. inversion Hnd as [|? ? Hnotin Hnd']; subst. simpl.
  destruct Hin as [->|Hin].
  - rewrite String.eqb_refl, select_none by exact Hnotin.
    apply app_nil_r.
  - destruct (String.eqb (fst b) (fst b')) eqn:E.
    + apply String.eqb_eq in E. elim Hnotin. rewrite <- E.
      apply in_map. exact Hin.
    + apply IH; assumption.
Qed.

Lemma filter_all {A : Type} (f : A -> bool) l :
  (forall x, In x l -> f x = true) -> filter f l = l.
Proof.
  induction l as [|x l IH]; intros H; simpl; [reflexivity|].
  rewrite (H x) by (left; reflexivity). f_equal.
  apply IH. intros z Hz. apply H. right. exact Hz.
Qed.

Lemma first_appearances_repeat p n rest :
  ~ In p rest ->
  first_appearances (repeat p (S n) ++ rest) = p :: first_appearances rest.
Proof.
  intros Hp.
  assert (Hf : filter (fun y => negb (String.eqb p y)) (first_appearances rest)
               = first_appearances rest).
  { apply filter_all. intros x Hx.
    apply (proj1 (first_appearances_In _ _)) in Hx.
    apply negb_true_iff. apply String.eqb_neq. intros E. subst x.
    contradiction. }
  induction n as [|n IH].
  - simpl. rewrite Hf. reflexivity.
  - change (first_appearances (repeat p (S (S n)) ++ rest))
      with (p :: filter (fun y => negb (String.eqb p y))
                   (first_appearances (repeat p (S n) ++ rest))).
    rewrite IH. cbn [filter]. rewrite String.eqb_refl. cbn [negb].
    rewrite Hf. reflexivity.
Qed.

Lemma blocks_pid_In bs p : In p (blocks_pid bs) -> In p (map fst bs).
Proof.
  unfold blocks_pid. intros H. apply in_concat in H.
  destruct H as (l & Hl & Hp). apply in_map_iff in Hl.
  destruct Hl as (b & <- & Hb). apply repeat_spec in Hp. subst p.
  apply in_map. exact Hb.
Qed.

Lemma first_appearances_blocks bs :
  NoDup (map fst bs) ->
  Forall (fun b => block_labels b <> []) bs ->
  first_appearances (blocks_pid bs) = map fst bs.
Proof.
  intros Hnd Hall. induction Hall as [|b bs Hb _ IH]; [reflexivity|].
  simpl in Hnd. inversion Hnd as [|? ? Hnotin Hnd']; subst.
  unfold blocks_pid in *. simpl.
  destruct (block_labels b) as [|y ys] eqn:E; [congruence|].
  change (length (y :: ys)) with (S (length ys)).
  rewrite first_appearances_repeat.
  - rewrite IH by exact Hnd'. reflexivity.
  - intros H. apply Hnotin. apply blocks_pid_In. exact H.
Qed.

Lemma for_each_map {A B C : Type} (f : B -> result C) (h : A -> B) l :
  for_each f (map h l) = for_each (fun x => f (h x)) l.
Proof.
  induction l as [|x l IH]; simpl; [reflexivity|]. rewrite IH. reflexivity.
Qed.

Lemma for_each_ext_in {A B : Type} (f g : A -> result B) l :
  (forall x, In x l -> f x = g x) -> for_each f l = for_each g l.
Proof.
  induction l as [|x l IH]; intros H; simpl; [reflexivity|].
  rewrite (H x) by (left; reflexivity). rewrite IH; [reflexivity|].
  intros z Hz. apply H. right. exact Hz.
Qed.

(** X13. When the windows of each participant are contiguous in the arrays
    of the test set, as they are when the arrays are concatenated file by
    file, the smoothing cell smooths each participant's block on its own and
    returns the smoothed blocks in the order of the arrays: the result stays
    aligned with the input. *)
Theorem smooth_by_participant_contiguous (bs : list block) :
  NoDup (map fst bs) ->
  Forall (fun b => block_labels b <> [] /\
                   length (block_times b) = length (block_labels b)) bs ->
  smooth_by_participant (blocks_T bs) (blocks_Y bs) (blocks_pid bs)
  = (parts <-
       for_each
         (fun b => rolling_mode (block_times b) (block_labels b)
                     default_window) bs ;;
     np_concatenate parts).
Proof.
  intros Hnd Hall. unfold smooth_by_participant.
  rewrite participants_spec, first_appearances_blocks;
    [|exact Hnd|eapply Forall_impl; [|exact Hall]; simpl; tauto].
  rewrite for_each_map. f_equal.
  apply for_each_ext_in. intros b Hb.
  unfold blocks_T, blocks_Y.
  rewrite (bool_index_blocks block_times) by
    (eapply Forall_impl; [|exact Hall]; simpl; tauto).
  rewrite (bool_index_blocks block_labels) by
    (apply Forall_forall; reflexivity).
  simpl. rewrite !select_block by assumption. reflexivity.
Qed.

Lemma smooth_by_participant_contiguous_witness :
  smooth_by_participant (map seconds [0; 30; 60; 0; 30])
    ["sit"; "walk"; "sit"; "run"; "run"]%string
    ["P102"; "P102"; "P102"; "P101"; "P101"]%string
  = (parts <-
       for_each
         (fun b => rolling_mode (block_times b) (block_labels b)
                     default_window)
         [("P102"%string,
           (map seconds [0; 30; 60], ["sit"; "walk"; "sit"]%string));
          ("P101"%string, (map seconds [0; 30], ["run"; "run"]%string))] ;;
     np_concatenate parts).
Proof.
  apply (smooth_by_participant_contiguous
           [("P102"%string,
             (map seconds [0; 30; 60], ["sit"; "walk"; "sit"]%string));
            ("P101"%string, (map seconds [0; 30], ["run"; "run"]%string))]).
  - repeat constructor; simpl; intuition discriminate.
  - repeat constructor; simpl; discriminate.
Defined.

(** ** The train/test split *)

Lemma bool_index_partition {A : Type} (mask : list bool) :
  forall (a : list A),
    length mask = length a ->
    exists r1 r2,
      bool_index (map negb mask) a = Ok r1 /\
      bool_index mask a = Ok r2 /\
      Permutation (r1 ++ r2) a.
Proof.
  induction mask as [|m mask IH]; intros a H.
  - destruct a; [|discriminate]. exists [], []. repeat split. constructor.
  - destruct a as [|x a]; [discriminate|]. simpl in H.
    destruct (IH a) as (r1 & r2 & H1 & H2 & Hp); [congruence|].
    simpl. rewrite H1, H2. simpl. destruct m; simpl.
    + exists r1, (x :: r2). repeat split.
      apply Permutation_sym. apply Permutation_cons_app.
      apply Permutation_sym. exact Hp.
    + exists (x :: r1), r2. repeat split. simpl. apply perm_skip. exact Hp.
Qed.

Lemma mask_test_length pid : length (mask_test pid) = length pid.
Proof. unfold mask_test, np_isin. apply length_map. Qed.

Lemma mask_train_length pid : length (mask_train pid) = length pid.
Proof. unfold mask_train. rewrite length_map. apply mask_test_length. Qed.

Lemma frame_index_eq {A : Type} (mask : list bool) :
  forall (a : list A),
    length mask = length a -> frame_index mask a = bool_index mask a.
Proof.
  intros a H. unfold frame_index.
  rewrite H, Nat.eqb_refl. cbn [negb]. symmetry.
  revert a H. induction mask as [|m mask IH]; intros a H.
  - destruct a; [reflexivity|discriminate].
  - destruct a as [|x a]; [discriminate|].
    cbn [bool_index]. rewrite (IH a) by (simpl in H; congruence).
    cbn [bind combine filter fst map]. destruct m; reflexivity.
Qed.

Lemma mask_index_eq {A : Type} c (mask : list bool) (a : list A) :
  length mask = length a -> mask_index c mask a = bool_index mask a.
Proof.
  intros H. destruct c; [apply frame_index_eq; exact H|reflexivity].
Qed.

Lemma mask_index_length {A : Type} c (mask : list bool) (a r : list A) :
  mask_index c mask a = Ok r -> length mask = length a.
Proof.
  destruct c; cbn [mask_index].
  - unfold frame_index.
    destruct (length mask =? length a)%nat eqn:E; [|discriminate].
    intros _. apply Nat.eqb_eq. exact E.
  - apply bool_index_length.
Qed.

Lemma frame_index_mismatch {A : Type} (mask : list bool) (a : list A) :
  length mask <> length a -> frame_index mask a = Raise ValueError.
Proof.
  intros H. unfold frame_index.
  apply Nat.eqb_neq in H. rewrite H. reflexivity.
Qed.

(** X14. The split of one object succeeds when the object is as long as
    the participant identifiers, and the training part and the test part
    then hold together every row of the object exactly once.  On an object
    of another length it raises: a [ValueError] for the [DataFrame]
    [X_feats], an [IndexError] for the arrays [Y], [T] and [pid]. *)
Theorem train_test_split_partition {A : Type} (c : container)
    (pid : list label) (a : list A) :
  (length a = length pid ->
   exists a_train a_test,
     train_test_split c pid a = Ok (a_train, a_test) /\
     Permutation (a_train ++ a_test) a /\
     (length a_train + length a_test = length a)%nat) /\
  (length a <> length pid ->
   train_test_split DataFrame pid a = Raise ValueError /\
   train_test_split ndarray pid a = Raise IndexError).
Proof.
  split.
  - intros Hlen.
    destruct (bool_index_partition (mask_test pid) a)
      as (r1 & r2 & H1 & H2 & Hp).
    { rewrite mask_test_length. congruence. }
    exists r1, r2. unfold train_test_split.
    rewrite !mask_index_eq
      by (rewrite ?mask_train_length, ?mask_test_length; congruence).
    unfold mask_train.
    rewrite H1, H2. simpl. split; [reflexivity|]. split; [exact Hp|].
    apply Permutation_length in Hp. rewrite length_app in Hp. exact Hp.
  - intros Hlen. unfold train_test_split. cbn [mask_index]. split.
    + rewrite frame_index_mismatch; [reflexivity|].
      rewrite mask_train_length. congruence.
    + rewrite bool_index_mismatch; [reflexivity|].
      rewrite mask_train_length. congruence.
Qed.

Lemma train_test_split_partition_witness :
  exists a_train a_test,
    train_test_split DataFrame ["P099"; "P101"; "P100"; "P151"]%string
      [10; 20; 30; 40] = Ok (a_train, a_test) /\
    Permutation (a_train ++ a_test) [10; 20; 30; 40] /\
    (length a_train + length a_test = 4)%nat.
Proof.
  apply (train_test_split_partition DataFrame
           ["P099"; "P101"; "P100"; "P151"]%string [10; 20; 30; 40]).
  reflexivity.
Defined.

Lemma np_isin_nth a values i p b :
  nth_error a i = Some p ->
  nth_error (np_isin a values) i = Some b ->
  (b = true <-> In p values).
Proof.
  intros Hi Hm. unfold np_isin in Hm. rewrite nth_error_map in Hm.
  unfold label in *. rewrite Hi in Hm. cbn [option_map] in Hm.
  injection Hm as <-. rewrite existsb_exists. split.
  - intros (q & Hq & E). apply String.eqb_eq in E. subst q. exact Hq.
  - intros H. exists p. split; [exact H|apply String.eqb_refl].
Qed.

(** X15. No participant is on both sides of the split: the identifiers of
    the test part are all among [test_ids], those of the training part are
    never, and every identifier of the data set lands on one side. *)
Theorem train_test_split_no_shared_participant (pid : list label) :
  exists pid_train pid_test,
    train_test_split ndarray pid pid = Ok (pid_train, pid_test) /\
    (forall p, In p pid_test -> In p test_ids) /\
    (forall p, In p pid_train -> ~ In p test_ids) /\
    (forall p, In p pid_train -> ~ In p pid_test) /\
    (forall p, In p pid -> In p pid_train \/ In p pid_test).
Proof.
  destruct (bool_index_partition (mask_test pid) pid)
    as (r1 & r2 & H1 & H2 & Hp).
  { apply mask_test_length. }
  assert (Htest : forall p, In p r2 -> In p test_ids).
  { intros p Hin. destruct (bool_index_In _ _ _ p H2 Hin) as (i & Hi & Hm).
    apply (np_isin_nth pid test_ids i p true Hi Hm). reflexivity. }
  assert (Htrain : forall p, In p r1 -> ~ In p test_ids).
  { intros p Hin Hids.
    destruct (bool_index_In _ _ _ p H1 Hin) as (i & Hi & Hm).
    rewrite nth_error_map in Hm.
    destruct (nth_error (mask_test pid) i) as [b|] eqn:Eb;
      cbn [option_map] in Hm; [|discriminate].
    injection Hm as Hm. apply negb_true_iff in Hm. subst b.
    pose proof (np_isin_nth pid test_ids i p false Hi Eb) as Hiff.
    apply Hiff in Hids. discriminate. }
  exists r1, r2. unfold train_test_split, mask_index, mask_train.
  rewrite H1, H2. simpl. split; [reflexivity|].
  split; [exact Htest|]. split; [exact Htrain|]. split.
  - intros p H Ht. apply (Htrain p H). apply Htest. exact Ht.
  - intros p Hin. apply (Permutation_in _ (Permutation_sym Hp)) in Hin.
    apply in_app_or in Hin. exact Hin.
Qed.

Lemma bool_index_combine {A B : Type} (mask : list bool) :
  forall (a ra : list A) (b rb : list B),
    bool_index mask a = Ok ra -> bool_index mask b = Ok rb ->
    bool_index mask (combine a b) = Ok (combine ra rb).
Proof.
  induction mask as [|m mask IH]; intros a ra b rb Ha Hb.
  - destruct a; [|discriminate]. destruct b; [|discriminate].
    injection Ha as <-. injection Hb as <-. reflexivity.
  - destruct a as [|x a]; simpl in Ha; [discriminate|].
    destruct b as [|y b]; simpl in Hb; [discriminate|].
    destruct (bool_index mask a) as [ra'|] eqn:Ea; simpl in Ha;
      [|discriminate].
    destruct (bool_index mask b) as [rb'|] eqn:Eb; simpl in Hb;
      [|discriminate].
    injection Ha as <-. injection Hb as <-.
    simpl. rewrite (IH a ra' b rb' Ea Eb). simpl.
    destruct m; reflexivity.
Qed.

(** X16. The split keeps the arrays aligned: the rows of the training
    parts, and of the test parts, of two arrays taken pairwise are the
    selected rows of the pairs, so row [i] of each part still describes one
    and the same window. *)
Theorem train_test_split_keeps_rows_aligned {A B : Type}
    (ca cb cab : container) (pid : list label)
    (a a_train a_test : list A) (b b_train b_test : list B) :
  train_test_split ca pid a = Ok (a_train, a_test) ->
  train_test_split cb pid b = Ok (b_train, b_test) ->
  train_test_split cab pid (combine a b)
  = Ok (combine a_train b_train, combine a_test b_test) /\
  length a_train = length b_train /\
  length a_test = length b_test.
Proof.
  unfold train_test_split. intros Ha Hb.
  destruct (mask_index ca (mask_train pid) a) as [ra1|] eqn:Ea1;
    cbn [bind] in Ha; [|discriminate].
  destruct (mask_index ca (mask_test pid) a) as [ra2|] eqn:Ea2;
    cbn [bind] in Ha; [|discriminate].
  destruct (mask_index cb (mask_train pid) b) as [rb1|] eqn:Eb1;
    cbn [bind] in Hb; [|discriminate].
  destruct (mask_index cb (mask_test pid) b) as [rb2|] eqn:Eb2;
    cbn [bind] in Hb; [|discriminate].
  injection Ha as <- <-. injection Hb as <- <-.
  pose proof (mask_index_length _ _ _ _ Ea1) as La1.
  pose proof (mask_index_length _ _ _ _ Ea2) as La2.
  pose proof (mask_index_length _ _ _ _ Eb1) as Lb1.
  pose proof (mask_index_length _ _ _ _ Eb2) as Lb2.
  rewrite mask_index_eq in Ea1 by assumption.
  rewrite mask_index_eq in Ea2 by assumption.
  rewrite mask_index_eq in Eb1 by assumption.
  rewrite mask_index_eq in Eb2 by assumption.
  rewrite mask_train_length in La1, Lb1.
  rewrite !mask_index_eq
    by (rewrite length_combine, ?mask_train_length, ?mask_test_length; lia).
  rewrite (bool_index_combine _ _ _ _ _ Ea1 Eb1).
  rewrite (bool_index_combine _ _ _ _ _ Ea2 Eb2). simpl.
  split; [reflexivity|].
  destruct (bool_index_total (mask_train pid) a) as (x1 & Hx1 & L1);
    [eapply bool_index_length; exact Ea1|].
  destruct (bool_index_total (mask_train pid) b) as (y1 & Hy1 & M1);
    [eapply bool_index_length; exact Eb1|].
  destruct (bool_index_total (mask_test pid) a) as (x2 & Hx2 & L2);
    [eapply bool_index_length; exact Ea2|].
  destruct (bool_index_total (mask_test pid) b) as (y2 & Hy2 & M2);
    [eapply bool_index_length; exact Eb2|].
  split; congruence.
Qed.

Lemma train_test_split_keeps_rows_aligned_witness :
  train_test_split DataFrame ["P099"; "P101"; "P100"]%string
    (combine [10; 20; 30] ["sit"; "walk"; "run"]%string)
  = Ok (combine [10; 30] ["sit"; "run"]%string,
        combine [20] ["walk"]%string) /\
  length [10; 30] = length ["sit"; "run"]%string /\
  length [20] = length ["walk"]%string.
Proof.
  apply (train_test_split_keeps_rows_aligned DataFrame ndarray DataFrame
           ["P099"; "P101"; "P100"]%string).
  - reflexivity.
  - reflexivity.
Defined.

Lemma mask_index_total {A : Type} c (mask : list bool) (a : list A) :
  length mask = length a -> exists r, mask_index c mask a = Ok r.
Proof.
  intros H. rewrite mask_index_eq by exact H.
  destruct (bool_index_total mask a H) as (r & Hr & _). exists r. exact Hr.
Qed.

(** X21. The split cell as a whole.  When [X_feats] does not have one row
    per participant identifier the cell raises a [ValueError], whatever
    the other arrays; when it has and [Y] or [T] is of another length, an
    [IndexError]; when all three are as long as [pid] the cell succeeds
    and its eight results are the two parts of each of the four objects. *)
Theorem split_cell_outcome {F : Type} (X_feats : list F) (Y : list label)
    (T : list Z) (pid : list label) :
  (length X_feats <> length pid ->
   split_cell X_feats Y T pid = Raise ValueError) /\
  (length X_feats = length pid ->
   length Y <> length pid \/ length T <> length pid ->
   split_cell X_feats Y T pid = Raise IndexError) /\
  (length X_feats = length pid ->
   length Y = length pid ->
   length T = length pid ->
   exists X_train X_test Y_train Y_test T_train T_test pid_train pid_test,
     train_test_split DataFrame pid X_feats = Ok (X_train, X_test) /\
     train_test_split ndarray pid Y = Ok (Y_train, Y_test) /\
     train_test_split ndarray pid T = Ok (T_train, T_test) /\
     train_test_split ndarray pid pid = Ok (pid_train, pid_test) /\
     split_cell X_feats Y T pid
     = Ok ((X_train, Y_train, T_train, pid_train),
           (X_test, Y_test, T_test, pid_test))).
Proof.
  split; [|split].
  - intros HX. unfold split_cell. cbn [mask_index].
    rewrite frame_index_mismatch; [reflexivity|].
    rewrite mask_train_length. congruence.
  - intros HX Hbad. unfold split_cell.
    destruct (mask_index_total DataFrame (mask_train pid) X_feats)
      as (x1 & ->); [rewrite mask_train_length; congruence|].
    cbn [bind mask_index].
    destruct (Nat.eq_dec (length Y) (length pid)) as [HY|HY].
    + destruct (bool_index_total (mask_train pid) Y) as (y1 & -> & _);
        [rewrite mask_train_length; congruence|].
      cbn [bind].
      rewrite (bool_index_mismatch (mask_train pid) T); [reflexivity|].
      rewrite mask_train_length. destruct Hbad; congruence.
    + rewrite (bool_index_mismatch (mask_train pid) Y); [reflexivity|].
      rewrite mask_train_length. congruence.
  - intros HX HY HT. unfold split_cell, train_test_split.
    destruct (mask_index_total DataFrame (mask_train pid) X_feats)
      as (x1 & ->); [rewrite mask_train_length; congruence|].
    destruct (mask_index_total DataFrame (mask_test pid) X_feats)
      as (x2 & ->); [rewrite mask_test_length; congruence|].
    destruct (mask_index_total ndarray (mask_train pid) Y)
      as (y1 & ->); [rewrite mask_train_length; congruence|].
    destruct (mask_index_total ndarray (mask_test pid) Y)
      as (y2 & ->); [rewrite mask_test_length; congruence|].
    destruct (mask_index_total ndarray (mask_train pid) T)
      as (t1 & ->); [rewrite mask_train_length; congruence|].
    destruct (mask_index_total ndarray (mask_test pid) T)
      as (t2 & ->); [rewrite mask_test_length; congruence|].
    destruct (mask_index_total ndarray (mask_train pid) pid)
      as (p1 & ->); [apply mask_train_length|].
    destruct (mask_index_total ndarray (mask_test pid) pid)
      as (p2 & ->); [apply mask_test_length|].
    cbn [bind].
    exists x1, x2, y1, y2, t1, t2, p1, p2. repeat split.
Qed.

Lemma split_cell_outcome_witness :
  split_cell [1; 2; 3] ["sit"; "walk"]%string [0; 30; 60]
    ["P099"; "P101"; "P100"]%string
  = Raise IndexError.
Proof.
  apply (split_cell_outcome [1; 2; 3] ["sit"; "walk"]%string [0; 30; 60]
           ["P099"; "P101"; "P100"]%string).
  - reflexivity.
  - left. simpl. lia.
Defined.

(** ** Participant identifiers from file names *)

Lemma has_char_app f a b :
  has_char f (a ++ b)%string = has_char f a || has_char f b.
Proof.
  induction a as [|c a IH]; simpl; [reflexivity|].
  rewrite IH. apply orb_assoc.
Qed.

Lemma basename_after_slash dir rest :
  has_char is_slash rest = false ->
  basename (dir ++ String "/" rest)%string = rest.
Proof.
  intros Hrest. induction dir as [|c dir IH]; simpl.
  - rewrite Hrest. reflexivity.
  - rewrite has_char_app. simpl. rewrite orb_true_r. exact IH.
Qed.

Lemma basename_no_slash s : has_char is_slash (basename s) = false.
Proof.
  induction s as [|c s IH]; simpl; [reflexivity|].
  destruct (has_char is_slash s) eqn:Es; [exact IH|].
  destruct (is_slash c) eqn:Ec; [exact Es|].
  simpl. rewrite Ec, Es. reflexivity.
Qed.

Lemma basename_plain s : has_char is_slash s = false -> basename s = s.
Proof.
  destruct s as [|c s]; simpl; [reflexivity|].
  intros H. apply orb_false_elim in H. destruct H as [Hc Hs].
  rewrite Hs, Hc. reflexivity.
Qed.

Lemma before_dot_prefix name rest :
  has_char is_dot name = false ->
  before_dot (name ++ String "." rest)%string = name.
Proof.
  induction name as [|c name IH]; simpl; intros H; [reflexivity|].
  apply orb_false_elim in H. destruct H as [Hc Hn].
  rewrite Hc, (IH Hn). reflexivity.
Qed.

Lemma before_dot_has_char f s :
  has_char f (before_dot s) = true -> has_char f s = true.
Proof.
  induction s as [|c s IH]; simpl; [discriminate|].
  destruct (is_dot c); simpl; [discriminate|].
  intros H. apply orb_prop in H. apply orb_true_intro.
  destruct H as [H|H]; [left; exact H|right; apply IH; exact H].
Qed.

Lemma before_dot_no_dot s : has_char is_dot (before_dot s) = false.
Proof.
  induction s as [|c s IH]; simpl; [reflexivity|].
  destruct (is_dot c) eqn:Ec; simpl; [reflexivity|].
  rewrite Ec, IH. reflexivity.
Qed.

(** X17. The participant identifier of a data file is the file name
    without its directories and without its extensions: for a name free of
    slashes and dots, followed by a dot and an extension free of slashes,
    it is the name itself, whether or not a directory precedes; and it
    never holds a slash or a dot. *)
Theorem pid_of_file_name dir name ext :
  has_char is_slash name = false ->
  has_char is_dot name = false ->
  has_char is_slash ext = false ->
  pid_of (dir ++ String "/" (name ++ String "." ext))%string = name /\
  pid_of (name ++ String "." ext)%string = name /\
  (forall datafile,
      has_char is_slash (pid_of datafile) = false /\
      has_char is_dot (pid_of datafile) = false).
Proof.
  intros Hname Hdot Hext.
  assert (Hrest : has_char is_slash (name ++ String "." ext)%string = false).
  { rewrite has_char_app. simpl. rewrite Hname, Hext. reflexivity. }
  unfold pid_of. split; [|split].
  - rewrite basename_after_slash by exact Hrest.
    apply before_dot_prefix. exact Hdot.
  - rewrite basename_plain by exact Hrest.
    apply before_dot_prefix. exact Hdot.
  - intros datafile. split; [|apply before_dot_no_dot].
    destruct (has_char is_slash (before_dot (basename datafile))) eqn:E;
      [|reflexivity].
    apply before_dot_has_char in E. rewrite basename_no_slash in E.
    discriminate.
Qed.

Lemma pid_of_file_name_witness :
  pid_of "capture24/P001.csv.gz"%string = "P001"%string.
Proof.
  apply (pid_of_file_name "capture24"%string "P001"%string "csv.gz"%string);
    reflexivity.
Defined.

(** ** Loading all the files *)

Section LoaderFacts.

Context {XW YA : Type}.
Variable windows_of : string -> list XW * list YA * list Z.

Lemma worker_pid datafile :
  snd (worker windows_of datafile)
  = repeat (pid_of datafile)
      (length (fst (fst (fst (worker windows_of datafile))))).
Proof.
  unfold worker. destruct (windows_of datafile) as [[X Y] T]. reflexivity.
Qed.

Lemma np_concatenate_inv {A : Type} (parts : list (list A)) r :
  np_concatenate parts = Ok r -> parts <> [] /\ r = concat parts.
Proof.
  unfold np_concatenate. destruct parts; [discriminate|].
  intros [= <-]. split; [discriminate|reflexivity].
Qed.

(** X18. When [load_all_and_make_windows] returns, every file read having
    at least one window, at least one file was read, only the first [N]
    files were, and the array of participant identifiers is aligned with
    the array of windows: it has their number, and it holds, file after
    file in the order of the files, the identifier of the file once for
    each of its windows. *)
Theorem load_all_pid_aligned datafiles N X Y T pid :
  Forall (fun f => fst (fst (fst (worker windows_of f))) <> [])
         (firstn N datafiles) ->
  load_all_and_make_windows windows_of datafiles N = Ok (X, Y, T, pid) ->
  firstn N datafiles <> [] /\
  X = concat (map (fun f => fst (fst (fst (worker windows_of f))))
                  (firstn N datafiles)) /\
  pid = concat
          (map (fun f =>
                  repeat (pid_of f)
                    (length (fst (fst (fst (worker windows_of f))))))
               (firstn N datafiles)) /\
  length pid = length X.
Proof.
  unfold load_all_and_make_windows. intros _ H.
  set (results := map (worker windows_of) (firstn N datafiles)) in *.
  destruct (np_concatenate (map (fun r => fst (fst (fst r))) results))
    as [X'|] eqn:EX; simpl in H; [|discriminate].
  destruct (np_concatenate (map (fun r => snd (fst (fst r))) results))
    as [Y'|] eqn:EY; simpl in H; [|discriminate].
  destruct (np_concatenate (map (fun r => snd (fst r)) results))
    as [T'|] eqn:ET; simpl in H; [|discriminate].
  destruct (np_concatenate (map (fun r => snd r) results))
    as [pid'|] eqn:EP; simpl in H; [|discriminate].
  injection H as -> -> -> ->.
  apply np_concatenate_inv in EX, EP.
  destruct EX as [Hne EX]. destruct EP as [_ EP].
  unfold results in *. rewrite map_map in EX, EP.
  assert (Hpid : map (fun f => snd (worker windows_of f)) (firstn N datafiles)
                 = map (fun f =>
                          repeat (pid_of f)
                            (length (fst (fst (fst (worker windows_of f))))))
                       (firstn N datafiles)).
  { apply map_ext. intros f. apply worker_pid. }
  rewrite Hpid in EP.
  split.
  { intros E. apply Hne. rewrite E. reflexivity. }
  split; [exact EX|]. split; [exact EP|].
  rewrite EX, EP, !length_concat, !map_map. f_equal.
  apply map_ext. intros f. apply repeat_length.
Qed.

End LoaderFacts.

Lemma load_all_pid_aligned_witness :
  firstn 2 ["d/P001.csv.gz"; "d/P002.csv.gz"; "d/P003.csv.gz"]%string <> []
  /\ length ["P001"; "P001"; "P002"; "P002"]%string = length [1; 2; 1; 2].
Proof.
  destruct (load_all_pid_aligned
              (fun _ : string => ([1; 2], [true; false], [0; 30]))
              ["d/P001.csv.gz"; "d/P002.csv.gz"; "d/P003.csv.gz"]%string
              2%nat [1; 2; 1; 2] [true; false; true; false] [0; 30; 0; 30]
              ["P001"; "P001"; "P002"; "P002"]%string) as (H1 & _ & _ & H4).
  - repeat constructor; discriminate.
  - vm_compute. reflexivity.
  - split; [exact H1|exact H4].
Defined.

(** ** Mapping the annotations to labels *)

Lemma rows_for_unique dict k v :
  NoDup (map fst dict) -> In (k, v) dict -> rows_for dict k = [v].
Proof.
  unfold rows_for. induction dict as [|[k' v'] dict IH]; intros Hnd Hin;
    [destruct Hin|].
  simpl in Hnd. inversion Hnd as [|? ? Hnotin Hnd']; subst. simpl.
  destruct Hin as [E|Hin].
  - injection E as -> ->. rewrite String.eqb_refl. simpl. f_equal.
    assert (Hnone : filter (fun r => String.eqb (fst r) k) dict = []).
    { apply filter_none. intros [k2 v2] H2. simpl.
      apply String.eqb_neq. intros ->. apply Hnotin.
      apply (in_map fst) in H2. exact H2. }
    rewrite Hnone. reflexivity.
  - destruct (String.eqb k' k) eqn:E.
    + apply String.eqb_eq in E. subst k'. elim Hnotin.
      apply (in_map fst) in Hin. exact Hin.
    + apply IH; assumption.
Qed.

Lemma rows_for_nonempty dict k :
  existsb (fun r => String.eqb (fst r) k) dict = true ->
  rows_for dict k <> [].
Proof.
  unfold rows_for. induction dict as [|r dict IH]; simpl; [discriminate|].
  destruct (String.eqb (fst r) k); simpl; [discriminate|exact IH].
Qed.

(** X19. The lookup of the annotations fails with a [KeyError] exactly when
    some annotation is not in the index of the dictionary.  When it
    succeeds it returns at least one label per annotation, and when the
    index has no duplicate it returns exactly one per annotation, each the
    label the dictionary gives to the annotation at the same position. *)
Theorem loc_one_label_per_annotation dict Y :
  (loc dict Y = KeyError <->
   exists k, In k Y /\ ~ In k (map fst dict)) /\
  (forall out, loc dict Y = Found out -> (length Y <= length out)%nat) /\
  (NoDup (map fst dict) ->
   forall out, loc dict Y = Found out ->
     Forall2 (fun k v => In (k, v) dict) Y out).
Proof.
  assert (Hex : forall k,
             existsb (fun r : string * label => String.eqb (fst r) k) dict
             = true <-> In k (map fst dict)).
  { intros k. rewrite existsb_exists. split.
    - intros ([k' v] & Hin & E). simpl in E. apply String.eqb_eq in E.
      subst k'. apply (in_map fst) in Hin. exact Hin.
    - intros Hin. apply in_map_iff in Hin. destruct Hin as ([k' v] & E & Hin).
      simpl in E. subst k'. exists (k, v). split; [exact Hin|].
      apply String.eqb_refl. }
  unfold loc.
  destruct (forallb _ Y) eqn:Eall.
  - rewrite forallb_forall in Eall. split; [|split].
    + split; [discriminate|]. intros (k & Hk & Hn). elim Hn.
      apply Hex. apply Eall. exact Hk.
    + intros out [= <-]. clear Hex. induction Y as [|k Y IH]; [simpl; lia|].
      simpl. rewrite length_app.
      assert (Hk : rows_for dict k <> []).
      { apply rows_for_nonempty. apply Eall. left. reflexivity. }
      assert (IH' : (length Y <= length (concat (map (rows_for dict) Y)))%nat).
      { apply IH. intros z Hz. apply Eall. right. exact Hz. }
      destruct (rows_for dict k); [congruence|]. simpl. lia.
    + intros Hnd out [= <-]. induction Y as [|k Y IH]; [constructor|].
      assert (Hk : In k (map fst dict)).
      { apply Hex. apply Eall. left. reflexivity. }
      apply in_map_iff in Hk. destruct Hk as ([k' v] & E & Hin).
      simpl in E. subst k'. simpl.
      rewrite (rows_for_unique dict k v Hnd Hin). simpl.
      constructor; [exact Hin|]. apply IH.
      intros z Hz. apply Eall. right. exact Hz.
  - split; [|split]; try discriminate.
    split; [|reflexivity]. intros _.
    assert (Hnot : ~ (forall k, In k Y ->
                      existsb (fun r : string * label =>
                                 String.eqb (fst r) k) dict = true)).
    { intros H. apply forallb_forall in H. congruence. }
    clear Eall. induction Y as [|k Y IH].
    + elim Hnot. intros k [].
    + destruct (existsb (fun r : string * label => String.eqb (fst r) k) dict)
        eqn:Ek.
      * destruct IH as (k' & Hk' & Hn).
        { intros H. apply Hnot. intros z [<-|Hz]; [exact Ek|apply H; exact Hz]. }
        exists k'. split; [right; exact Hk'|exact Hn].
      * exists k. split; [left; reflexivity|]. intros Hin.
        apply Hex in Hin. congruence.
Qed.

(** ** Origin and unit of the timestamps *)

Section AffineTime.

Variable k c : Z.
Hypothesis k_pos : 0 < k.

Local Abbreviation rs := (rescale k c).

Lemma idx_rescale t i :
  (i < length t)%nat -> idx (map rs t) i = rs (idx t i).
Proof.
  intros Hi. unfold idx.
  rewrite (nth_indep _ 0 (rs 0)) by (rewrite length_map; exact Hi).
  apply map_nth.
Qed.

Lemma last_map {A B : Type} (f : A -> B) l d :
  last (map f l) (f d) = f (last l d).
Proof.
  induction l as [|x l IH]; [reflexivity|].
  simpl. destruct l; [reflexivity|]. exact IH.
Qed.

Lemma growth_sign_rescale t :
  index_growth_sign (map rs t) = index_growth_sign t.
Proof.
  unfold index_growth_sign. destruct t as [|t0 t]; [reflexivity|].
  change (map rs (t0 :: t)) with (rs t0 :: map rs t).
  cbv beta iota.
  change (rs t0 :: map rs t) with (map rs (t0 :: t)).
  rewrite last_map.
  assert (E : (rs (last (t0 :: t) t0) <? rs t0)
              = (last (t0 :: t) t0 <? t0)).
  { unfold rescale.
    destruct (last (t0 :: t) t0 <? t0) eqn:E.
    - apply Z.ltb_lt in E. apply Z.ltb_lt. nia.
    - apply Z.ltb_ge in E. apply Z.ltb_ge. nia. }
  rewrite E. reflexivity.
Qed.

Lemma start_test_rescale t w i j :
  no_overflow t w = true ->
  no_overflow (map rs t) (k * w) = true ->
  (i < length t)%nat -> (j < length t)%nat ->
  (0 <? mul64 (sub64 (idx (map rs t) j)
                 (sub64 (idx (map rs t) i)
                    (mul64 (index_growth_sign (map rs t)) (k * w))))
              (index_growth_sign (map rs t)))
  = (0 <? mul64 (sub64 (idx t j)
                   (sub64 (idx t i) (mul64 (index_growth_sign t) w)))
                (index_growth_sign t)).
Proof.
  intros H H' Hi Hj.
  rewrite (start_diff_exact t w i j H Hi Hj).
  rewrite (start_diff_exact (map rs t) (k * w) i j H')
    by (rewrite length_map; assumption).
  rewrite growth_sign_rescale, !idx_rescale by assumption.
  replace ((rs (idx t j) - (rs (idx t i) - index_growth_sign t * (k * w)))
           * index_growth_sign t)
    with (k * ((idx t j - (idx t i - index_growth_sign t * w))
               * index_growth_sign t))
    by (unfold rescale; ring).
  destruct (0 <? (idx t j - (idx t i - index_growth_sign t * w))
                 * index_growth_sign t) eqn:E.
  - apply Z.ltb_lt in E. apply Z.ltb_lt. nia.
  - apply Z.ltb_ge in E. apply Z.ltb_ge. nia.
Qed.

Lemma advance_start_rescale t w i n :
  no_overflow t w = true ->
  no_overflow (map rs t) (k * w) = true ->
  (i < length t)%nat ->
  forall j,
    (j + n <= i)%nat ->
    advance_start (map rs t)
      (sub64 (idx (map rs t) i)
         (mul64 (index_growth_sign (map rs t)) (k * w))) j n
    = advance_start t
        (sub64 (idx t i) (mul64 (index_growth_sign t) w)) j n.
Proof.
  intros H H' Hi.
  induction n as [|n IH]; intros j Hj; cbn [advance_start]; [reflexivity|].
  rewrite (start_test_rescale t w i j H H' Hi) by lia.
  destruct (0 <? mul64 (sub64 (idx t j)
                          (sub64 (idx t i) (mul64 (index_growth_sign t) w)))
                       (index_growth_sign t));
    [reflexivity|].
  apply IH. lia.
Qed.

Lemma bounds_from_rescale t w n :
  no_overflow t w = true ->
  no_overflow (map rs t) (k * w) = true ->
  forall i prev,
    (i + n <= length t)%nat ->
    bounds_from (map rs t) (k * w) i prev n = bounds_from t w i prev n.
Proof.
  intros H H'.
  induction n as [|n IH]; intros i prev Hi; cbn [bounds_from];
    [reflexivity|].
  destruct (Nat.le_gt_cases prev i) as [Hp|Hp].
  - rewrite (advance_start_rescale t w i (i - prev) H H') by lia.
    rewrite IH by lia. reflexivity.
  - replace (i - prev)%nat with O by lia. cbn [advance_start].
    rewrite IH by lia. reflexivity.
Qed.

Lemma window_bounds_rescale t w :
  no_overflow t w = true ->
  no_overflow (map rs t) (k * w) = true ->
  window_bounds (map rs t) (k * w) = window_bounds t w.
Proof.
  intros H H'.
  unfold window_bounds. destruct t as [|t0 t]; [reflexivity|].
  change (map rs (t0 :: t)) with (rs t0 :: map rs t).
  cbv beta iota. rewrite length_map.
  change (rs t0 :: map rs t) with (map rs (t0 :: t)).
  rewrite (bounds_from_rescale (t0 :: t) w (length t) H H');
    [reflexivity|simpl; lia].
Qed.

Lemma monotonic_increasing_rescale t :
  is_monotonic_increasing (map rs t) = is_monotonic_increasing t.
Proof.
  induction t as [|a t IH]; [reflexivity|].
  destruct t as [|b t]; [reflexivity|].
  change (((rs a <=? rs b)
           && is_monotonic_increasing (map rs (b :: t)))
          = ((a <=? b) && is_monotonic_increasing (b :: t))).
  rewrite IH. f_equal. unfold rescale.
  destruct (a <=? b) eqn:E.
  - apply Z.leb_le in E. apply Z.leb_le. nia.
  - apply Z.leb_gt in E. apply Z.leb_gt. nia.
Qed.

Lemma monotonic_decreasing_rescale t :
  is_monotonic_decreasing (map rs t) = is_monotonic_decreasing t.
Proof.
  induction t as [|a t IH]; [reflexivity|].
  destruct t as [|b t]; [reflexivity|].
  change (((rs b <=? rs a)
           && is_monotonic_decreasing (map rs (b :: t)))
          = ((b <=? a) && is_monotonic_decreasing (b :: t))).
  rewrite IH. f_equal. unfold rescale.
  destruct (b <=? a) eqn:E.
  - apply Z.leb_le in E. apply Z.leb_le. nia.
  - apply Z.leb_gt in E. apply Z.leb_gt. nia.
Qed.

(** X20. As long as the int64 arithmetic of the window search overflows
    neither before nor after, the result of [rolling_mode] depends on the
    timestamps only up to their origin and their unit: moving every
    timestamp by the same amount, or expressing timestamps and window
    length in a finer unit, changes neither the windows nor the smoothed
    sequence. *)
Theorem rolling_mode_origin_and_unit_free t y w :
  no_overflow t w = true ->
  no_overflow (map rs t) (k * w) = true ->
  rolling_windows (map rs t) (k * w) y = rolling_windows t w y /\
  rolling_mode (map rs t) y (k * w) = rolling_mode t y w.
Proof.
  intros Hfits Hfits'.
  assert (Hw : forall (A : Type) (x : list A),
             rolling_windows (map rs t) (k * w) x
             = rolling_windows t w x).
  { intros A x. unfold rolling_windows.
    rewrite (window_bounds_rescale t w Hfits Hfits'). reflexivity. }
  split; [apply Hw|].
  unfold rolling_mode.
  rewrite length_map, monotonic_increasing_rescale,
    monotonic_decreasing_rescale, Hw.
  reflexivity.
Qed.

End AffineTime.

Lemma rolling_mode_origin_and_unit_free_witness :
  rolling_mode (map (rescale 1000000000 0) [0; 30; 60])
    ["sit"; "walk"; "sit"]%string (1000000000 * 100)
  = rolling_mode [0; 30; 60] ["sit"; "walk"; "sit"]%string 100.
Proof.
  apply (rolling_mode_origin_and_unit_free 1000000000 0).
  - reflexivity.
  - vm_compute. reflexivity.
  - vm_compute. reflexivity.
Defined.

